(** * scripts/fetch_posts.js: a shallow embedding and its checked properties

    The script reads an edition registry (news/editions.csv), pulls a thread
    identifier out of each edition's link, fetches the thread's posts over
    HTTPS, keeps the leading run of posts written by the first post's author
    and stores it as news/editions/<edition>/posts.json.

    Layout of the development:
    - JavaScript strings and the String methods the script calls;
    - [parseArgs], [parseCsvLineFirstN], [readCsv];
    - JSON values, exceptions, JavaScript numbers, and the services the
      script takes from the runtime ([new URL], [JSON.parse],
      [JSON.stringify], [Number], [String] of a number) as a record
      [Runtime];
    - [extractTidFromLink], [postJson], [fetchThreadPosts],
      [selectContiguousFirstAuthorPosts];
    - the file system, the trace of observable actions, the edition loop
      turn by turn and [main];
    - a reference runtime, on which the definitions evaluate;
    - the vocabulary of the properties and the worked scenarios;
    - the properties: the registry reader, the selection, the extractor,
      the fetch, one pass of the edition loop, the command line, the
      batch.

    A JavaScript string is a sequence of UTF-16 code units.  The embedding
    keeps the code units below 256, so that a code unit is an [ascii] and a
    string is a [string] of the Standard Library. *)

From Stdlib Require Import ZArith String Ascii List Bool Lia DecimalString.
From stdpp Require Import base option strings list gmap.

Set Warnings "-register-all".
Local Open Scope Z_scope.

(** ** Characters and string literals that need a code *)

Definition dquote : ascii := "034"%char.
Definition comma : ascii := ","%char.
Definition LF : ascii := "010"%char.
Definition CR : ascii := "013"%char.

Definition str1 (c : ascii) : string := String c EmptyString.

(** [s] between double quotes. *)
Definition quoted (s : string) : string := str1 dquote +:+ s +:+ str1 dquote.

(** ** String methods *)

(** [s.length === 0]. *)
Definition is_empty (s : string) : bool :=
  match s with EmptyString => true | String _ _ => false end.

(** [s + ch]: the script builds fields one code unit at a time. *)
Definition push_char (s : string) (ch : ascii) : string := s +:+ str1 ch.

(** [s.startsWith(p)]. *)
Definition startsWith (p s : string) : bool := String.prefix p s.

(** [s.includes(p)]. *)
Fixpoint includes (p s : string) : bool :=
  String.prefix p s ||
  match s with
  | EmptyString => false
  | String _ s' => includes p s'
  end.

(** WhiteSpace and LineTerminator code units below 256: TAB, LF, VT, FF, CR,
    SP and NBSP.  These are what [trim] removes. *)
Definition is_white_space (c : ascii) : bool :=
  let n := nat_of_ascii c in
  ((9 <=? n)%nat && (n <=? 13)%nat) || (n =? 32)%nat || (n =? 160)%nat.

Fixpoint trimStart (s : string) : string :=
  match s with
  | EmptyString => EmptyString
  | String c s' => if is_white_space c then trimStart s' else s
  end.

Fixpoint trimEnd (s : string) : string :=
  match s with
  | EmptyString => EmptyString
  | String c s' =>
      match trimEnd s' with
      | EmptyString => if is_white_space c then EmptyString else str1 c
      | t => String c t
      end
  end.

(** [s.trim()]. *)
Definition trim (s : string) : string := trimEnd (trimStart s).

(** [s.split(sep)] for a one-character separator. *)
Fixpoint split_on (sep : ascii) (cur : string) (s : string) : list string :=
  match s with
  | EmptyString => [cur]
  | String c s' =>
      if Ascii.eqb c sep then cur :: split_on sep EmptyString s'
      else split_on sep (push_char cur c) s'
  end.

(** [raw.split(/\r?\n/)]: a line ends at LF, or at CR immediately followed by
    LF; a CR elsewhere stays in its line. *)
Fixpoint split_lines (cur : string) (s : string) : list string :=
  match s with
  | EmptyString => [cur]
  | String c s' =>
      if Ascii.eqb c LF then cur :: split_lines EmptyString s'
      else
        match s' with
        | String c' s'' =>
            if Ascii.eqb c CR && Ascii.eqb c' LF
            then cur :: split_lines EmptyString s''
            else split_lines (push_char cur c) s'
        | EmptyString => split_lines (push_char cur c) s'
        end
  end.

(** [String(n)] for an integer [n]. *)
Definition String_of_Z (n : Z) : string := NilZero.string_of_int (Z.to_int n).

(** [/^\d+$/.test(s)]: one or more ASCII digits and nothing else. *)
Definition is_digit (c : ascii) : bool :=
  let n := nat_of_ascii c in (48 <=? n)%nat && (n <=? 57)%nat.

Fixpoint all_digits (s : string) : bool :=
  match s with
  | EmptyString => true
  | String c s' => is_digit c && all_digits s'
  end.

Definition matches_digits (s : string) : bool :=
  negb (is_empty s) && all_digits s.

(** ** parseArgs *)

(** A value stored in [args]: a string, or [true] for a flag without value. *)
Inductive argval :=
| AStr (s : string)
| ATrue.

(** [args[k] = v].  Assigning a string or a boolean to [__proto__] of an
    object literal leaves the object without that own property. *)
Definition set_arg (k : string) (v : argval) (args : gmap string argval)
  : gmap string argval :=
  if decide (k = "__proto__") then args else <[k := v]> args.

(** [key.replace(/^--/, "")]. *)
Definition strip_dashes (key : string) : string :=
  match key with
  | String "-" (String "-" k) => k
  | _ => key
  end.

(** The body of the loop over [argv[i]], from the current [i] on: [part] is
    [argv[i]] and the rest of the list starts at [argv[i + 1]]. *)
Fixpoint parseArgs_from (argv : list string) (args : gmap string argval)
  : gmap string argval :=
  match argv with
  | [] => args
  | part :: rest =>
      if startsWith "--" part then
        let pieces := split_on "=" EmptyString part in
        let key := default EmptyString (pieces !! 0%nat) in
        let value := pieces !! 1%nat in
        let k := strip_dashes key in
        match value with
        | Some v => parseArgs_from rest (set_arg k (AStr v) args)
        | None =>
            match rest with
            | next :: rest' =>
                if negb (is_empty next) && negb (startsWith "--" next)
                then parseArgs_from rest' (set_arg k (AStr next) args)
                else parseArgs_from rest (set_arg k ATrue args)
            | [] => parseArgs_from rest (set_arg k ATrue args)
            end
        end
      else parseArgs_from rest args
  end.

(** [parseArgs(argv)]: the scan starts at [argv[2]]. *)
Definition parseArgs (argv : list string) : gmap string argval :=
  parseArgs_from (drop 2 argv) ∅.

(** ** parseCsvLineFirstN and readCsv *)

(** The [for] loop of [parseCsvLineFirstN] from position [i] on: [line] is
    the text from [line[i]], and the result is [fields] and [current] when
    the loop is left. *)
Fixpoint csv_scan (fieldsToExtract : nat) (line : string)
    (fields : list string) (current : string) (inQuotes : bool)
  : list string * string :=
  match line with
  | EmptyString => (fields, current)
  | String ch rest =>
      if Ascii.eqb ch dquote then
        match rest with
        | String ch' rest' =>
            if inQuotes && Ascii.eqb ch' dquote
            then csv_scan fieldsToExtract rest' fields
                   (push_char current dquote) inQuotes
            else csv_scan fieldsToExtract rest fields current (negb inQuotes)
        | EmptyString =>
            csv_scan fieldsToExtract rest fields current (negb inQuotes)
        end
      else if Ascii.eqb ch comma && negb inQuotes then
        let fields' := fields ++ [current] in
        if (length fields' =? fieldsToExtract)%nat
        then (fields', EmptyString)
        else csv_scan fieldsToExtract rest fields' EmptyString inQuotes
      else csv_scan fieldsToExtract rest fields (push_char current ch) inQuotes
  end.

Definition parseCsvLineFirstN (line : string) (fieldsToExtract : nat)
  : list string :=
  let '(fields, current) := csv_scan fieldsToExtract line [] EmptyString false in
  let fields :=
    if (length fields <? fieldsToExtract)%nat then fields ++ [current]
    else fields in
  trim <$> take fieldsToExtract fields.

(** A row of the registry.  [None] is JavaScript's [undefined]: what the
    destructuring [[edition, link] = ...] binds when the array is shorter. *)
Record row := Row { edition : option string; link : option string }.

(** [readCsv], on the text [fs.readFileSync] returned. *)
Definition readCsv (raw : string) : list row :=
  let lines := filter (λ l, is_empty l = false) (split_lines EmptyString raw) in
  match lines with
  | [] => []
  | _header :: data =>
      (λ l, let fs := parseCsvLineFirstN l 2 in Row (fs !! 0%nat) (fs !! 1%nat))
        <$> data
  end.

(** ** JSON values and exceptions *)

(** A value [JSON.parse] can return.  Numbers are the integers: [pid], [uid]
    and [dateline] are integers in the API's answers. *)
Inductive json :=
| JNull
| JBool (b : bool)
| JNum (n : Z)
| JStr (s : string)
| JArr (items : list json)
| JObj (props : list (string * json)).

(** The first entry of an association list under a key. *)
Fixpoint assoc {A} (k : string) (l : list (string * A)) : option A :=
  match l with
  | [] => None
  | (k', v) :: l' => if String.eqb k' k then Some v else assoc k l'
  end.

(** [v.k] for [v] other than [null], and [k] one of the names the script
    reads ([success], [message], [posts], [uid]): an object gives its own
    property, every other value gives [undefined], which is [None]. *)
Definition get_member (v : json) (k : string) : option json :=
  match v with
  | JObj props => assoc k props
  | _ => None
  end.

(** JavaScript's truthiness of a parsed value. *)
Definition truthy (v : json) : bool :=
  match v with
  | JNull => false
  | JBool b => b
  | JNum n => negb (n =? 0)
  | JStr s => negb (is_empty s)
  | JArr _ | JObj _ => true
  end.

(** An exception object: its [name] and [message]. *)
Record js_error := JsError { err_name : string; err_message : string }.

(** [new Error(message)]. *)
Definition Error (message : string) : js_error := JsError "Error" message.

(** [new RateLimitError(message)]: the constructor falls back to the
    marker when [message] is empty. *)
Definition MAX_HOURLY_CALLS_EXCEEDED : string := "MAX_HOURLY_CALLS_EXCEEDED".

Definition RateLimitError (message : string) : js_error :=
  JsError "RateLimitError"
    (if is_empty message then MAX_HOURLY_CALLS_EXCEEDED else message).

(** The outcome of an expression that can throw (or of a promise that can
    reject). *)
Inductive completion (A : Type) :=
| Return (a : A)
| Throw (e : js_error).
Arguments Return {A} a.
Arguments Throw {A} e.

(** Sequencing: a [Throw] skips what follows, up to the enclosing [catch]. *)
#[global] Instance completion_bind : MBind completion := λ A B k c,
  match c with
  | Return a => k a
  | Throw e => Throw e
  end.

(** ** Numbers *)

(** A finite JavaScript number (an IEEE 754 binary64 value) by its exact
    value: an integer, or [num / 2^bits] with [num] odd.  Minus zero is
    not told apart from zero: [String], [<], [<=] and [+ 1] give the same
    for both. *)
Inductive double :=
| Int (n : Z)
| Frac (num : Z) (bits : positive).

(** A JavaScript number as [Number] returns it for an argument. *)
Inductive number :=
| NaN
| Infinity (negative : bool)
| Finite (d : double).

(** The value of a double as [numerator / 2^exponent]. *)
Definition numerator (d : double) : Z :=
  match d with
  | Int n => n
  | Frac num _ => num
  end.

Definition exponent (d : double) : Z :=
  match d with
  | Int _ => 0
  | Frac _ bits => Z.pos bits
  end.

(** [a <= b] and [a < b] on finite numbers. *)
Definition double_leb (a b : double) : bool :=
  numerator a * 2 ^ exponent b <=? numerator b * 2 ^ exponent a.

Definition double_ltb (a b : double) : bool :=
  numerator a * 2 ^ exponent b <? numerator b * 2 ^ exponent a.

(** [a / 2^k] rounded to the nearest integer, a tie going to the even
    one, for [a >= 0] and [k >= 1]. *)
Definition round_half_even (a k : Z) : Z :=
  let q := a / 2 ^ k in
  let r := a mod 2 ^ k in
  let half := 2 ^ (k - 1) in
  if r <? half then q
  else if half <? r then q + 1
  else if Z.even q then q else q + 1.

(** The integer [x] rounded to 53 significant bits, as the arithmetic of
    doubles rounds an exact result: to the nearest, a tie to the even
    significand.  Integers up to [2^53] in absolute value are exact. *)
Definition round53 (x : Z) : Z :=
  let a := Z.abs x in
  if a <=? 2 ^ 53 then x
  else
    let k := Z.log2 a - 52 in
    Z.sgn x * (round_half_even a k * 2 ^ k).

(** The double of value [m / 2^bits]: common factors of two are taken
    out. *)
Fixpoint halve (m : Z) (bits : nat) : double :=
  match bits with
  | O => Int m
  | S bits' =>
      if Z.even m then halve (m / 2) bits'
      else Frac m (Pos.of_succ_nat bits')
  end.

Definition dyadic (m : Z) (bits : positive) : double :=
  halve m (Pos.to_nat bits).

(** [ed + 1], which is what [ed++] stores: the exact sum rounded to a
    double.  No sum of a double and 1 overflows or is subnormal, so the
    rounding is that of the significand alone.  From [2^53] on, the sum
    is not a double and the rounding gives [ed] back, or [ed + 2]. *)
Definition increment (d : double) : double :=
  match d with
  | Int n => Int (round53 (n + 1))
  | Frac num bits => dyadic (round53 (num + 2 ^ Z.pos bits)) bits
  end.

(** The integer has at most 53 significant bits. *)
Definition significant_53 (n : Z) : bool :=
  (Z.abs n <=? 2 ^ 53)
  || (Z.abs n mod 2 ^ (Z.log2 (Z.abs n) - 52) =? 0).

(** The value is one a binary64 number can have. *)
Definition is_double (d : double) : bool :=
  match d with
  | Int n => significant_53 n && (Z.abs n <? 2 ^ 1024)
  | Frac num bits =>
      Z.odd num && significant_53 num && (Z.pos bits <=? 1074)
      && (Z.abs num <? 2 ^ (1024 + Z.pos bits))
  end.

(** ** The runtime services *)

(** What the script takes from Node's runtime:
    - [URL_searchParams link] is the list of name-value pairs of
      [new URL(link).searchParams], names and values decoded, in the order
      of the query; [None] when the constructor throws;
    - [JSON_parse text] is [JSON.parse(text)], which throws a SyntaxError;
    - [JSON_stringify v] is [JSON.stringify(v, null, 2)];
    - [Number_of_string s] is [Number(s)], and a finite result is a
      double;
    - [Number_toString d] is [String(d)] for a number that is not an
      integer up to [2^53] in absolute value. *)
Record Runtime := {
  URL_searchParams : string → option (list (string * string));
  JSON_parse : string → completion json;
  JSON_stringify : json → string;
  Number_of_string : string → number;
  Number_toString : double → string;
  Number_of_string_double :
    ∀ s d, Number_of_string s = Finite d → is_double d = true;
}.

(** [String(d)]: an integer up to [2^53] in absolute value is written in
    decimal digits.  Beyond, [String] writes the shortest digits that
    read back as the number, which are not always those of the integer
    ([String(2 ** 60)] ends in three zeros). *)
Definition String_of_double (rt : Runtime) (d : double) : string :=
  match d with
  | Int n =>
      if Z.abs n <=? 2 ^ 53 then String_of_Z n else Number_toString rt d
  | Frac _ _ => Number_toString rt d
  end.

(** [searchParams.get(name)]: the value of the first pair named [name]. *)
Definition searchParams_get (params : list (string * string)) (name : string)
  : option string :=
  assoc name params.

(** ** extractTidFromLink *)

(** The whole body stands in a [try] whose [catch] returns [null]; [None]
    is [null]. *)
Definition extractTidFromLink (rt : Runtime) (link : string) : option string :=
  if is_empty link then None
  else
    match URL_searchParams rt link with
    | None => None
    | Some searchParams =>
        match searchParams_get searchParams "tid" with
        | None => None
        | Some tid =>
            if is_empty tid then None
            else if negb (matches_digits tid) then None
            else Some tid
        end
    end.

(** ** postJson and fetchThreadPosts *)

Record request := Request {
  req_url : string;
  req_headers : list (string * string);
  req_body : json;
}.

(** What the transport reports for one request: a response with its status
    code and the concatenated body chunks, or an [error] event. *)
Inductive http_result :=
| HttpResponse (statusCode : Z) (data : string)
| HttpError (e : js_error).

(** The remote side: its answer to the [n]-th request of the run. *)
Definition network := nat → request → http_result.

(** [obj[k] = v] on a header object: an existing name keeps its place. *)
Fixpoint set_header (k v : string) (headers : list (string * string))
  : list (string * string) :=
  match headers with
  | [] => [(k, v)]
  | (k', v') :: headers' =>
      if String.eqb k' k then (k', v) :: headers'
      else (k', v') :: set_header k v headers'
  end.

(** [{ ...a, ...b }] on header objects. *)
Definition merge_headers (a b : list (string * string))
  : list (string * string) :=
  foldl (λ acc kv, set_header kv.1 kv.2 acc) a b.

Definition postJson (rt : Runtime) (net : network) (n : nat)
    (url : string) (headers : list (string * string)) (body : json)
  : completion json :=
  let req :=
    Request url
      (merge_headers
         [("Content-Type", "application/json"); ("Accept", "application/json")]
         headers)
      body in
  match net n req with
  | HttpError e => Throw e
  | HttpResponse statusCode data =>
      if negb (statusCode =? 0) && (200 <=? statusCode) && (statusCode <? 300)
      then
        match JSON_parse rt (if is_empty data then "{}" else data) with
        | Return json => Return json
        | Throw e =>
            Throw (Error ("Failed to parse JSON response: " +:+ err_message e))
        end
      else
        Throw (Error ("HTTP " +:+ String_of_Z statusCode +:+ ": " +:+
                      (if is_empty data then "<no body>" else data)))
  end.

(** [fetchThreadPosts({ tid, token })]; the result is [response.posts], an
    array. *)
Definition fetchThreadPosts (rt : Runtime) (net : network) (n : nat)
    (tid token : string) : completion json :=
  let url := "https://hackforums.net/api/v2/read/posts" in
  let headers :=
    [("Authorization", "Bearer " +:+ token);
     ("Access-Token", token);
     ("Content-Type", "application/json");
     ("User-Agent", "PostmanRuntime/7.50.0")] in
  let body :=
    JObj [("asks",
      JObj [("posts",
        JObj [("_tid", JArr [JStr tid]);
              ("pid", JBool true);
              ("uid", JBool true);
              ("dateline", JBool true);
              ("message", JBool true);
              ("subject", JBool true)])])] in
  response ← postJson rt net n url headers body;
  if truthy response
     && match get_member response "success" with
        | Some (JBool false) => true
        | _ => false
        end
     && match get_member response "message" with
        | Some (JStr m) => String.eqb m MAX_HOURLY_CALLS_EXCEEDED
        | _ => false
        end
  then Throw (RateLimitError MAX_HOURLY_CALLS_EXCEEDED)
  else
    match (if truthy response then get_member response "posts" else None) with
    | Some (JArr posts) => Return (JArr posts)
    | _ => Throw (Error "Unexpected API response shape (missing posts array)")
    end.

(** ** selectContiguousFirstAuthorPosts *)

(** [p.uid]: reading a property of [null] throws a TypeError. *)
Definition read_uid (p : json) : completion (option json) :=
  match p with
  | JNull =>
      Throw (JsError "TypeError" "Cannot read properties of null (reading 'uid')")
  | _ => Return (get_member p "uid")
  end.

Definition is_primitive (v : option json) : bool :=
  match v with
  | Some (JArr _) | Some (JObj _) => false
  | _ => true
  end.

(** [===] on primitive values ([None] is [undefined]). *)
Definition primitive_eqb (a b : option json) : bool :=
  match a, b with
  | None, None => true
  | Some JNull, Some JNull => true
  | Some (JBool x), Some (JBool y) => Bool.eqb x y
  | Some (JNum x), Some (JNum y) => x =? y
  | Some (JStr x), Some (JStr y) => String.eqb x y
  | _, _ => false
  end.

(** [a === b] for [a] read from element [i] and [b] from element [j] of one
    array that [JSON.parse] built: primitives compare by value; an array or
    an object is only equal to itself, and a parsed document shares no
    object between two elements. *)
Definition strict_equals_at (i j : nat) (a b : option json) : bool :=
  if is_primitive a then primitive_eqb a b else (i =? j)%nat.

(** The [for] loop from index [i] on: [posts] holds [posts[i]], ... and
    [result] what was pushed so far. *)
Fixpoint select_from (firstUid : option json) (i : nat) (posts : list json)
    (result : list json) : completion (list json) :=
  match posts with
  | [] => Return result
  | p :: rest =>
      uid ← read_uid p;
      if strict_equals_at i 0 uid firstUid
      then select_from firstUid (S i) rest (result ++ [p])
      else Return result
  end.

Definition selectContiguousFirstAuthorPosts (posts : json)
  : completion (list json) :=
  match posts with
  | JArr (p0 :: rest) =>
      firstUid ← read_uid p0;
      select_from firstUid 0 (p0 :: rest) []
  | _ => Return []
  end.

(** ** path.join *)

(** The segments of a path, normalized as [path.posix.normalize] does:
    empty segments and [.] are dropped, [..] takes the segment before it
    away; at the start of a relative path [..] stays
    ([allowAboveRoot]), at the root it is dropped. *)
Fixpoint normalize_segments (allowAboveRoot : bool) (segments res : list string)
  : list string :=
  match segments with
  | [] => res
  | seg :: segments' =>
      if is_empty seg || String.eqb seg "." then
        normalize_segments allowAboveRoot segments' res
      else if String.eqb seg ".." then
        match last res with
        | Some l =>
            if String.eqb l ".."
            then normalize_segments allowAboveRoot segments'
                   (if allowAboveRoot then res ++ [".."] else res)
            else normalize_segments allowAboveRoot segments' (removelast res)
        | None =>
            normalize_segments allowAboveRoot segments'
              (if allowAboveRoot then [".."] else [])
        end
      else normalize_segments allowAboveRoot segments' (res ++ [seg])
  end.

Fixpoint endsWith_slash (s : string) : bool :=
  match s with
  | EmptyString => false
  | String c EmptyString => Ascii.eqb c "/"
  | String _ s' => endsWith_slash s'
  end.

(** [path.normalize(p)] on POSIX. *)
Definition path_normalize (p : string) : string :=
  if is_empty p then "."
  else
    let isAbsolute := startsWith "/" p in
    let trailingSeparator := endsWith_slash p in
    let body :=
      String.concat "/"
        (normalize_segments (negb isAbsolute) (split_on "/" EmptyString p) []) in
    if is_empty body then
      if isAbsolute then "/" else if trailingSeparator then "./" else "."
    else
      (if isAbsolute then "/" else EmptyString) +:+ body
      +:+ (if trailingSeparator then "/" else EmptyString).

(** [path.join(...parts)] on POSIX: the non-empty parts joined by [/],
    then normalized. *)
Definition path_join (parts : list string) : string :=
  let joined :=
    String.concat "/" (filter (λ part, is_empty part = false) parts) in
  if is_empty joined then "." else path_normalize joined.

(** ** The file system, the trace and the state of a run *)

(** The part of the file system the script touches, relative to the working
    directory [cwd]: the registry news/editions.csv ([None] when absent),
    the files news/editions/<key>/posts.json and the directories
    news/editions/<key>, by edition key.  Files are readable and writable. *)
Record world := World {
  cwd : string;
  registry : option string;
  posts_files : gmap string string;
  edition_dirs : gset string;
}.

(** What a run does that can be observed from outside, in order. *)
Inductive event :=
| ConsoleError (line : string)
| ConsoleLog (line : string)
| ReadRegistry
| Fetch (editionKey tid : string)
| MakeDir (editionKey : string)
| WriteFile (editionKey content : string).

(** The state threaded through a run: the file system, the number of
    requests sent so far and the trace. *)
Record state := State { disk : world; sent : nat; trace : list event }.

Definition emit (e : event) (st : state) : state :=
  State (disk st) (sent st) (trace st ++ [e]).

(** [fileExists(postsFile)] and [fs.readFileSync(postsFile, "utf8")] of an
    existing file. *)
Definition fileExists (w : world) (editionKey : string) : bool :=
  bool_decide (is_Some (posts_files w !! editionKey)).

Definition readFileSync (w : world) (editionKey : string) : string :=
  default EmptyString (posts_files w !! editionKey).

(** [ensureDirSync(editionDir)]. *)
Definition ensureDirSync (editionKey : string) (st : state) : state :=
  if decide (editionKey ∈ edition_dirs (disk st)) then st
  else
    let w := disk st in
    emit (MakeDir editionKey)
      (State (World (cwd w) (registry w) (posts_files w)
                (edition_dirs w ∪ {[editionKey]}))
         (sent st) (trace st)).

(** [fs.writeFileSync(postsFile, content, "utf8")]. *)
Definition writeFileSync (editionKey content : string) (st : state) : state :=
  let w := disk st in
  emit (WriteFile editionKey content)
    (State (World (cwd w) (registry w)
              (<[editionKey := content]> (posts_files w)) (edition_dirs w))
       (sent st) (trace st)).

(** The test of [main] on an existing posts.json: the file is there, it
    parses, and the parsed value has a non-empty array under [posts].  An
    exception of the [try] block leaves the edition to be fetched. *)
Definition posts_json_complete (rt : Runtime) (w : world)
    (editionKey : string) : bool :=
  fileExists w editionKey
  && match JSON_parse rt (readFileSync w editionKey) with
     | Return existing =>
         truthy existing
         && match get_member existing "posts" with
            | Some (JArr (_ :: _)) => true
            | _ => false
            end
     | Throw _ => false
     end.

(** ** main *)

(** How one pass of the edition loop ends: with the next edition, or with
    [process.exit(code)]. *)
Inductive control :=
| Next
| Exit (code : Z).

(** The [catch] of the edition loop treats an error as the rate limit when
    its name says so or its message holds the marker. *)
Definition is_rate_limit (err : js_error) : bool :=
  String.eqb (err_name err) "RateLimitError"
  || includes MAX_HOURLY_CALLS_EXCEEDED (err_message err).

(** The body of the [for] loop of [main] for the edition [ed]. *)
Definition edition_body (rt : Runtime) (net : network) (token : string)
    (editionToLink : gmap string string) (ed : double) (st : state)
  : control * state :=
  let editionKey := String_of_double rt ed in
  let link := default EmptyString (editionToLink !! editionKey) in
  match extractTidFromLink rt link with
  | None =>
      (Next, emit (ConsoleLog ("Edition " +:+ editionKey +:+ " - no tid found")) st)
  | Some tid =>
      if posts_json_complete rt (disk st) editionKey then
        (Next,
         emit (ConsoleLog
                 ("Edition " +:+ editionKey +:+ " - posts.json exists, skipping"))
           st)
      else
        let n := sent st in
        let st := State (disk st) (S n) (trace st ++ [Fetch editionKey tid]) in
        match
          posts ← fetchThreadPosts rt net n tid token;
          selectContiguousFirstAuthorPosts posts
        with
        | Return contiguous =>
            let st := ensureDirSync editionKey st in
            let payload := JObj [("posts", JArr contiguous)] in
            let st := writeFileSync editionKey (JSON_stringify rt payload) st in
            (Next,
             emit (ConsoleLog
                     ("Edition " +:+ editionKey +:+ " - fetched "
                      +:+ String_of_Z (Z.of_nat (length contiguous))
                      +:+ " post(s)"))
               st)
        | Throw err =>
            if is_rate_limit err then
              (Exit 1,
               emit (ConsoleLog
                       "Rate limit reached: MAX_HOURLY_CALLS_EXCEEDED. Stopping.")
                 st)
            else
              (Next,
               emit (ConsoleLog
                       ("Edition " +:+ editionKey +:+ " - fetch failed: "
                        +:+ err_message err))
                 st)
        end
  end.

(** The [for] loop, turn by turn.  Before a turn the loop is about to test
    [ed <= endNum] in some state; a turn runs that test and, when it
    holds, the body and [ed++].  The loop is over when the test fails or
    the body calls [process.exit]. *)
Inductive loop_state :=
| AtTest (ed : double) (st : state)
| Finished (st : state)
| Exited (code : Z) (st : state).

Definition loop_turn (rt : Runtime) (net : network) (token : string)
    (editionToLink : gmap string string) (endNum : double) (l : loop_state)
  : loop_state :=
  match l with
  | AtTest ed st =>
      if double_leb ed endNum then
        match edition_body rt net token editionToLink ed st with
        | (Next, st') => AtTest (increment ed) st'
        | (Exit code, st') => Exited code st'
        end
      else Finished st
  | Finished st => Finished st
  | Exited code st => Exited code st
  end.

(** Where the loop stands after [turns] turns from [l]. *)
Definition edition_loop (rt : Runtime) (net : network) (token : string)
    (editionToLink : gmap string string) (endNum : double) (turns : nat)
    (l : loop_state) : loop_state :=
  Nat.iter turns (loop_turn rt net token editionToLink endNum) l.

Definition state_of (l : loop_state) : state :=
  match l with
  | AtTest _ st | Finished st | Exited _ st => st
  end.

(** The exit status once the loop is over: 0 when [main] returns. *)
Definition status_of (l : loop_state) : option Z :=
  match l with
  | AtTest _ _ => None
  | Finished _ => Some 0
  | Exited code _ => Some code
  end.

(** The lookup table [main] builds from the rows: a later row replaces an
    earlier one of the same edition. *)
Definition build_editionToLink (rows : list row) : gmap string string :=
  foldl (λ m r,
           match edition r with
           | None => m
           | Some e => <[e := default EmptyString (link r)]> m
           end) ∅ rows.

(** [a || b] on two reads of [args]: [a] when it is truthy, else [b]; the
    result is [None] when the value chosen is falsy, which is all [main]
    asks of it. *)
Definition arg_truthy (a : option argval) : option argval :=
  match a with
  | Some (AStr s) => if is_empty s then None else a
  | Some ATrue => a
  | None => None
  end.

Definition arg_or (a b : option argval) : option argval :=
  match arg_truthy a with
  | Some v => Some v
  | None => arg_truthy b
  end.

(** [Number(v)] and [String(v)] of an argument value. *)
Definition Number (rt : Runtime) (v : argval) : number :=
  match v with
  | ATrue => Finite (Int 1)
  | AStr s => Number_of_string rt s
  end.

Definition arg_text (v : argval) : string :=
  match v with
  | ATrue => "true"
  | AStr s => s
  end.

Definition usage : string :=
  "Usage: node scripts/fetch_posts.js --start <StartEditionNumber> --end <EndEditionNumber> --token <APIToken>".

(** [main()], followed for at most [turns] turns of its loop: the exit
    status of the process ([None] while the loop is still running) and
    the state reached, from the command line [argv] and the file system
    [w]. *)
Definition main (rt : Runtime) (net : network) (turns : nat)
    (argv : list string) (w : world) : option Z * state :=
  let st := State w 0 [] in
  let args := parseArgs argv in
  match arg_or (args !! "start") (args !! "s"),
        arg_or (args !! "end") (args !! "e"),
        arg_or (args !! "token") (args !! "t") with
  | Some start, Some end_, Some token =>
      match Number rt start, Number rt end_ with
      | Finite startNum, Finite endNum =>
          if double_ltb endNum startNum then
            (Some 1, emit (ConsoleError "End must be >= Start") st)
          else
            let editionsCsvPath := path_join [cwd w; "news"; "editions.csv"] in
            match registry w with
            | None =>
                (Some 1,
                 emit (ConsoleError ("Cannot find " +:+ editionsCsvPath)) st)
            | Some raw =>
                let st := emit ReadRegistry st in
                let editionToLink := build_editionToLink (readCsv raw) in
                let l :=
                  edition_loop rt net (arg_text token) editionToLink endNum
                    turns (AtTest startNum st) in
                (status_of l, state_of l)
            end
      | _, _ =>
          (Some 1, emit (ConsoleError "Start and End must be numeric") st)
      end
  | _, _, _ => (Some 1, emit (ConsoleError usage) st)
  end.

(** ** A reference runtime

    Executable versions of the services, for running the definitions on
    concrete inputs.  Those for URLs and JSON cover a fragment of what
    Node accepts and agree with Node inside it:
    - URLs [http://host[:port]] and [https://host[:port]], written in
      lower case, followed by nothing or by text that starts with [/],
      [?] or [#]; the characters are printable ASCII; [host] is made of
      dot-separated labels of letters and digits, the last of which
      starts with a letter; [port] has at most four digits; percent
      escapes of the query stand for ASCII characters.  A text without
      [http://] or [https://] in front is rejected: this is what Node
      does when the text has no scheme at all;
    - JSON documents whose numbers are integer literals, whose [\u]
      escapes are below 256 and whose member names are not array indices;
    - [Number] of a string and [String] of a number are not restricted:
      [Number] reads the literals of StringNumericLiteral (decimal with
      fraction and exponent, [Infinity], and the [0x], [0o] and [0b]
      integers) and rounds to the nearest double; [String] writes the
      shortest digits that read back as the number.
    The properties below are proved for every runtime; this one only
    serves the worked scenarios. *)
Module Reference.

Definition is_alpha (c : ascii) : bool :=
  let n := nat_of_ascii c in
  ((65 <=? n)%nat && (n <=? 90)%nat) || ((97 <=? n)%nat && (n <=? 122)%nat).

Definition is_alnum (c : ascii) : bool := is_alpha c || is_digit c.

Definition is_printable (c : ascii) : bool :=
  let n := nat_of_ascii c in (33 <=? n)%nat && (n <=? 126)%nat.

Fixpoint forallb_string (f : ascii → bool) (s : string) : bool :=
  match s with
  | EmptyString => true
  | String c s' => f c && forallb_string f s'
  end.

(** The text before the first character satisfying [stop], and the text
    from that character on. *)
Fixpoint break_at (stop : ascii → bool) (s : string) : string * string :=
  match s with
  | EmptyString => (EmptyString, EmptyString)
  | String c s' =>
      if stop c then (EmptyString, s)
      else let '(a, b) := break_at stop s' in (String c a, b)
  end.

Definition hex_value (c : ascii) : option nat :=
  let n := nat_of_ascii c in
  if (48 <=? n)%nat && (n <=? 57)%nat then Some (n - 48)%nat
  else if (65 <=? n)%nat && (n <=? 70)%nat then Some (n - 55)%nat
  else if (97 <=? n)%nat && (n <=? 102)%nat then Some (n - 87)%nat
  else None.

(** Decoding of a name or a value of the query: [+] is a space and [%XX] a
    byte; [None] when a byte is not ASCII. *)
Fixpoint form_decode (s : string) : option string :=
  match s with
  | EmptyString => Some EmptyString
  | String c s' =>
      if Ascii.eqb c "+" then String " " <$> form_decode s'
      else
        match s' with
        | String h (String l s'') =>
            match (if Ascii.eqb c "%" then hex_value h else None), hex_value l with
            | Some a, Some b =>
                if (16 * a + b <? 128)%nat
                then String (ascii_of_nat (16 * a + b)) <$> form_decode s''
                else None
            | _, _ => String c <$> form_decode s'
            end
        | _ => String c <$> form_decode s'
        end
  end.

(** The pairs of a query string: sequences between [&], the empty ones
    skipped, each split at its first [=]. *)
Definition form_pairs (query : string) : option (list (string * string)) :=
  mapM (λ piece,
          let '(name, rest) := break_at (Ascii.eqb "=") piece in
          let value := match rest with String _ v => v | EmptyString => EmptyString end in
          name ← form_decode name; value ← form_decode value; Some (name, value))
       (filter (λ piece, is_empty piece = false)
               (split_on "&" EmptyString query)).

Definition valid_label (l : string) : bool :=
  negb (is_empty l) && forallb_string is_alnum l.

Definition valid_host (host : string) : bool :=
  let labels := split_on "." EmptyString host in
  forallb valid_label labels
  && match last labels with
     | Some (String c _) => is_alpha c
     | _ => false
     end.

Definition valid_port (port : string) : bool :=
  match port with
  | EmptyString => true
  | String c digits =>
      Ascii.eqb c ":" && all_digits digits
      && (String.length digits <=? 4)%nat
  end.

Definition URL_searchParams (link : string) : option (list (string * string)) :=
  let after_scheme :=
    if String.prefix "http://" link then Some (String.substring 7 (String.length link) link)
    else if String.prefix "https://" link then Some (String.substring 8 (String.length link) link)
    else None in
  match after_scheme with
  | None => None
  | Some rest =>
      if negb (forallb_string is_printable rest) then None
      else
        let '(authority, tail) :=
          break_at (λ c, Ascii.eqb c "/" || Ascii.eqb c "?" || Ascii.eqb c "#") rest in
        let '(host, port) := break_at (Ascii.eqb ":") authority in
        if negb (valid_host host && valid_port port) then None
        else
          let '(before_fragment, _) := break_at (Ascii.eqb "#") tail in
          let '(_, from_query) := break_at (Ascii.eqb "?") before_fragment in
          match from_query with
          | EmptyString => Some []
          | String _ query => form_pairs query
          end
  end.

(** *** Number and String of a number *)

(** The number written by a string of decimal digits. *)
Definition decimal_value (digits : string) : Z :=
  Z.of_N (N.of_uint (default Decimal.Nil (NilZero.uint_of_string digits))).

(** The number written by a non-empty string of digits in a base up to
    16. *)
Fixpoint digits_value (base : Z) (acc : Z) (s : string) : option Z :=
  match s with
  | EmptyString => Some acc
  | String c s' =>
      match hex_value c with
      | Some v =>
          if Z.of_nat v <? base
          then digits_value base (acc * base + Z.of_nat v) s'
          else None
      | None => None
      end
  end.

Definition based_value (base : Z) (s : string) : option Z :=
  if is_empty s then None else digits_value base 0 s.

(** [floor (log2 (p / q))], for [p > 0] and [q > 0]. *)
Definition log2_ratio (p q : Z) : Z :=
  let e := Z.log2 p - Z.log2 q in
  if p * 2 ^ Z.max 0 (- e) <? q * 2 ^ Z.max 0 e then e - 1 else e.

(** [num / den] rounded to the nearest integer, a tie going to the even
    one. *)
Definition round_ratio (num den : Z) : Z :=
  let q := num / den in
  let r := num mod den in
  if 2 * r <? den then q
  else if den <? 2 * r then q + 1
  else if Z.even q then q else q + 1.

(** The double nearest to [p / q], for [p >= 0] and [q > 0], a tie going
    to the even significand: the significand has 53 bits, or fewer below
    [2^-1022], where the doubles are the multiples of [2^-1074].  [None]
    when the nearest value is [2^1024], which no double has. *)
Definition nearest_double (p q : Z) : option double :=
  if p =? 0 then Some (Int 0)
  else
    let u := Z.max (log2_ratio p q - 52) (- 1074) in
    let m := round_ratio (p * 2 ^ Z.max 0 (- u)) (q * 2 ^ Z.max 0 u) in
    if 0 <=? u
    then if m * 2 ^ u <? 2 ^ 1024 then Some (Int (m * 2 ^ u)) else None
    else Some (halve m (Z.to_nat (- u))).

(** [Finite d] when [d] is a double. *)
Definition finite_or (d : double) (otherwise : number) : number :=
  if is_double d then Finite d else otherwise.

Definition negate (d : double) : double :=
  match d with
  | Int n => Int (- n)
  | Frac num bits => Frac (- num) bits
  end.

(** The number nearest to [± p / q]. *)
Definition number_of_ratio (negative : bool) (p q : Z) : number :=
  match nearest_double p q with
  | Some d => finite_or (if negative then negate d else d) NaN
  | None => Infinity negative
  end.

(** A sign and what follows it. *)
Definition split_sign (s : string) : bool * string :=
  match s with
  | String "-" b => (true, b)
  | String "+" b => (false, b)
  | _ => (false, s)
  end.

(** SignedInteger: digits after an optional sign. *)
Definition signed_integer (s : string) : option Z :=
  let '(negative, digits) := split_sign s in
  if matches_digits digits
  then Some (if negative then - decimal_value digits else decimal_value digits)
  else None.

(** StrUnsignedDecimalLiteral other than [Infinity]: digits with an
    optional fraction, or a fraction alone, and an optional exponent; the
    value as [(n, e)] for [n * 10^e]. *)
Definition unsigned_decimal (s : string) : option (Z * Z) :=
  let '(mantissa, from_e) :=
    break_at (λ c, Ascii.eqb c "e" || Ascii.eqb c "E") s in
  let '(whole, from_dot) := break_at (Ascii.eqb ".") mantissa in
  let fraction :=
    match from_dot with
    | String _ f => f
    | EmptyString => EmptyString
    end in
  let well_formed :=
    match from_dot with
    | EmptyString => matches_digits whole
    | String _ _ =>
        (matches_digits whole && all_digits fraction)
        || (is_empty whole && matches_digits fraction)
    end in
  let exponent :=
    match from_e with
    | EmptyString => Some 0
    | String _ ex => signed_integer ex
    end in
  match exponent with
  | Some ex =>
      if well_formed
      then Some (decimal_value (whole +:+ fraction),
                 ex - Z.of_nat (String.length fraction))
      else None
  | None => None
  end.

(** NonDecimalIntegerLiteral: [0x], [0o] or [0b] and digits of the
    base. *)
Definition non_decimal (s : string) : option Z :=
  match s with
  | String "0" (String c digits) =>
      if Ascii.eqb c "x" || Ascii.eqb c "X" then based_value 16 digits
      else if Ascii.eqb c "o" || Ascii.eqb c "O" then based_value 8 digits
      else if Ascii.eqb c "b" || Ascii.eqb c "B" then based_value 2 digits
      else None
  | _ => None
  end.

(** [Number(s)]: white space around the literal is dropped; the empty
    string is 0; a literal of StringNumericLiteral has the nearest number
    as its value; every other string is [NaN]. *)
Definition Number_of_string (s : string) : number :=
  let t := trim s in
  if is_empty t then finite_or (Int 0) NaN
  else
    match non_decimal t with
    | Some n => number_of_ratio false n 1
    | None =>
        let '(negative, body) := split_sign t in
        if String.eqb body "Infinity" then Infinity negative
        else
          match unsigned_decimal body with
          | Some (n, e) =>
              number_of_ratio negative (n * 10 ^ Z.max 0 e) (10 ^ Z.max 0 (- e))
          | None => NaN
          end
    end.

Fixpoint zeros (n : nat) : string :=
  match n with
  | O => EmptyString
  | S n' => String "0" (zeros n')
  end.

(** [a = b] on doubles. *)
Definition double_eqb (a b : double) : bool :=
  double_leb a b && double_leb b a.

(** The least [n], from [n] on, with [p / q < 10^n]. *)
Fixpoint decade (p q n : Z) (fuel : nat) : Z :=
  match fuel with
  | O => n
  | S fuel' =>
      if p * 10 ^ Z.max 0 (- n) <? q * 10 ^ Z.max 0 n then n
      else decade p q (n + 1) fuel'
  end.

(** [s * 10^(n - k)] reads back as the double [x]. *)
Definition reads_back (x : double) (s n k : Z) : bool :=
  match nearest_double (s * 10 ^ Z.max 0 (n - k)) (10 ^ Z.max 0 (k - n)) with
  | Some y => double_eqb x y
  | None => false
  end.

(** The [k] digits [s] with [s * 10^(n - k)] nearest to [p / q] among
    those that read back as [x], for [10^(n-1) <= p / q < 10^n]; the
    result holds [s] and its exponent, which is [n + 1] when the digits
    are those of [10^n]. *)
Definition digits_at (x : double) (p q n k : Z) : option (Z * Z) :=
  let num := p * 10 ^ Z.max 0 (k - n) in
  let den := q * 10 ^ Z.max 0 (n - k) in
  let lo := num / den in
  let below := num - lo * den in
  let above := (lo + 1) * den - num in
  let lo_ok := reads_back x lo n k in
  let hi_ok := reads_back x (lo + 1) n k in
  let hi := if lo + 1 =? 10 ^ k then (10 ^ (k - 1), n + 1) else (lo + 1, n) in
  if lo_ok && hi_ok then
    if below <? above then Some (lo, n)
    else if above <? below then Some hi
    else if Z.even lo then Some (lo, n) else Some hi
  else if lo_ok then Some (lo, n)
  else if hi_ok then Some hi
  else None.

(** The shortest digits that read back as [x]: [k] goes up from 1; 17
    digits always do. *)
Fixpoint shortest_digits (x : double) (p q n k : Z) (fuel : nat)
  : Z * Z * Z :=
  match fuel with
  | O => (p / q, n, k)
  | S fuel' =>
      match digits_at x p q n k with
      | Some (s, n') => (s, n', k)
      | None => shortest_digits x p q n (k + 1) fuel'
      end
  end.

Definition substring_from (i : nat) (s : string) : string :=
  String.substring i (String.length s - i) s.

(** Number::toString for the digits [s] (there are [k] of them) and the
    exponent [n]: the value is [s * 10^(n - k)]. *)
Definition format_digits (s n k : Z) : string :=
  let digits := String_of_Z s in
  let exponent_part :=
    "e" +:+ (if 0 <=? n - 1 then "+" else "-") +:+ String_of_Z (Z.abs (n - 1)) in
  if (k <=? n) && (n <=? 21) then digits +:+ zeros (Z.to_nat (n - k))
  else if (0 <? n) && (n <=? 21) then
    String.substring 0 (Z.to_nat n) digits +:+ "."
    +:+ substring_from (Z.to_nat n) digits
  else if (- 6 <? n) && (n <=? 0) then
    "0." +:+ zeros (Z.to_nat (- n)) +:+ digits
  else if k =? 1 then digits +:+ exponent_part
  else
    String.substring 0 1 digits +:+ "." +:+ substring_from 1 digits
    +:+ exponent_part.

(** [String(d)]: the shortest digits that read back as [d], laid out by
    the size of the number. *)
Definition Number_toString (d : double) : string :=
  let p := Z.abs (numerator d) in
  let q := 2 ^ exponent d in
  if p =? 0 then "0"
  else
    let n := decade p q (- 330) 660 in
    let '(s, n', k) := shortest_digits (if numerator d <? 0 then negate d else d)
                         p q n 1 17 in
    (if numerator d <? 0 then "-" else EmptyString) +:+ format_digits s n' k.

(** *** JSON.parse *)

Definition is_json_space (c : ascii) : bool :=
  let n := nat_of_ascii c in
  (n =? 32)%nat || (n =? 9)%nat || (n =? 10)%nat || (n =? 13)%nat.

Fixpoint skip_ws (s : string) : string :=
  match s with
  | String c s' => if is_json_space c then skip_ws s' else s
  | EmptyString => s
  end.

Definition simple_escape (c : ascii) : option ascii :=
  if Ascii.eqb c dquote then Some dquote
  else if Ascii.eqb c "\" then Some "\"%char
  else if Ascii.eqb c "/" then Some "/"%char
  else if Ascii.eqb c "b" then Some "008"%char
  else if Ascii.eqb c "f" then Some "012"%char
  else if Ascii.eqb c "n" then Some LF
  else if Ascii.eqb c "r" then Some CR
  else if Ascii.eqb c "t" then Some "009"%char
  else None.

Definition cons_fst (c : ascii) (r : string * string) : string * string :=
  (String c r.1, r.2).

(** The characters of a string literal after its opening quote, and the
    text after its closing quote. *)
Fixpoint parse_string (s : string) : option (string * string) :=
  match s with
  | EmptyString => None
  | String c r =>
      if Ascii.eqb c dquote then Some (EmptyString, r)
      else if Ascii.eqb c "\" then
        match r with
        | String e r' =>
            if Ascii.eqb e "u" then
              match r' with
              | String h1 (String h2 (String h3 (String h4 r''))) =>
                  match hex_value h1, hex_value h2, hex_value h3, hex_value h4 with
                  | Some 0%nat, Some 0%nat, Some a, Some b =>
                      cons_fst (ascii_of_nat (16 * a + b)) <$> parse_string r''
                  | _, _, _, _ => None
                  end
              | _ => None
              end
            else
              match simple_escape e with
              | Some ch => cons_fst ch <$> parse_string r'
              | None => None
              end
        | EmptyString => None
        end
      else if (nat_of_ascii c <? 32)%nat then None
      else cons_fst c <$> parse_string r
  end.

(** An integer literal: [0] or a digit from 1 to 9 followed by digits,
    after an optional minus sign. *)
Definition parse_number (s : string) : option (json * string) :=
  let '(negative, body) :=
    match s with
    | String "-" b => (true, b)
    | _ => (false, s)
    end in
  let '(digits, rest) := break_at (λ c, negb (is_digit c)) body in
  let fraction_follows :=
    match rest with
    | String c _ => Ascii.eqb c "." || Ascii.eqb c "e" || Ascii.eqb c "E"
    | EmptyString => false
    end in
  let leading_zero :=
    match digits with
    | String "0" (String _ _) => true
    | _ => false
    end in
  if is_empty digits || fraction_follows || leading_zero then None
  else
    let n :=
      Z.of_N (N.of_uint (default Decimal.Nil (NilZero.uint_of_string digits))) in
    Some (JNum (if negative then - n else n), rest).

(** [props[k] = v] while an object is built: a repeated name keeps its
    place and takes the later value. *)
Fixpoint set_prop (k : string) (v : json) (props : list (string * json))
  : list (string * json) :=
  match props with
  | [] => [(k, v)]
  | (k', v') :: props' =>
      if String.eqb k' k then (k', v) :: props'
      else (k', v') :: set_prop k v props'
  end.

Definition expect (lit : string) (v : json) (s : string) : option (json * string) :=
  if String.prefix lit s
  then Some (v, String.substring (String.length lit) (String.length s) s)
  else None.

Fixpoint parse_value (fuel : nat) (s : string) {struct fuel}
  : option (json * string) :=
  match fuel with
  | O => None
  | S fuel =>
      match skip_ws s with
      | EmptyString => None
      | String c r as t =>
          if Ascii.eqb c "{" then
            match skip_ws r with
            | String "}" r' => Some (JObj [], r')
            | _ => parse_members fuel r []
            end
          else if Ascii.eqb c "[" then
            match skip_ws r with
            | String "]" r' => Some (JArr [], r')
            | _ => parse_elements fuel r []
            end
          else if Ascii.eqb c dquote then
            '(str, r') ← parse_string r; Some (JStr str, r')
          else if Ascii.eqb c "t" then expect "true" (JBool true) t
          else if Ascii.eqb c "f" then expect "false" (JBool false) t
          else if Ascii.eqb c "n" then expect "null" JNull t
          else parse_number t
      end
  end
with parse_elements (fuel : nat) (s : string) (items : list json) {struct fuel}
  : option (json * string) :=
  match fuel with
  | O => None
  | S fuel =>
      '(v, r) ← parse_value fuel s;
      match skip_ws r with
      | String "," r' => parse_elements fuel r' (items ++ [v])
      | String "]" r' => Some (JArr (items ++ [v]), r')
      | _ => None
      end
  end
with parse_members (fuel : nat) (s : string) (props : list (string * json))
    {struct fuel} : option (json * string) :=
  match fuel with
  | O => None
  | S fuel =>
      match skip_ws s with
      | String c r =>
          if Ascii.eqb c dquote then
            '(k, r) ← parse_string r;
            match skip_ws r with
            | String ":" r =>
                '(v, r) ← parse_value fuel r;
                match skip_ws r with
                | String "," r' => parse_members fuel r' (set_prop k v props)
                | String "}" r' => Some (JObj (set_prop k v props), r')
                | _ => None
                end
            | _ => None
            end
          else None
      | EmptyString => None
      end
  end.

(** The message of V8's SyntaxError quotes the offending text; the
    reference gives one message for all. *)
Definition JSON_parse (text : string) : completion json :=
  match parse_value (2 * String.length text + 2) text with
  | Some (v, r) =>
      if is_empty (skip_ws r) then Return v
      else Throw (JsError "SyntaxError" "Unexpected non-whitespace character after JSON")
  | None => Throw (JsError "SyntaxError" "Unexpected token in JSON")
  end.

(** *** JSON.stringify(value, null, 2) *)

Definition hex_digit (n : nat) : ascii :=
  ascii_of_nat (if (n <? 10)%nat then 48 + n else 87 + n).

Fixpoint quote_chars (s : string) : string :=
  match s with
  | EmptyString => EmptyString
  | String c s' =>
      let n := nat_of_ascii c in
      (if Ascii.eqb c dquote then "\" +:+ str1 dquote
       else if Ascii.eqb c "\" then "\\"
       else if (n =? 8)%nat then "\b"
       else if (n =? 12)%nat then "\f"
       else if (n =? 10)%nat then "\n"
       else if (n =? 13)%nat then "\r"
       else if (n =? 9)%nat then "\t"
       else if (n <? 32)%nat
       then "\u00" +:+ str1 (hex_digit (n / 16)) +:+ str1 (hex_digit (n mod 16))
       else str1 c)
      +:+ quote_chars s'
  end.

Definition quote (s : string) : string :=
  str1 dquote +:+ quote_chars s +:+ str1 dquote.

Fixpoint stringify (indent : string) (v : json) {struct v} : string :=
  let inner := indent +:+ "  " in
  match v with
  | JNull => "null"
  | JBool b => if b then "true" else "false"
  | JNum n => String_of_Z n
  | JStr s => quote s
  | JArr [] => "[]"
  | JArr items =>
      "[" +:+ str1 LF
      +:+ String.concat ("," +:+ str1 LF)
            (map (λ x, inner +:+ stringify inner x) items)
      +:+ str1 LF +:+ indent +:+ "]"
  | JObj [] => "{}"
  | JObj props =>
      "{" +:+ str1 LF
      +:+ String.concat ("," +:+ str1 LF)
            (map (λ kv, let '(k, x) := kv in
                        inner +:+ quote k +:+ ": " +:+ stringify inner x)
                 props)
      +:+ str1 LF +:+ indent +:+ "}"
  end.

Definition JSON_stringify (v : json) : string := stringify EmptyString v.

(** The reference [Number] returns doubles only. *)
Lemma finite_or_double (d d' : double) (otherwise : number) :
  (∀ x, otherwise ≠ Finite x) →
  finite_or d otherwise = Finite d' → is_double d' = true.
Proof.
  unfold finite_or. intros Hother.
  destruct (is_double d) eqn:Hd.
  - by intros [= <-].
  - intros H. by destruct (Hother d').
Qed.

Lemma number_of_ratio_double (negative : bool) (p q : Z) (d : double) :
  number_of_ratio negative p q = Finite d → is_double d = true.
Proof.
  unfold number_of_ratio.
  destruct (nearest_double p q); [by apply finite_or_double|done].
Qed.

Lemma Number_of_string_double (s : string) (d : double) :
  Number_of_string s = Finite d → is_double d = true.
Proof.
  unfold Number_of_string.
  destruct (is_empty (trim s)); [by apply finite_or_double|].
  destruct (non_decimal (trim s)); [apply number_of_ratio_double|].
  destruct (split_sign (trim s)) as [negative body].
  destruct (String.eqb body "Infinity"); [done|].
  destruct (unsigned_decimal body) as [[n e]|]; [|done].
  apply number_of_ratio_double.
Qed.

Definition runtime : Runtime :=
  Build_Runtime URL_searchParams JSON_parse JSON_stringify Number_of_string
    Number_toString Number_of_string_double.

End Reference.

(** * The vocabulary of the properties *)

(** ** Strings *)

Definition first_char (s : string) : option ascii :=
  match s with
  | EmptyString => None
  | String c _ => Some c
  end.

Fixpoint last_char (s : string) : option ascii :=
  match s with
  | EmptyString => None
  | String c EmptyString => Some c
  | String _ s' => last_char s'
  end.

(** A string carries no surrounding space when neither its first nor its
    last character is one [trim] removes. *)
Definition no_surrounding_space (s : string) : Prop :=
  (∀ c, first_char s = Some c → is_white_space c = false)
  ∧ (∀ c, last_char s = Some c → is_white_space c = false).

(** ** The registry *)

(** A row whose fields, where it has them, carry no surrounding space. *)
Definition row_trimmed (r : row) : Prop :=
  (∀ e, edition r = Some e → no_surrounding_space e)
  ∧ (∀ l, link r = Some l → no_surrounding_space l).

(** The registry of the specification's example and one whose only data
    line has a single field. *)
Definition registry_quoted_comma : string :=
  "Edition,Link,Name,Note" +:+ str1 LF
  +:+ "5," +:+ quoted "http://x?tid=9,9" +:+ ",A,B" +:+ str1 LF.

Definition registry_single_field : string :=
  "Edition,Link,Name,Note" +:+ str1 LF +:+ "5" +:+ str1 LF.

(** ** Cells of the registry *)

(** A text without double quote and without comma, and a text without
    double quote. *)
Fixpoint plain_text (s : string) : bool :=
  match s with
  | EmptyString => true
  | String c s' =>
      negb (Ascii.eqb c dquote) && negb (Ascii.eqb c comma) && plain_text s'
  end.

Fixpoint quote_free (s : string) : bool :=
  match s with
  | EmptyString => true
  | String c s' => negb (Ascii.eqb c dquote) && quote_free s'
  end.

Fixpoint comma_free (s : string) : bool :=
  match s with
  | EmptyString => true
  | String c s' => negb (Ascii.eqb c comma) && comma_free s'
  end.

(** ** Posts *)

(** A post is any value but [null]; the API sends objects. *)
Definition non_null (p : json) : bool :=
  match p with
  | JNull => false
  | _ => true
  end.

Definition uid_of (p : json) : option json := get_member p "uid".

(** The post at index [i] of [P] has the author of the post at index 0, as
    [===] on their [uid]s decides. *)
Definition same_author (P : list json) (i : nat) : bool :=
  match P !! i, P !! 0%nat with
  | Some p, Some p0 => strict_equals_at i 0 (uid_of p) (uid_of p0)
  | _, _ => false
  end.

(** The number of leading elements of [posts], which start at index [i] of
    the array, whose [uid] is [firstUid]. *)
Fixpoint run_length (firstUid : option json) (i : nat) (posts : list json)
  : nat :=
  match posts with
  | [] => 0
  | p :: rest =>
      if strict_equals_at i 0 (uid_of p) firstUid
      then S (run_length firstUid (S i) rest)
      else 0
  end.

Definition post (uid : Z) (message : string) : json :=
  JObj [("pid", JNum 0); ("uid", JNum uid); ("dateline", JNum 0);
        ("message", JStr message); ("subject", JStr "")].

(** ** Links *)

(** The link parses as a URL, and some pair of its query is named [tid] and
    has a value of digits only. *)
Definition carries_numeric_tid (rt : Runtime) (L : string) : Prop :=
  ∃ params v,
    URL_searchParams rt L = Some params
    ∧ ("tid", v) ∈ params
    ∧ matches_digits v = true.

(** The link parses as a URL, and the first pair of its query named [tid]
    has the value [t], of digits only. *)
Definition first_tid_is (rt : Runtime) (L t : string) : Prop :=
  ∃ params,
    URL_searchParams rt L = Some params
    ∧ searchParams_get params "tid" = Some t
    ∧ matches_digits t = true.

Definition link_two_tids : string := "http://x/?tid=abc&tid=123".

(** ** The edition loop *)

Definition edition_key (rt : Runtime) (ed : double) : string :=
  String_of_double rt ed.

(** The link [main] looks up for an edition. *)
Definition link_of (rt : Runtime) (table : gmap string string) (ed : double)
  : string :=
  default EmptyString (table !! edition_key rt ed).

(** The state once the request for an edition has been sent. *)
Definition fetching (rt : Runtime) (st : state) (ed : double) (tid : string)
  : state :=
  State (disk st) (S (sent st)) (trace st ++ [Fetch (edition_key rt ed) tid]).

(** The two calls of the [try] block that can throw: the fetch and the
    selection. *)
Definition attempt (rt : Runtime) (net : network) (token tid : string)
    (st : state) : completion (list json) :=
  posts ← fetchThreadPosts rt net (sent st) tid token;
  selectContiguousFirstAuthorPosts posts.

Definition payload_text (rt : Runtime) (contiguous : list json) : string :=
  JSON_stringify rt (JObj [("posts", JArr contiguous)]).

Definition line_no_tid (rt : Runtime) (ed : double) : string :=
  "Edition " +:+ edition_key rt ed +:+ " - no tid found".
Definition line_skipping (rt : Runtime) (ed : double) : string :=
  "Edition " +:+ edition_key rt ed +:+ " - posts.json exists, skipping".
Definition line_fetched (rt : Runtime) (ed : double) (n : nat) : string :=
  "Edition " +:+ edition_key rt ed +:+ " - fetched "
  +:+ String_of_Z (Z.of_nat n) +:+ " post(s)".
Definition line_failed (rt : Runtime) (ed : double) (message : string)
  : string :=
  "Edition " +:+ edition_key rt ed +:+ " - fetch failed: " +:+ message.
Definition line_rate_limit : string :=
  "Rate limit reached: MAX_HOURLY_CALLS_EXCEEDED. Stopping.".

(** The cache file of an edition exists, parses as JSON, and its [posts]
    field is a non-empty array. *)
Definition cached_posts_nonempty (rt : Runtime) (w : world) (ed : double)
  : Prop :=
  ∃ text existing items,
    posts_files w !! edition_key rt ed = Some text
    ∧ JSON_parse rt text = Return existing
    ∧ get_member existing "posts" = Some (JArr items)
    ∧ items ≠ [].

(** An edition that needs no request: it has no tid, or its cache is
    complete; and the line it logs. *)
Definition settled (rt : Runtime) (table : gmap string string) (w : world)
    (ed : double) : Prop :=
  extractTidFromLink rt (link_of rt table ed) = None
  ∨ cached_posts_nonempty rt w ed.

Definition settled_line (rt : Runtime) (table : gmap string string)
    (ed : double) : string :=
  match extractTidFromLink rt (link_of rt table ed) with
  | None => line_no_tid rt ed
  | Some _ => line_skipping rt ed
  end.

(** The integers from [startNum] to [endNum], in ascending order. *)
Definition edition_range (startNum endNum : Z) : list Z :=
  seqZ startNum (endNum - startNum + 1).

(** A range of integers on which the loop counter counts exactly: every
    [ed + 1] it computes is below or at [2^53]. *)
Definition counts_exactly (startNum endNum : Z) : Prop :=
  - 2 ^ 53 ≤ startNum ∧ endNum < 2 ^ 53.

(** The values the loop counter has when the body runs: [startNum] when
    it passes the test, and [ed + 1] after a value [ed] when it passes
    the test in turn. *)
Inductive visited (startNum endNum : double) : double → Prop :=
| visited_first :
    double_leb startNum endNum = true →
    visited startNum endNum startNum
| visited_next ed :
    visited startNum endNum ed →
    double_leb (increment ed) endNum = true →
    visited startNum endNum (increment ed).

(** The loop, started at [startNum] in the state [st], is at the test for
    the edition [ed] in the state [st'] after [turns] turns. *)
Definition reaches (rt : Runtime) (net : network) (token : string)
    (table : gmap string string) (startNum endNum : double) (st : state)
    (turns : nat) (ed : double) (st' : state) : Prop :=
  edition_loop rt net token table endNum turns (AtTest startNum st)
  = AtTest ed st'.

(** ** The command line *)

(** The value [main] takes for an option: that of the long name when it is
    truthy, else that of the short name; [None] when neither is. *)
Definition supplied (argv : list string) (long short : string)
  : option argval :=
  arg_or (parseArgs argv !! long) (parseArgs argv !! short).

(** The argument [part] names the option [k]: it is [--k], or starts with
    [--k=]. *)
Definition names_option (k part : string) : bool :=
  startsWith "--" part
  && String.eqb
       (strip_dashes (default EmptyString (split_on "=" EmptyString part !! 0%nat)))
       k.


(** A value that can follow a flag: not empty, and not itself a flag. *)
Definition plain_value (v : string) : Prop :=
  is_empty v = false ∧ startsWith "--" v = false.

(** The command line and the registry pass the checks of [main]: the
    range is [startNum .. endNum], the token [token], and [table] the
    lookup table built from the registry. *)
Definition accepted (rt : Runtime) (argv : list string) (w : world)
    (startNum endNum : double) (token : string) (table : gmap string string)
  : Prop :=
  ∃ start end_ tok raw,
    supplied argv "start" "s" = Some start
    ∧ supplied argv "end" "e" = Some end_
    ∧ supplied argv "token" "t" = Some tok
    ∧ Number rt start = Finite startNum
    ∧ Number rt end_ = Finite endNum
    ∧ double_leb startNum endNum = true
    ∧ registry w = Some raw
    ∧ token = arg_text tok
    ∧ table = build_editionToLink (readCsv raw).

(** What [main] does once the arguments have passed its checks, followed
    for [turns] turns of the loop: without the registry file it stops
    with the path it looked for; else it reads the registry and runs the
    loop from [startNum] to [endNum] with the token. *)
Definition batch (rt : Runtime) (net : network) (turns : nat)
    (token : string) (startNum endNum : double) (w : world)
  : option Z * state :=
  match registry w with
  | None =>
      (Some 1,
       State w 0
         [ConsoleError
            ("Cannot find " +:+ path_join [cwd w; "news"; "editions.csv"])])
  | Some raw =>
      let l :=
        edition_loop rt net token (build_editionToLink (readCsv raw)) endNum
          turns (AtTest startNum (State w 0 [ReadRegistry])) in
      (status_of l, state_of l)
  end.

(** [main] stops at a check: one line on the error stream, status 1, and
    nothing else done. *)
Definition refused (line : string) (w : world) : option Z * state :=
  (Some 1, State w 0 [ConsoleError line]).

(** The process exits with the status [code] in the state [st]: this is
    where [main] stands after every large enough number of turns. *)
Definition exits (rt : Runtime) (net : network) (argv : list string)
    (w : world) (code : Z) (st : state) : Prop :=
  ∃ n, ∀ turns, (n ≤ turns)%nat → main rt net turns argv w = (Some code, st).

(** ** Answers of the API *)

(** The answer has the shape of the rate-limit response. *)
Definition rate_limit_shaped (response : json) : Prop :=
  get_member response "success" = Some (JBool false)
  ∧ get_member response "message" = Some (JStr MAX_HOURLY_CALLS_EXCEEDED).

Definition has_posts_array (response : json) : Prop :=
  ∃ items, get_member response "posts" = Some (JArr items).

(** The text [postJson] parses: an empty body is read as an empty object. *)
Definition body_text (data : string) : string :=
  if is_empty data then "{}" else data.

Definition http_message (status : Z) (data : string) : string :=
  "HTTP " +:+ String_of_Z status +:+ ": "
  +:+ (if is_empty data then "<no body>" else data).

(** ** Worked scenarios *)

(** A registry with editions 10 to 14; edition 11 has no [tid]. *)
Definition registry_10_14 : string :=
  "Edition,Link,Name,Note" +:+ str1 LF
  +:+ "10,https://site/thread?tid=42,A,B" +:+ str1 LF
  +:+ "11,https://site/thread,A,B" +:+ str1 LF
  +:+ "12,https://site/thread?tid=43,A,B" +:+ str1 LF
  +:+ "13,https://site/thread?tid=44,A,B" +:+ str1 LF
  +:+ "14,https://site/thread?tid=45,A,B" +:+ str1 LF.

Definition table_10_14 : gmap string string :=
  build_editionToLink (readCsv registry_10_14).

(** Answers of the API: three posts by the authors 1, 1 and 2; no post;
    the rate-limit response. *)
Definition body_three_posts : string :=
  "{" +:+ quoted "posts" +:+ ":["
  +:+ "{" +:+ quoted "pid" +:+ ":7," +:+ quoted "uid" +:+ ":1},"
  +:+ "{" +:+ quoted "pid" +:+ ":8," +:+ quoted "uid" +:+ ":1},"
  +:+ "{" +:+ quoted "pid" +:+ ":9," +:+ quoted "uid" +:+ ":2}"
  +:+ "]}".

Definition body_no_posts : string := "{" +:+ quoted "posts" +:+ ":[]}".

Definition body_rate_limit : string :=
  "{" +:+ quoted "success" +:+ ":false," +:+ quoted "message" +:+ ":"
  +:+ quoted MAX_HOURLY_CALLS_EXCEEDED +:+ "}".

(** The posts of [body_three_posts]. *)
Definition post_of (pid uid : Z) : json :=
  JObj [("pid", JNum pid); ("uid", JNum uid)].

(** What [JSON.stringify(payload, null, 2)] writes for an empty selection. *)
Definition file_no_posts : string :=
  "{" +:+ str1 LF +:+ "  " +:+ quoted "posts" +:+ ": []" +:+ str1 LF +:+ "}".

(** A remote side that answers every request alike. *)
Definition always (answer : http_result) : network := λ _ _, answer.

(** A remote side that answers by thread: 43 is rate limited, every other
    thread has the three posts. *)
Definition rate_limit_on_43 : network := λ _ req,
  match req_body req with
  | JObj [("asks", JObj [("posts", JObj (("_tid", JArr [JStr "43"]) :: _))])] =>
      HttpResponse 200 body_rate_limit
  | _ => HttpResponse 200 body_three_posts
  end.

(** The registry is there and no edition has a cache file. *)
Definition empty_disk : world :=
  World "/repo" (Some registry_10_14) ∅ ∅.

(** Edition 14 has a cache file holding an empty [posts] array. *)
Definition disk_empty_cache_14 : world :=
  World "/repo" (Some registry_10_14) {[ "14" := body_no_posts ]} {[ "14" ]}.

(** Editions 10, 12, 13 and 14 have complete cache files. *)
Definition disk_all_cached : world :=
  World "/repo" (Some registry_10_14)
    (list_to_map [("10", body_three_posts); ("12", body_three_posts);
                  ("13", body_three_posts); ("14", body_three_posts)])
    (list_to_set ["10"; "12"; "13"; "14"]).

(** A command line that gives the three options under chosen names. *)
Definition command_line_with (ks ke kt start end_ token : string)
  : list string :=
  ["node"; "scripts/fetch_posts.js";
   "--" +:+ ks; start; "--" +:+ ke; end_; "--" +:+ kt; token].

Definition command_line (start end_ : string) : list string :=
  command_line_with "start" "end" "token" start end_ "secret".




(** ** More vocabulary: registry text, command lines, files *)

(** A cell written the CSV way: between quotes, each quote doubled. *)
Fixpoint csv_escape (s : string) : string :=
  match s with
  | EmptyString => EmptyString
  | String c s' =>
      if Ascii.eqb c dquote then String dquote (String dquote (csv_escape s'))
      else String c (csv_escape s')
  end.

Definition csv_cell (s : string) : string := quoted (csv_escape s).

(** A cell of a registry line: written as it is, or between quotes with
    each quote doubled. *)
Inductive cell :=
| Plain (content : string)
| Quoted (content : string).

Definition cell_content (c : cell) : string :=
  match c with
  | Plain content | Quoted content => content
  end.

Definition cell_text (c : cell) : string :=
  match c with
  | Plain content => content
  | Quoted content => csv_cell content
  end.

(** A cell written as it is holds neither quote nor comma. *)
Definition well_formed (c : cell) : Prop :=
  match c with
  | Plain content => plain_text content = true
  | Quoted _ => True
  end.

(** The line of the cells, separated by commas. *)
Fixpoint csv_line (cells : list cell) : string :=
  match cells with
  | [] => EmptyString
  | [c] => cell_text c
  | c :: cells' => cell_text c +:+ String comma (csv_line cells')
  end.

(** A text of white space only. *)
Fixpoint white (s : string) : bool :=
  match s with
  | EmptyString => true
  | String c s' => is_white_space c && white s'
  end.

(** A text without the character [c]. *)
Fixpoint free_of (c : ascii) (s : string) : bool :=
  match s with
  | EmptyString => true
  | String c' s' => negb (Ascii.eqb c' c) && free_of c s'
  end.

(** The text with every LF turned into CR LF. *)
Fixpoint crlf (s : string) : string :=
  match s with
  | EmptyString => EmptyString
  | String c s' =>
      if Ascii.eqb c LF then String CR (String LF (crlf s'))
      else String c (crlf s')
  end.

(** A header line: not empty, on one line. *)
Definition header_line (h : string) : Prop :=
  is_empty h = false ∧ free_of LF h = true ∧ free_of CR h = true.

(** The row has the edition [e]. *)
Definition row_of (e : string) (r : row) : Prop := edition r = Some e.

(** An argument that starts a flag, or no argument at all, comes first. *)
Definition starts_with_flag (argv : list string) : Prop :=
  match argv with
  | [] => True
  | part :: _ => startsWith "--" part = true
  end.

(** The editions a trace asks the API for, and the editions whose file
    it writes, each in the order of the trace. *)
Definition fetched (tr : list event) : list string :=
  omap (λ e, match e with Fetch k _ => Some k | _ => None end) tr.

Definition written (tr : list event) : list string :=
  omap (λ e, match e with WriteFile k _ => Some k | _ => None end) tr.

Definition made (tr : list event) : list string :=
  omap (λ e, match e with MakeDir k => Some k | _ => None end) tr.

(** The edition directories once the directories a trace makes are there. *)
Definition dirs_after (dirs : gset string) (tr : list event) : gset string :=
  dirs ∪ list_to_set (made tr).

(** Replaying a trace from the edition directories [dirs]: every file is
    written into a directory that exists by then, and a directory is made
    only when it is not there yet. *)
Fixpoint writes_in_dirs (dirs : gset string) (tr : list event) : Prop :=
  match tr with
  | [] => True
  | MakeDir k :: tr' => (k ∉ dirs) ∧ writes_in_dirs (dirs ∪ {[k]}) tr'
  | WriteFile k _ :: tr' => k ∈ dirs ∧ writes_in_dirs dirs tr'
  | _ :: tr' => writes_in_dirs dirs tr'
  end.

(** The state [st'] comes after [st] in a run that works on the editions
    with a key in [allowed] only: events were added to the trace; the
    working directory and the registry are as they were; no file was
    removed; the directories are those there were and those made, each
    made before a file was written into it; files were written only for
    editions requested, and requests and directories were for allowed
    editions only; the files of other editions and the files that were
    complete are as they were, and no complete file's edition was
    requested. *)
Definition comes_after (rt : Runtime) (allowed : string → Prop)
    (st st' : state) : Prop :=
  ∃ evs,
    trace st' = trace st ++ evs
    ∧ cwd (disk st') = cwd (disk st)
    ∧ registry (disk st') = registry (disk st)
    ∧ dom (posts_files (disk st)) ⊆ dom (posts_files (disk st'))
    ∧ edition_dirs (disk st') = dirs_after (edition_dirs (disk st)) evs
    ∧ writes_in_dirs (edition_dirs (disk st)) evs
    ∧ written evs `sublist_of` fetched evs
    ∧ sent st' = (sent st + length (fetched evs))%nat
    ∧ Forall allowed (fetched evs)
    ∧ Forall allowed (made evs)
    ∧ (∀ key,
         posts_json_complete rt (disk st) key = true → key ∉ fetched evs)
    ∧ (∀ key,
         (¬ allowed key) ∨ posts_json_complete rt (disk st) key = true →
         posts_files (disk st') !! key = posts_files (disk st) !! key).

(** Edition 10 has a complete cache file, the other editions none. *)
Definition disk_cached_10 : world :=
  World "/repo" (Some registry_10_14) {[ "10" := body_three_posts ]} {[ "10" ]}.

(** The registry is missing, in a working directory and at the root. *)
Definition disk_no_registry : world := World "/repo" None ∅ ∅.

Definition root_no_registry : world := World "/" None ∅ ∅.

(** A registry whose only edition is [2^53], and a disk with it. *)
Definition registry_2_53 : string :=
  "Edition,Link" +:+ str1 LF
  +:+ "9007199254740992,https://site/thread?tid=42" +:+ str1 LF.

Definition disk_2_53 : world := World "/repo" (Some registry_2_53) ∅ ∅.

(** A registry with the editions 10.5 and 11.5. *)
Definition registry_halves : string :=
  "Edition,Link" +:+ str1 LF
  +:+ "10.5,https://site/thread?tid=42" +:+ str1 LF
  +:+ "11.5,https://site/thread" +:+ str1 LF.

Definition disk_halves : world := World "/repo" (Some registry_halves) ∅ ∅.

(** * Properties *)

(** Closes a goal between closed terms by evaluation. *)
Ltac evaluate := vm_compute; reflexivity.

(** ** [trim] *)

Lemma trimStart_first s c :
  first_char (trimStart s) = Some c → is_white_space c = false.
Proof.
  induction s as [|a s IH]; simpl; [done|].
  destruct (is_white_space a) eqn:Ha; [done|].
  simpl. by intros [= ->].
Qed.

Lemma trimEnd_last s c :
  last_char (trimEnd s) = Some c → is_white_space c = false.
Proof.
  induction s as [|a s IH]; simpl; [done|].
  destruct (trimEnd s) as [|b t] eqn:Ht.
  - destruct (is_white_space a) eqn:Ha; simpl; [done|]. by intros [= ->].
  - simpl. exact IH.
Qed.

Lemma trimEnd_first s c c' :
  first_char s = Some c → is_white_space c = false →
  first_char (trimEnd s) = Some c' → c' = c.
Proof.
  destruct s as [|a s]; simpl; [done|].
  intros [= ->] Hc.
  destruct (trimEnd s); [rewrite Hc|]; simpl; congruence.
Qed.

Lemma trimEnd_empty_first s :
  first_char s = None → first_char (trimEnd s) = None.
Proof. by destruct s. Qed.

Lemma trim_no_surrounding_space s : no_surrounding_space (trim s).
Proof.
  unfold trim. split; intros c Hc; [|by eapply trimEnd_last].
  destruct (first_char (trimStart s)) as [a|] eqn:Ha.
  - pose proof (trimStart_first _ _ Ha) as Hws.
    by rewrite (trimEnd_first _ _ _ Ha Hws Hc).
  - by rewrite (trimEnd_empty_first _ Ha) in Hc.
Qed.

Lemma empty_no_surrounding_space : no_surrounding_space EmptyString.
Proof. by split. Qed.

(** ** The registry reader *)

Lemma parseCsvLineFirstN_trimmed line fieldsToExtract :
  Forall no_surrounding_space (parseCsvLineFirstN line fieldsToExtract).
Proof.
  unfold parseCsvLineFirstN.
  destruct (csv_scan _ _ _ _ _) as [fields current].
  apply Forall_fmap, Forall_forall. intros f _. apply trim_no_surrounding_space.
Qed.

Lemma parseCsvLineFirstN_length line fieldsToExtract :
  (length (parseCsvLineFirstN line fieldsToExtract) ≤ fieldsToExtract)%nat.
Proof.
  unfold parseCsvLineFirstN.
  destruct (csv_scan _ _ _ _ _) as [fields current].
  rewrite length_fmap, length_take. lia.
Qed.

Lemma readCsv_rows_trimmed raw : Forall row_trimmed (readCsv raw).
Proof.
  unfold readCsv.
  destruct (filter _ _) as [|header data]; [constructor|].
  apply Forall_fmap, Forall_forall. intros l _.
  pose proof (parseCsvLineFirstN_trimmed l 2) as Hall.
  rewrite Forall_lookup in Hall.
  split; simpl; intros f Hf; eapply Hall; exact Hf.
Qed.

Lemma build_editionToLink_trimmed rows :
  Forall row_trimmed rows →
  map_Forall (λ k v, no_surrounding_space k ∧ no_surrounding_space v)
    (build_editionToLink rows).
Proof.
  unfold build_editionToLink.
  assert (Hgen : ∀ (m : gmap string string),
    map_Forall (λ k v, no_surrounding_space k ∧ no_surrounding_space v) m →
    Forall row_trimmed rows →
    map_Forall (λ k v, no_surrounding_space k ∧ no_surrounding_space v)
      (foldl (λ m r,
                match edition r with
                | None => m
                | Some e => <[e := default EmptyString (link r)]> m
                end) m rows)).
  { induction rows as [|r rows IH]; intros m Hm Hrows; simpl; [done|].
    inversion Hrows as [|? ? [He Hl] Hrest]; subst.
    apply IH; [|done].
    destruct (edition r) as [e|] eqn:Hed; [|done].
    apply map_Forall_insert_2; [|done].
    split; [by apply He|].
    destruct (link r) as [l|]; simpl;
      [by apply Hl | apply empty_no_surrounding_space]. }
  apply Hgen. apply map_Forall_empty.
Qed.


(** *** How [parseCsvLineFirstN] reads a line *)

Lemma append_cons c s t : String c s +:+ t = String c (s +:+ t).
Proof. reflexivity. Qed.

Lemma append_push_char s c t : push_char s c +:+ t = s +:+ String c t.
Proof.
  unfold push_char, str1. induction s as [|a s IH]; [done|].
  by rewrite !append_cons, IH.
Qed.

Lemma append_empty_r s : s +:+ EmptyString = s.
Proof. induction s as [|a s IH]; [done|]. by rewrite append_cons, IH. Qed.

(** Outside quotes, a run of characters that are neither quote nor comma
    is appended to the field in progress. *)
Lemma csv_scan_plain n a : ∀ s fields current,
  plain_text a = true →
  csv_scan n (a +:+ s) fields current false
  = csv_scan n s fields (current +:+ a) false.
Proof.
  induction a as [|c a IH]; intros s fields current Ha.
  - by rewrite append_empty_r.
  - simpl in Ha. apply andb_prop in Ha as [Hc Ha].
    apply andb_prop in Hc as [Hq Hcm].
    apply negb_true_iff in Hq. apply negb_true_iff in Hcm.
    rewrite append_cons. simpl. rewrite Hq, Hcm. simpl. rewrite IH by done.
    by rewrite append_push_char.
Qed.

(** Inside quotes, a run of characters other than the quote, commas
    included, is appended to the field in progress. *)
Lemma csv_scan_in_quotes n q : ∀ s fields current,
  quote_free q = true →
  csv_scan n (q +:+ s) fields current true
  = csv_scan n s fields (current +:+ q) true.
Proof.
  induction q as [|c q IH]; intros s fields current Hq.
  - by rewrite append_empty_r.
  - simpl in Hq. apply andb_prop in Hq as [Hc Hq].
    apply negb_true_iff in Hc.
    rewrite append_cons. simpl. rewrite Hc.
    rewrite andb_false_r. rewrite IH by done.
    by rewrite append_push_char.
Qed.

(** Inside quotes, two quotes in a row stand for one quote character. *)
Lemma csv_scan_doubled_quote n s fields current :
  csv_scan n (String dquote (String dquote s)) fields current true
  = csv_scan n s fields (push_char current dquote) true.
Proof. reflexivity. Qed.

(** A comma outside quotes ends the field; the scan stops when this was
    the last field wanted. *)
Lemma csv_scan_comma_more n s fields current :
  length (fields ++ [current]) ≠ n →
  csv_scan n (String comma s) fields current false
  = csv_scan n s (fields ++ [current]) EmptyString false.
Proof.
  intros Hn. simpl.
  by destruct (Nat.eqb_spec (length (fields ++ [current])) n).
Qed.

Lemma csv_scan_comma_last n s fields current :
  length (fields ++ [current]) = n →
  csv_scan n (String comma s) fields current false
  = (fields ++ [current], EmptyString).
Proof.
  intros Hn. simpl.
  by destruct (Nat.eqb_spec (length (fields ++ [current])) n).
Qed.

(** An opening quote outside quotes switches to the quoted reading. *)
Lemma csv_scan_open_quote n s fields current :
  csv_scan n (String dquote s) fields current false
  = csv_scan n s fields current true.
Proof. simpl. by destruct s. Qed.

(** A closing quote that no quote follows switches back. *)
Lemma csv_scan_close_quote n c s fields current :
  Ascii.eqb c dquote = false →
  csv_scan n (String dquote (String c s)) fields current true
  = csv_scan n (String c s) fields current false.
Proof. intros Hc. simpl. by rewrite Hc. Qed.

(** Two unquoted fields followed by more: the first two are returned and
    the rest of the line is not read. *)
Lemma parseCsvLineFirstN_two_fields a b rest :
  plain_text a = true → plain_text b = true →
  parseCsvLineFirstN (a +:+ String comma (b +:+ String comma rest)) 2
  = [trim a; trim b].
Proof.
  intros Ha Hb. unfold parseCsvLineFirstN.
  rewrite csv_scan_plain, csv_scan_comma_more by done.
  rewrite csv_scan_plain, csv_scan_comma_last by done.
  done.
Qed.

(** A quoted second field keeps its commas. *)
Lemma parseCsvLineFirstN_quoted_field a q rest :
  plain_text a = true → quote_free q = true →
  parseCsvLineFirstN
    (a +:+ String comma (String dquote (q +:+ String dquote (String comma rest)))) 2
  = [trim a; trim q].
Proof.
  intros Ha Hq. unfold parseCsvLineFirstN.
  rewrite csv_scan_plain, csv_scan_comma_more by done.
  rewrite csv_scan_open_quote, csv_scan_in_quotes by done.
  rewrite csv_scan_close_quote, csv_scan_comma_last by done.
  done.
Qed.

(** A line without comma has one field, and the array returned has one
    element: nothing stands for the second field. *)
Lemma csv_scan_comma_free n : ∀ k line fields current inQuotes,
  (String.length line ≤ k)%nat →
  comma_free line = true →
  (csv_scan n line fields current inQuotes).1 = fields.
Proof.
  induction k as [|k IH]; intros line fields current inQuotes Hlen Hline.
  { destruct line; [done|simpl in Hlen; lia]. }
  destruct line as [|c line]; [done|].
  simpl in Hlen, Hline. apply andb_prop in Hline as [Hc Hline].
  apply negb_true_iff in Hc.
  simpl. destruct (Ascii.eqb c dquote).
  - destruct line as [|c' line']; [done|].
    destruct (inQuotes && Ascii.eqb c' dquote).
    + simpl in Hline. apply andb_prop in Hline as [_ Hline].
      apply IH; [simpl in Hlen; lia|done].
    + apply IH; [lia|done].
  - rewrite Hc. simpl. apply IH; [lia|done].
Qed.

Lemma parseCsvLineFirstN_one_field line :
  comma_free line = true →
  ∃ field, parseCsvLineFirstN line 2 = [field].
Proof.
  intros Hline. unfold parseCsvLineFirstN.
  pose proof (csv_scan_comma_free 2 (String.length line) line [] EmptyString false
                (le_n _) Hline) as Hfields.
  destruct (csv_scan 2 line [] EmptyString false) as [fields current].
  simpl in Hfields. subst fields. simpl. by eexists.
Qed.

(** The example of the specification: the comma inside the quoted link is
    kept, and the third and fourth fields are not read. *)
Lemma readCsv_quoted_comma :
  readCsv registry_quoted_comma = [Row (Some "5") (Some "http://x?tid=9,9")].
Proof. reflexivity. Qed.

(** Empty lines are dropped before the header is taken off, cells are
    trimmed, and a line that is only white space is kept. *)
Lemma readCsv_blank_lines :
  readCsv ("Edition,Link" +:+ str1 LF +:+ str1 LF
           +:+ " 5 , a " +:+ str1 CR +:+ str1 LF
           +:+ "  " +:+ str1 LF
           +:+ "6,b")
  = [Row (Some "5") (Some "a"); Row (Some "") None; Row (Some "6") (Some "b")].
Proof. reflexivity. Qed.

(** C5.  A data line with one field: [parseCsvLineFirstN] returns an array
    of length one, as it does for every line without comma, so the
    destructuring in [readCsv] leaves [link] undefined; the doc comment of
    the function promises an empty string for a missing field. *)
Theorem readCsv_single_field_link_undefined :
  (∀ line, comma_free line = true →
           ∃ field, parseCsvLineFirstN line 2 = [field])
  ∧ parseCsvLineFirstN "5" 2 = ["5"]
  ∧ readCsv registry_single_field = [Row (Some "5") None].
Proof.
  split; [apply parseCsvLineFirstN_one_field|].
  split; reflexivity.
Qed.
(** *** Quoted cells *)

Lemma csv_scan_escaped n q : ∀ s fields current,
  csv_scan n (csv_escape q +:+ s) fields current true
  = csv_scan n s fields (current +:+ q) true.
Proof.
  induction q as [|c q IH]; intros s fields current.
  - by rewrite append_empty_r.
  - simpl csv_escape. destruct (Ascii.eqb c dquote) eqn:Hc.
    + apply Ascii.eqb_eq in Hc. subst c.
      rewrite !append_cons, csv_scan_doubled_quote, IH.
      by rewrite append_push_char.
    + rewrite append_cons. simpl. rewrite Hc, andb_false_r, IH.
      by rewrite append_push_char.
Qed.

Lemma csv_scan_close_at_end n fields current :
  csv_scan n (str1 dquote) fields current true = (fields, current).
Proof. reflexivity. Qed.

Lemma append_assoc (a b c : string) : (a +:+ b) +:+ c = a +:+ (b +:+ c).
Proof. induction a as [|x a IH]; [done|]. by rewrite !append_cons, IH. Qed.

Lemma csv_cell_append q t :
  csv_cell q +:+ t = String dquote (csv_escape q +:+ String dquote t).
Proof.
  unfold csv_cell, quoted, str1.
  by rewrite !append_assoc, !append_cons.
Qed.

Lemma csv_scan_cell_then_comma n q s fields current :
  csv_scan n (csv_cell q +:+ String comma s) fields current false
  = csv_scan n (String comma s) fields (current +:+ q) false.
Proof.
  rewrite csv_cell_append, csv_scan_open_quote, csv_scan_escaped.
  by rewrite csv_scan_close_quote.
Qed.

Lemma csv_scan_cell_at_end n q fields current :
  csv_scan n (csv_cell q) fields current false = (fields, current +:+ q).
Proof.
  rewrite <- (append_empty_r (csv_cell q)).
  by rewrite csv_cell_append, csv_scan_open_quote, csv_scan_escaped.
Qed.


(** ** selectContiguousFirstAuthorPosts *)

Lemma read_uid_non_null p :
  non_null p = true → read_uid p = Return (uid_of p).
Proof. by destruct p. Qed.

Lemma select_from_run_length firstUid posts : ∀ i result,
  forallb non_null posts = true →
  select_from firstUid i posts result
  = Return (result ++ take (run_length firstUid i posts) posts).
Proof.
  induction posts as [|p rest IH]; intros i result Hposts; simpl.
  - by rewrite app_nil_r.
  - apply andb_prop in Hposts as [Hp Hrest].
    rewrite (read_uid_non_null _ Hp). simpl.
    destruct (strict_equals_at i 0 (uid_of p) firstUid).
    + rewrite IH by done. simpl. by rewrite <- app_assoc.
    + simpl. by rewrite app_nil_r.
Qed.

Lemma run_length_le firstUid posts : ∀ i,
  (run_length firstUid i posts ≤ length posts)%nat.
Proof.
  induction posts as [|p rest IH]; intros i; simpl; [lia|].
  destruct (strict_equals_at _ _ _ _); [specialize (IH (S i))|]; lia.
Qed.

Lemma run_length_inside firstUid posts : ∀ i j,
  (j < run_length firstUid i posts)%nat →
  ∃ p, posts !! j = Some p
       ∧ strict_equals_at (i + j) 0 (uid_of p) firstUid = true.
Proof.
  induction posts as [|p rest IH]; intros i j Hj; simpl in *; [lia|].
  destruct (strict_equals_at i 0 (uid_of p) firstUid) eqn:Hp; [|lia].
  destruct j as [|j]; simpl.
  - exists p. by rewrite Nat.add_0_r.
  - destruct (IH (S i) j) as (q & Hq & Heq); [lia|].
    exists q. split; [done|]. by rewrite <- Nat.add_succ_comm.
Qed.

Lemma run_length_stop firstUid posts : ∀ i,
  (run_length firstUid i posts < length posts)%nat →
  ∃ p, posts !! run_length firstUid i posts = Some p
       ∧ strict_equals_at (i + run_length firstUid i posts) 0 (uid_of p) firstUid
         = false.
Proof.
  induction posts as [|p rest IH]; intros i Hlt; simpl in *; [lia|].
  destruct (strict_equals_at i 0 (uid_of p) firstUid) eqn:Hp.
  - destruct (IH (S i)) as (q & Hq & Hne); [lia|].
    exists q. split; [done|]. by rewrite <- Nat.add_succ_comm.
  - exists p. by rewrite Nat.add_0_r.
Qed.

Lemma same_author_cons p0 rest j p :
  (p0 :: rest) !! j = Some p →
  same_author (p0 :: rest) j = strict_equals_at j 0 (uid_of p) (uid_of p0).
Proof. unfold same_author. by intros ->. Qed.

Lemma select_unfold p0 rest :
  non_null p0 = true →
  selectContiguousFirstAuthorPosts (JArr (p0 :: rest))
  = select_from (uid_of p0) 0 (p0 :: rest) [].
Proof.
  intros Hp0. unfold selectContiguousFirstAuthorPosts.
  by rewrite (read_uid_non_null _ Hp0).
Qed.

(** C1.  On a list of posts [P] the selection returns a prefix [R] of [P];
    every post of [R] has the first post's [uid]; when the post at index
    [k] has another [uid] and all posts before it have the first post's,
    [R] has exactly [k] posts; when every post has the first post's [uid],
    [R] is [P]; and the empty list gives the empty list. *)
Theorem selectContiguousFirstAuthorPosts_prefix (P : list json) :
  forallb non_null P = true →
  ∃ R, selectContiguousFirstAuthorPosts (JArr P) = Return R
       ∧ R `prefix_of` P
       ∧ (∀ i, (i < length R)%nat → same_author P i = true)
       ∧ (∀ k, (k < length P)%nat →
               same_author P k = false →
               (∀ j, (j < k)%nat → same_author P j = true) →
               length R = k)
       ∧ ((∀ j, (j < length P)%nat → same_author P j = true) → R = P)
       ∧ (P = [] → R = []).
Proof.
  intros HP. destruct P as [|p0 rest].
  { exists []. repeat split; try done; simpl; intros; lia. }
  pose proof HP as HP'. simpl in HP'. apply andb_prop in HP' as [Hp0 _].
  rewrite (select_unfold _ _ Hp0).
  rewrite select_from_run_length by done.
  set (n := run_length (uid_of p0) 0 (p0 :: rest)).
  pose proof (run_length_le (uid_of p0) (p0 :: rest) 0) as Hle. fold n in Hle.
  exists (take n (p0 :: rest)). split; [done|].
  assert (Hlen : length (take n (p0 :: rest)) = n) by (rewrite length_take; lia).
  split; [apply prefix_take|].
  split; [|split; [|split; [|done]]].
  - intros i Hi. rewrite Hlen in Hi.
    destruct (run_length_inside (uid_of p0) (p0 :: rest) 0 i Hi) as (p & Hp & Heq).
    by rewrite (same_author_cons _ _ _ _ Hp).
  - intros k Hk Hdiff Hbefore. rewrite Hlen.
    destruct (Nat.lt_trichotomy n k) as [Hlt|[Heq|Hgt]]; [|done|].
    + destruct (run_length_stop (uid_of p0) (p0 :: rest) 0) as (p & Hp & Hne);
        [fold n; lia|]. fold n in Hp, Hne.
      specialize (Hbefore n Hlt).
      rewrite (same_author_cons _ _ _ _ Hp) in Hbefore. simpl in Hne. congruence.
    + destruct (run_length_inside (uid_of p0) (p0 :: rest) 0 k Hgt) as (p & Hp & Heq).
      rewrite (same_author_cons _ _ _ _ Hp) in Hdiff. simpl in Heq. congruence.
  - intros Hall.
    destruct (decide (n < length (p0 :: rest))%nat) as [Hlt|Hge];
      [|apply take_ge; lia].
    destruct (run_length_stop (uid_of p0) (p0 :: rest) 0) as (p & Hp & Hne);
      [by fold n|]. fold n in Hp, Hne.
    specialize (Hall n Hlt).
    rewrite (same_author_cons _ _ _ _ Hp) in Hall. simpl in Hne. congruence.
Qed.

(** The scenario of the specification: authors 1, 1, 2 give the first two
    posts. *)
Lemma selectContiguousFirstAuthorPosts_three_posts :
  forallb non_null [post 1 "a"; post 1 "b"; post 2 "c"] = true
  ∧ ∃ R, selectContiguousFirstAuthorPosts
           (JArr [post 1 "a"; post 1 "b"; post 2 "c"]) = Return R
         ∧ length R = 2%nat.
Proof.
  split; [reflexivity|].
  destruct (selectContiguousFirstAuthorPosts_prefix
              [post 1 "a"; post 1 "b"; post 2 "c"] eq_refl)
    as (R & HR & _ & _ & Hk & _ & _).
  exists R. split; [exact HR|].
  apply Hk; [simpl; lia | reflexivity |].
  intros j Hj. destruct j as [|[|j]]; [reflexivity | reflexivity | lia].
Defined.

(** A [null] among the scanned elements makes the selection throw. *)
Lemma selectContiguousFirstAuthorPosts_null :
  selectContiguousFirstAuthorPosts (JArr [JNull])
  = Throw (JsError "TypeError" "Cannot read properties of null (reading 'uid')").
Proof. reflexivity. Qed.

Lemma select_from_extends firstUid posts : ∀ i result R,
  select_from firstUid i posts result = Return R → result `prefix_of` R.
Proof.
  induction posts as [|p rest IH]; intros i result R; simpl.
  - by intros [= ->].
  - destruct (read_uid p) as [uid|e]; simpl; [|done].
    destruct (strict_equals_at i 0 uid firstUid).
    + intros H. apply IH in H. by eapply prefix_app_l.
    + by intros [= ->].
Qed.

Lemma strict_equals_at_refl i a : strict_equals_at i i a a = true.
Proof.
  unfold strict_equals_at.
  destruct a as [[|b|n|s|items|props]|]; simpl;
    auto using Nat.eqb_refl, Z.eqb_refl, String.eqb_refl.
  by destruct b.
Qed.

(** The selection is empty only for an empty array. *)
Lemma selection_empty_only_for_empty P :
  selectContiguousFirstAuthorPosts (JArr P) = Return [] → P = [].
Proof.
  destruct P as [|p0 rest]; [done|]. simpl.
  destruct (read_uid p0) as [uid|e] eqn:Hp0; simpl; [|done].
  rewrite strict_equals_at_refl.
  intros H. apply select_from_extends in H.
  by apply prefix_nil_inv in H.
Qed.

(** ** extractTidFromLink *)

Lemma matches_digits_nonempty t : matches_digits t = true → is_empty t = false.
Proof. unfold matches_digits. by destruct (is_empty t). Qed.

(** C4, as stated, fails on a link with two [tid] parameters of which only
    the second is numeric: the link carries a numeric [tid], and the
    extractor, which reads the first, finds none. *)
Lemma extractTidFromLink_reads_first_tid_only :
  carries_numeric_tid Reference.runtime link_two_tids
  ∧ extractTidFromLink Reference.runtime link_two_tids = None.
Proof.
  split; [|reflexivity].
  exists [("tid", "abc"); ("tid", "123")], "123".
  split; [reflexivity|]. split; [|reflexivity].
  apply list_elem_of_In. simpl. auto.
Qed.

(** C4, amended.  With a URL constructor that rejects the empty string,
    [extractTidFromLink L] is [t] exactly when [L] parses as a URL whose
    first query parameter named [tid] has the value [t], made of one or
    more ASCII digits; for every other link the result is [null].  The
    function returns for every link: the embedding is a total function. *)
Theorem extractTidFromLink_iff (rt : Runtime) (L t : string) :
  URL_searchParams rt EmptyString = None →
  (extractTidFromLink rt L = Some t ↔ first_tid_is rt L t)
  ∧ (extractTidFromLink rt L = None ↔ ∀ t', ¬ first_tid_is rt L t').
Proof.
  intros Hempty.
  assert (Hiff : ∀ u, extractTidFromLink rt L = Some u ↔ first_tid_is rt L u).
  { intros u. unfold extractTidFromLink, first_tid_is. split.
    - destruct (is_empty L); [done|].
      destruct (URL_searchParams rt L) as [params|] eqn:Hurl; [|done].
      destruct (searchParams_get params "tid") as [tid|] eqn:Hget; [|done].
      destruct (is_empty tid); [done|].
      destruct (matches_digits tid) eqn:Hd; simpl; [|done].
      intros [= ->]. exists params. by repeat split.
    - intros (params & Hurl & Hget & Hd).
      destruct L as [|c L']; [congruence|]. simpl.
      rewrite Hurl, Hget, (matches_digits_nonempty _ Hd), Hd. done. }
  split; [apply Hiff|].
  split.
  - intros Hnone t' Ht'. apply Hiff in Ht'. congruence.
  - intros Hall. destruct (extractTidFromLink rt L) as [u|] eqn:Hu; [|done].
    exfalso. apply (Hall u). by apply Hiff.
Qed.

Lemma extractTidFromLink_thread_42 :
  URL_searchParams Reference.runtime EmptyString = None
  ∧ extractTidFromLink Reference.runtime "https://site/thread?tid=42" = Some "42".
Proof.
  split; [reflexivity|].
  apply (extractTidFromLink_iff Reference.runtime
           "https://site/thread?tid=42" "42" eq_refl).
  exists [("tid", "42")]. by repeat split.
Defined.

(** ** postJson and fetchThreadPosts *)

Section Fetch.
Context (rt : Runtime) (net : network) (n : nat) (tid token : string).
Context (status : Z) (data : string).
Hypothesis answer : ∀ req, net n req = HttpResponse status data.

Lemma postJson_not_ok url headers body :
  ¬ (200 ≤ status < 300) →
  postJson rt net n url headers body = Throw (Error (http_message status data)).
Proof using answer.
  intros Hstatus. unfold postJson. rewrite answer.
  destruct (negb (status =? 0) && (200 <=? status) && (status <? 300)) eqn:Hok;
    [|done].
  apply andb_prop in Hok as [Hok Hlt]. apply andb_prop in Hok as [_ Hge].
  apply Z.leb_le in Hge. apply Z.ltb_lt in Hlt. lia.
Qed.

Lemma postJson_ok url headers body :
  200 ≤ status < 300 →
  postJson rt net n url headers body
  = match JSON_parse rt (body_text data) with
    | Return json => Return json
    | Throw e => Throw (Error ("Failed to parse JSON response: " +:+ err_message e))
    end.
Proof using answer.
  intros Hstatus. unfold postJson. rewrite answer.
  destruct (negb (status =? 0) && (200 <=? status) && (status <? 300)) eqn:Hok;
    [done|].
  exfalso.
  assert (Hne : (status =? 0) = false) by (apply Z.eqb_neq; lia).
  assert (Hge : (200 <=? status) = true) by (apply Z.leb_le; lia).
  assert (Hlt : (status <? 300) = true) by (apply Z.ltb_lt; lia).
  rewrite Hne, Hge, Hlt in Hok. done.
Qed.

Lemma fetchThreadPosts_not_ok :
  ¬ (200 ≤ status < 300) →
  fetchThreadPosts rt net n tid token = Throw (Error (http_message status data)).
Proof using answer.
  intros Hstatus. unfold fetchThreadPosts. by rewrite postJson_not_ok.
Qed.

Lemma fetchThreadPosts_not_json e :
  200 ≤ status < 300 →
  JSON_parse rt (body_text data) = Throw e →
  fetchThreadPosts rt net n tid token
  = Throw (Error ("Failed to parse JSON response: " +:+ err_message e)).
Proof using answer.
  intros Hstatus Hparse. unfold fetchThreadPosts.
  rewrite postJson_ok by done. by rewrite Hparse.
Qed.

Lemma fetchThreadPosts_rate_limit response :
  200 ≤ status < 300 →
  JSON_parse rt (body_text data) = Return response →
  rate_limit_shaped response →
  fetchThreadPosts rt net n tid token
  = Throw (RateLimitError MAX_HOURLY_CALLS_EXCEEDED).
Proof using answer.
  intros Hstatus Hparse [Hsucc Hmsg]. unfold fetchThreadPosts.
  rewrite postJson_ok by done. rewrite Hparse. simpl.
  rewrite Hsucc, Hmsg.
  by destruct response.
Qed.

Lemma fetchThreadPosts_no_posts response :
  200 ≤ status < 300 →
  JSON_parse rt (body_text data) = Return response →
  ¬ rate_limit_shaped response →
  ¬ has_posts_array response →
  fetchThreadPosts rt net n tid token
  = Throw (Error "Unexpected API response shape (missing posts array)").
Proof using answer.
  intros Hstatus Hparse Hshape Hposts. unfold fetchThreadPosts.
  rewrite postJson_ok by done. rewrite Hparse. simpl.
  destruct (truthy response
            && match get_member response "success" with
               | Some (JBool false) => true
               | _ => false
               end
            && match get_member response "message" with
               | Some (JStr m) => String.eqb m MAX_HOURLY_CALLS_EXCEEDED
               | _ => false
               end) eqn:Hrate.
  - exfalso. apply Hshape.
    apply andb_prop in Hrate as [Hrate Hmsg].
    apply andb_prop in Hrate as [_ Hsucc].
    split.
    + destruct (get_member response "success") as [[|[]| | | |]|]; done.
    + destruct (get_member response "message") as [[| | |m| |]|]; try done.
      apply String.eqb_eq in Hmsg. by subst m.
  - destruct (truthy response); [|done].
    destruct (get_member response "posts") as [[| | | |items|]|] eqn:Hp; try done.
    exfalso. apply Hposts. by exists items.
Qed.

Lemma fetchThreadPosts_posts response items :
  200 ≤ status < 300 →
  JSON_parse rt (body_text data) = Return response →
  ¬ rate_limit_shaped response →
  get_member response "posts" = Some (JArr items) →
  fetchThreadPosts rt net n tid token = Return (JArr items).
Proof using answer.
  intros Hstatus Hparse Hshape Hposts. unfold fetchThreadPosts.
  rewrite postJson_ok by done. rewrite Hparse. simpl.
  destruct response as [| | | | |props]; try done.
  simpl in *. rewrite Hposts.
  destruct (match assoc "success" props with
            | Some (JBool false) => true
            | _ => false
            end
            && match assoc "message" props with
               | Some (JStr m) => String.eqb m MAX_HOURLY_CALLS_EXCEEDED
               | _ => false
               end) eqn:Hrate; [|done].
  exfalso. apply Hshape. apply andb_prop in Hrate as [Hsucc Hmsg].
  split; simpl.
  - destruct (assoc "success" props) as [[|[]| | | |]|]; done.
  - destruct (assoc "message" props) as [[| | |m| |]|]; try done.
    apply String.eqb_eq in Hmsg. by subst m.
Qed.

End Fetch.
(** ** Numbers and the loop counter *)

Lemma double_leb_Int a b : double_leb (Int a) (Int b) = (a <=? b).
Proof. unfold double_leb. simpl. by rewrite !Z.mul_1_r. Qed.

Lemma double_ltb_Int a b : double_ltb (Int a) (Int b) = (a <? b).
Proof. unfold double_ltb. simpl. by rewrite !Z.mul_1_r. Qed.

Lemma double_ltb_leb a b : double_ltb b a = negb (double_leb a b).
Proof. unfold double_ltb, double_leb. apply Z.ltb_antisym. Qed.

Lemma round53_exact x : Z.abs x ≤ 2 ^ 53 → round53 x = x.
Proof.
  intros Hx. unfold round53.
  by destruct (Z.leb_spec (Z.abs x) (2 ^ 53)); [|lia].
Qed.

(** On integers from [-2^53] to [2^53 - 1] the counter adds one. *)
Lemma increment_Int n :
  - 2 ^ 53 ≤ n < 2 ^ 53 → increment (Int n) = Int (n + 1).
Proof. intros Hn. simpl. rewrite round53_exact; [done|lia]. Qed.

(** At [2^53] the counter stays where it is. *)
Lemma increment_stuck : increment (Int (2 ^ 53)) = Int (2 ^ 53).
Proof. reflexivity. Qed.

Lemma String_of_double_Int rt n :
  Z.abs n ≤ 2 ^ 53 → String_of_double rt (Int n) = String_of_Z n.
Proof.
  intros Hn. unfold String_of_double.
  by destruct (Z.leb_spec (Z.abs n) (2 ^ 53)); [|lia].
Qed.

Lemma round_half_even_bounds a k :
  a / 2 ^ k ≤ round_half_even a k ≤ a / 2 ^ k + 1.
Proof.
  unfold round_half_even.
  destruct (_ <? _); [lia|]. destruct (_ <? _); [lia|].
  destruct (Z.even _); lia.
Qed.

(** What is known of [a] beyond [2^53]: with [k] the number of bits that
    do not fit, [a / 2^k] has exactly 53 bits. *)
Lemma beyond_53_bits a :
  2 ^ 53 < a →
  1 ≤ Z.log2 a - 52
  ∧ 2 ^ 52 * 2 ^ (Z.log2 a - 52) ≤ a < 2 ^ 53 * 2 ^ (Z.log2 a - 52)
  ∧ 2 ^ 52 ≤ a / 2 ^ (Z.log2 a - 52) < 2 ^ 53.
Proof.
  intros Ha.
  assert (Hpos : 0 < a) by lia.
  pose proof (Z.log2_spec a Hpos) as [Hlo Hhi].
  assert (Hlog : 53 ≤ Z.log2 a).
  { apply Z.log2_le_pow2; lia. }
  set (k := Z.log2 a - 52) in *.
  assert (Hk : 1 ≤ k) by lia.
  replace (Z.log2 a) with (52 + k) in Hlo, Hhi by lia.
  replace (Z.succ (52 + k)) with (53 + k) in Hhi by lia.
  rewrite Z.pow_add_r in Hlo, Hhi by lia.
  split; [done|]. split; [done|].
  assert (HP : 0 < 2 ^ k) by (apply Z.pow_pos_nonneg; lia).
  split.
  - apply Z.div_le_lower_bound; lia.
  - apply Z.div_lt_upper_bound; lia.
Qed.

Lemma log2_scaled m k :
  2 ^ 52 ≤ m < 2 ^ 53 → 0 ≤ k → Z.log2 (m * 2 ^ k) = 52 + k.
Proof.
  intros Hm Hk.
  assert (HP : 0 < 2 ^ k) by (apply Z.pow_pos_nonneg; lia).
  apply Z.log2_unique; [lia|].
  replace (Z.succ (52 + k)) with (53 + k) by lia.
  rewrite !Z.pow_add_r by lia. nia.
Qed.

Lemma abs_sgn_mul x y : x ≠ 0 → 0 ≤ y → Z.abs (Z.sgn x * y) = y.
Proof. intros Hx Hy. destruct x as [|p|p]; [done| |]; simpl Z.sgn; lia. Qed.

(** What [round53] returns has at most 53 significant bits. *)
Lemma significant_round53 x : significant_53 (round53 x) = true.
Proof.
  unfold round53.
  destruct (Z.leb_spec (Z.abs x) (2 ^ 53)) as [Hx|Hx].
  { unfold significant_53. by destruct (Z.leb_spec (Z.abs x) (2 ^ 53)); [|lia]. }
  destruct (beyond_53_bits _ Hx) as (Hk & _ & Hq).
  set (a := Z.abs x) in *. set (k := Z.log2 a - 52) in *.
  pose proof (round_half_even_bounds a k) as Hr.
  set (m := round_half_even a k) in *.
  assert (HP : 0 < 2 ^ k) by (apply Z.pow_pos_nonneg; lia).
  assert (Habs : Z.abs (Z.sgn x * (m * 2 ^ k)) = m * 2 ^ k).
  { apply abs_sgn_mul; [subst a; lia|nia]. }
  unfold significant_53. rewrite Habs.
  apply orb_true_iff. right. apply Z.eqb_eq.
  destruct (Z.eq_dec m (2 ^ 53)) as [Hm|Hm].
  - rewrite Hm.
    replace (2 ^ 53 * 2 ^ k) with (2 ^ 52 * 2 ^ (k + 1))
      by (rewrite (Z.pow_add_r 2 k 1) by lia; lia).
    rewrite log2_scaled by lia.
    replace (52 + (k + 1) - 52) with (k + 1) by lia.
    apply Z.mod_mul. apply Z.pow_nonzero; lia.
  - rewrite log2_scaled by lia.
    replace (52 + k - 52) with k by lia.
    apply Z.mod_mul. lia.
Qed.

Lemma pow2_mod_mono a j k :
  0 ≤ j ≤ k → a mod 2 ^ k = 0 → a mod 2 ^ j = 0.
Proof.
  intros Hjk Ha.
  assert (HPk : 2 ^ k ≠ 0) by (apply Z.pow_nonzero; lia).
  assert (HPj : 2 ^ j ≠ 0) by (apply Z.pow_nonzero; lia).
  apply Z.mod_divide; [done|].
  apply Z.mod_divide in Ha; [|done].
  apply Z.divide_trans with (2 ^ k); [|done].
  exists (2 ^ (k - j)). rewrite <- Z.pow_add_r by lia. f_equal. lia.
Qed.

(** The counter never goes down: for a double [n], [n + 1] rounded is at
    least [n]. *)
Lemma round53_step n : significant_53 n = true → n ≤ round53 (n + 1).
Proof.
  intros Hn. unfold round53.
  destruct (Z.leb_spec (Z.abs (n + 1)) (2 ^ 53)) as [Hx|Hx]; [lia|].
  destruct (beyond_53_bits _ Hx) as (Hk' & Hbits' & Hq').
  set (a' := Z.abs (n + 1)) in *. set (k' := Z.log2 a' - 52) in *.
  pose proof (round_half_even_bounds a' k') as Hr.
  set (m := round_half_even a' k') in *.
  assert (HP' : 0 < 2 ^ k') by (apply Z.pow_pos_nonneg; lia).
  pose proof (Z.div_mod a' (2 ^ k') ltac:(lia)) as Hdm.
  pose proof (Z.mod_pos_bound a' (2 ^ k') HP') as Hmod.
  unfold significant_53 in Hn. apply orb_true_iff in Hn as [Hn|Hn].
  { (* |n| <= 2^53, so n = 2^53 *)
    apply Z.leb_le in Hn.
    assert (n = 2 ^ 53) as -> by (subst a'; lia). by vm_compute. }
  apply Z.eqb_eq in Hn.
  destruct (Z_lt_le_dec 0 (n + 1)) as [Hsign|Hsign].
  - (* n + 1 is positive *)
    assert (Ha' : a' = n + 1) by (subst a'; lia).
    assert (Habs : Z.abs n = n) by lia. rewrite Habs in Hn.
    replace (Z.sgn (n + 1)) with 1 by (symmetry; apply Z.sgn_pos; lia).
    rewrite Z.mul_1_l.
    destruct (Z.eq_dec n (2 ^ 53)) as [->|Hne]; [by vm_compute|].
    assert (Hbig : 2 ^ 53 < n) by lia.
    destruct (beyond_53_bits _ Hbig) as (Hk & Hbits & _).
    set (k := Z.log2 n - 52) in *.
    assert (HP : 0 < 2 ^ k) by (apply Z.pow_pos_nonneg; lia).
    assert (H2 : 2 ≤ 2 ^ k).
    { replace 2 with (2 ^ 1) at 1 by done. apply Z.pow_le_mono_r; lia. }
    assert (Hlog : Z.log2 (n + 1) = Z.log2 n).
    { apply Z.log2_unique; [apply Z.log2_nonneg|].
      replace (Z.log2 n) with (52 + k) by lia.
      replace (Z.succ (52 + k)) with (53 + k) by lia.
      rewrite !Z.pow_add_r by lia.
      split; [lia|].
      destruct (Z.eq_dec (n + 1) (2 ^ 53 * 2 ^ k)) as [Heq|]; [|lia].
      exfalso.
      assert (Hone : (n + 1) mod 2 ^ k = 1).
      { rewrite Z.add_mod, Hn by lia. rewrite Z.add_0_l.
        rewrite Z.mod_mod by lia. apply Z.mod_small. lia. }
      rewrite Heq, Z.mod_mul in Hone by lia. lia. }
    assert (Hkk : k' = k) by (subst k' k; rewrite Ha'; lia).
    rewrite Hkk in *.
    assert (Hone : a' mod 2 ^ k = 1).
    { rewrite Ha', Z.add_mod, Hn by lia. rewrite Z.add_0_l.
      rewrite Z.mod_mod by lia. apply Z.mod_small. lia. }
    nia.
  - (* n + 1 is negative *)
    assert (Ha' : a' = - n - 1) by (subst a'; lia).
    assert (Habs : Z.abs n = - n) by lia. rewrite Habs in Hn.
    replace (Z.sgn (n + 1)) with (-1) by (symmetry; apply Z.sgn_neg; lia).
    assert (Hbig : 2 ^ 53 < - n) by lia.
    destruct (beyond_53_bits _ Hbig) as (Hk & _ & _).
    set (k := Z.log2 (- n) - 52) in *.
    assert (Hle : k' ≤ k).
    { subst k' k. rewrite Ha'.
      pose proof (Z.log2_le_mono (- n - 1) (- n) ltac:(lia)). lia. }
    assert (Hdiv : (- n) mod 2 ^ k' = 0) by (apply (pow2_mod_mono _ k' k); [lia|done]).
    assert (H2 : 2 ≤ 2 ^ k').
    { replace 2 with (2 ^ 1) at 1 by done. apply Z.pow_le_mono_r; lia. }
    assert (Hlast : a' mod 2 ^ k' = 2 ^ k' - 1).
    { rewrite Ha'. replace (- n - 1) with (- n + (2 ^ k' - 1) + -1 * 2 ^ k') by lia.
      rewrite Z.mod_add by lia.
      rewrite Z.add_mod, Hdiv by lia. rewrite Z.add_0_l.
      rewrite Z.mod_mod by lia. apply Z.mod_small. lia. }
    nia.
Qed.

(** ** One pass of the edition loop *)

Lemma disk_ensureDirSync_files key st :
  posts_files (disk (ensureDirSync key st)) = posts_files (disk st).
Proof. unfold ensureDirSync. by destruct (decide _). Qed.

Lemma sent_ensureDirSync key st : sent (ensureDirSync key st) = sent st.
Proof. unfold ensureDirSync. by destruct (decide _). Qed.

Lemma trace_ensureDirSync_prefix key st :
  trace st `prefix_of` trace (ensureDirSync key st).
Proof.
  unfold ensureDirSync. destruct (decide _); simpl; [done|].
  by apply prefix_app_r.
Qed.

Section Pass.
Context (rt : Runtime) (net : network) (token : string).
Context (table : gmap string string).

Lemma posts_json_complete_iff w ed :
  posts_json_complete rt w (edition_key rt ed) = true ↔ cached_posts_nonempty rt w ed.
Proof.
  unfold posts_json_complete, cached_posts_nonempty, fileExists, readFileSync.
  split.
  - intros H. apply andb_prop in H as [Hex H].
    apply bool_decide_eq_true in Hex as [text Htext].
    rewrite Htext in H. simpl in H.
    destruct (JSON_parse rt text) as [existing|] eqn:Hparse; [|done].
    apply andb_prop in H as [_ H].
    destruct (get_member existing "posts") as [[| | | |items|]|] eqn:Hposts;
      try done.
    destruct items as [|p items]; [done|].
    exists text, existing, (p :: items). by repeat split.
  - intros (text & existing & items & Htext & Hparse & Hposts & Hne).
    rewrite bool_decide_eq_true_2 by (by exists text).
    rewrite Htext. simpl. rewrite Hparse, Hposts.
    destruct existing; try done.
    by destruct items.
Qed.

Lemma not_cached_incomplete w ed :
  ¬ cached_posts_nonempty rt w ed →
  posts_json_complete rt w (edition_key rt ed) = false.
Proof.
  intros Hc. destruct (posts_json_complete rt w (edition_key rt ed)) eqn:Hd; [|done].
  by apply posts_json_complete_iff in Hd.
Qed.

Lemma edition_body_no_tid ed st :
  extractTidFromLink rt (link_of rt table ed) = None →
  edition_body rt net token table ed st
  = (Next, emit (ConsoleLog (line_no_tid rt ed)) st).
Proof.
  intros Htid. unfold edition_body.
  change (default EmptyString (table !! String_of_double rt ed)) with (link_of rt table ed).
  by rewrite Htid.
Qed.

Lemma edition_body_skipping ed st tid :
  extractTidFromLink rt (link_of rt table ed) = Some tid →
  posts_json_complete rt (disk st) (edition_key rt ed) = true →
  edition_body rt net token table ed st
  = (Next, emit (ConsoleLog (line_skipping rt ed)) st).
Proof.
  intros Htid Hdone. unfold edition_body.
  change (default EmptyString (table !! String_of_double rt ed)) with (link_of rt table ed).
  change (String_of_double rt ed) with (edition_key rt ed).
  by rewrite Htid, Hdone.
Qed.

Lemma edition_body_fetching ed st tid :
  extractTidFromLink rt (link_of rt table ed) = Some tid →
  posts_json_complete rt (disk st) (edition_key rt ed) = false →
  edition_body rt net token table ed st
  = match attempt rt net token tid st with
    | Return contiguous =>
        (Next,
         emit (ConsoleLog (line_fetched rt ed (length contiguous)))
           (writeFileSync (edition_key rt ed) (payload_text rt contiguous)
              (ensureDirSync (edition_key rt ed) (fetching rt st ed tid))))
    | Throw err =>
        if is_rate_limit err
        then (Exit 1, emit (ConsoleLog line_rate_limit) (fetching rt st ed tid))
        else (Next,
              emit (ConsoleLog (line_failed rt ed (err_message err)))
                (fetching rt st ed tid))
    end.
Proof.
  intros Htid Hdone. unfold edition_body.
  change (default EmptyString (table !! String_of_double rt ed)) with (link_of rt table ed).
  change (String_of_double rt ed) with (edition_key rt ed).
  by rewrite Htid, Hdone.
Qed.

Lemma edition_body_sends_request ed st tid :
  extractTidFromLink rt (link_of rt table ed) = Some tid →
  posts_json_complete rt (disk st) (edition_key rt ed) = false →
  sent (edition_body rt net token table ed st).2 = S (sent st)
  ∧ trace (fetching rt st ed tid)
    `prefix_of` trace (edition_body rt net token table ed st).2.
Proof.
  intros Htid Hdone. rewrite (edition_body_fetching _ _ _ Htid Hdone).
  destruct (attempt rt net token tid st) as [contiguous|err]; simpl.
  - rewrite sent_ensureDirSync. split; [done|].
    do 2 apply prefix_app_r. apply trace_ensureDirSync_prefix.
  - destruct (is_rate_limit err); simpl; (split; [done|by apply prefix_app_r]).
Qed.

Lemma edition_body_writes ed st tid posts contiguous :
  extractTidFromLink rt (link_of rt table ed) = Some tid →
  posts_json_complete rt (disk st) (edition_key rt ed) = false →
  fetchThreadPosts rt net (sent st) tid token = Return posts →
  selectContiguousFirstAuthorPosts posts = Return contiguous →
  (edition_body rt net token table ed st).1 = Next
  ∧ posts_files (disk (edition_body rt net token table ed st).2)
    = <[edition_key rt ed := payload_text rt contiguous]> (posts_files (disk st)).
Proof.
  intros Htid Hdone Hposts Hsel.
  rewrite (edition_body_fetching _ _ _ Htid Hdone).
  unfold attempt. rewrite Hposts. simpl. rewrite Hsel. simpl.
  split; [done|]. by rewrite disk_ensureDirSync_files.
Qed.

Lemma edition_body_failure ed st tid err :
  extractTidFromLink rt (link_of rt table ed) = Some tid →
  posts_json_complete rt (disk st) (edition_key rt ed) = false →
  attempt rt net token tid st = Throw err →
  edition_body rt net token table ed st
  = if is_rate_limit err
    then (Exit 1, emit (ConsoleLog line_rate_limit) (fetching rt st ed tid))
    else (Next,
          emit (ConsoleLog (line_failed rt ed (err_message err)))
            (fetching rt st ed tid)).
Proof.
  intros Htid Hdone Hatt.
  by rewrite (edition_body_fetching _ _ _ Htid Hdone), Hatt.
Qed.

Lemma edition_body_rate_limited ed st tid err :
  extractTidFromLink rt (link_of rt table ed) = Some tid →
  posts_json_complete rt (disk st) (edition_key rt ed) = false →
  fetchThreadPosts rt net (sent st) tid token = Throw err →
  err_name err = "RateLimitError" →
  edition_body rt net token table ed st
  = (Exit 1, emit (ConsoleLog line_rate_limit) (fetching rt st ed tid)).
Proof.
  intros Htid Hdone Hfetch Hname.
  rewrite (edition_body_failure _ _ _ err Htid Hdone).
  - unfold is_rate_limit. by rewrite Hname.
  - unfold attempt. by rewrite Hfetch.
Qed.

Lemma edition_body_settled ed st :
  settled rt table (disk st) ed →
  edition_body rt net token table ed st
  = (Next, emit (ConsoleLog (settled_line rt table ed)) st).
Proof.
  unfold settled, settled_line. intros Hs.
  destruct (extractTidFromLink rt (link_of rt table ed)) as [tid|] eqn:Htid.
  - destruct Hs as [Hs|Hs]; [done|].
    apply posts_json_complete_iff in Hs. by apply edition_body_skipping with tid.
  - by apply edition_body_no_tid.
Qed.

(** C3.  For an edition with a valid tid, no request is sent exactly when
    the cache file exists, parses as JSON and holds a non-empty array
    under [posts]; then the edition is logged as skipped and nothing else
    happens.  In every other case one request is sent, and when the fetch
    and the selection return, the file is overwritten with the selected
    posts. *)
Theorem cache_decides_fetch ed st tid :
  extractTidFromLink rt (link_of rt table ed) = Some tid →
  let r := edition_body rt net token table ed st in
  (sent r.2 = sent st ↔ cached_posts_nonempty rt (disk st) ed)
  ∧ (cached_posts_nonempty rt (disk st) ed →
     r = (Next, emit (ConsoleLog (line_skipping rt ed)) st))
  ∧ (¬ cached_posts_nonempty rt (disk st) ed →
     sent r.2 = S (sent st)
     ∧ trace (fetching rt st ed tid) `prefix_of` trace r.2
     ∧ ∀ posts contiguous,
         fetchThreadPosts rt net (sent st) tid token = Return posts →
         selectContiguousFirstAuthorPosts posts = Return contiguous →
         r.1 = Next
         ∧ posts_files (disk r.2)
           = <[edition_key rt ed := payload_text rt contiguous]>
               (posts_files (disk st))).
Proof.
  intros Htid r.
  assert (Hskip : cached_posts_nonempty rt (disk st) ed →
                  r = (Next, emit (ConsoleLog (line_skipping rt ed)) st)).
  { intros Hc. apply posts_json_complete_iff in Hc.
    by apply edition_body_skipping with tid. }
  assert (Hfetch : ¬ cached_posts_nonempty rt (disk st) ed →
     sent r.2 = S (sent st)
     ∧ trace (fetching rt st ed tid) `prefix_of` trace r.2
     ∧ ∀ posts contiguous,
         fetchThreadPosts rt net (sent st) tid token = Return posts →
         selectContiguousFirstAuthorPosts posts = Return contiguous →
         r.1 = Next
         ∧ posts_files (disk r.2)
           = <[edition_key rt ed := payload_text rt contiguous]>
               (posts_files (disk st))).
  { intros Hc. pose proof (not_cached_incomplete _ _ Hc) as Hdone.
    destruct (edition_body_sends_request ed st tid Htid Hdone) as [Hs Ht].
    split; [done|split; [done|]].
    intros posts contiguous Hposts Hsel.
    exact (edition_body_writes ed st tid posts contiguous Htid Hdone Hposts Hsel). }
  split; [|by split].
  split.
  - intros Hsent.
    destruct (posts_json_complete rt (disk st) (edition_key rt ed)) eqn:Hd.
    + by apply posts_json_complete_iff.
    + assert (Hn : ¬ cached_posts_nonempty rt (disk st) ed).
      { intros Hc. apply posts_json_complete_iff in Hc. congruence. }
      destruct (Hfetch Hn) as [Hs _]. lia.
  - intros Hc. by rewrite (Hskip Hc).
Qed.

End Pass.

(** The scenario of the specification: the cache file of edition 14 holds
    an empty [posts] array; the edition is fetched again and the file is
    overwritten with the first author's posts. *)
Lemma empty_cache_is_refetched :
  let st := State disk_empty_cache_14 0 [] in
  let r := edition_body Reference.runtime (always (HttpResponse 200 body_three_posts))
             "secret" table_10_14 (Int 14) st in
  extractTidFromLink Reference.runtime (link_of Reference.runtime table_10_14 (Int 14)) = Some "45"
  ∧ sent r.2 = 1%nat
  ∧ posts_files (disk r.2) !! "14"
    = Some (payload_text Reference.runtime [post_of 7 1; post_of 8 1]).
Proof.
  intros st r.
  assert (Htid : extractTidFromLink Reference.runtime (link_of Reference.runtime table_10_14 (Int 14))
                 = Some "45") by evaluate.
  destruct (cache_decides_fetch Reference.runtime
              (always (HttpResponse 200 body_three_posts))
              "secret" table_10_14 (Int 14) st "45" Htid) as (_ & _ & Hfetch).
  assert (Hn : ¬ cached_posts_nonempty Reference.runtime (disk st) (Int 14)).
  { intros Hc. apply posts_json_complete_iff in Hc. vm_compute in Hc. discriminate. }
  destruct (Hfetch Hn) as (Hsent & _ & Hwrite).
  split; [exact Htid|]. split; [exact Hsent|].
  destruct (Hwrite (JArr [post_of 7 1; post_of 8 1; post_of 9 2])
              [post_of 7 1; post_of 8 1]) as [_ Hfiles]; [evaluate|evaluate|].
  fold r in Hfiles. rewrite Hfiles. apply lookup_insert_eq.
Defined.

(** ** The command line *)





Lemma set_arg_insert k v (args : gmap string argval) :
  k ≠ "__proto__" → set_arg k v args = <[k := v]> args.
Proof. intros Hk. unfold set_arg. by destruct (decide _). Qed.

(** A flag without [=] followed by a plain value takes that value. *)
Lemma parseArgs_from_flag_value k v rest (args : gmap string argval) :
  split_on "=" EmptyString ("--" +:+ k) = ["--" +:+ k] →
  plain_value v →
  parseArgs_from (("--" +:+ k) :: v :: rest) args
  = parseArgs_from rest (set_arg k (AStr v) args).
Proof.
  intros Hsplit [Hv1 Hv2].
  change (parseArgs_from (("--" +:+ k) :: v :: rest) args)
    with (if startsWith "--" ("--" +:+ k) then
            let pieces := split_on "=" EmptyString ("--" +:+ k) in
            let key := default EmptyString (pieces !! 0%nat) in
            let value := pieces !! 1%nat in
            match value with
            | Some v' => parseArgs_from (v :: rest) (set_arg (strip_dashes key) (AStr v') args)
            | None =>
                if negb (is_empty v) && negb (startsWith "--" v)
                then parseArgs_from rest (set_arg (strip_dashes key) (AStr v) args)
                else parseArgs_from (v :: rest) (set_arg (strip_dashes key) ATrue args)
            end
          else parseArgs_from (v :: rest) args).
  rewrite Hsplit, Hv1, Hv2.
  by replace (startsWith "--" ("--" +:+ k)) with true by (by destruct k).
Qed.









Lemma main_supplied rt net turns argv w start end_ tok :
  supplied argv "start" "s" = Some start →
  supplied argv "end" "e" = Some end_ →
  supplied argv "token" "t" = Some tok →
  main rt net turns argv w
  = match Number rt start, Number rt end_ with
    | Finite startNum, Finite endNum =>
        if double_ltb endNum startNum
        then refused "End must be >= Start" w
        else batch rt net turns (arg_text tok) startNum endNum w
    | _, _ => refused "Start and End must be numeric" w
    end.
Proof.
  unfold supplied, main, refused, batch. intros -> -> ->.
  by repeat case_match.
Qed.


(** The single-dash spelling: an argument with one dash is no flag for
    [parseArgs], so a command line written with [-s], [-e] and [-t]
    supplies nothing and gets the usage line. *)
Lemma single_dash_is_no_flag rt net turns w :
  parseArgs ["node"; "scripts/fetch_posts.js"; "-s"; "10"; "-e"; "14"; "-t"; "secret"]
  = ∅
  ∧ main rt net turns
      ["node"; "scripts/fetch_posts.js"; "-s"; "10"; "-e"; "14"; "-t"; "secret"] w
    = refused usage w.
Proof. split; reflexivity. Qed.
(** ** The batch *)

Lemma edition_range_split startNum k endNum :
  startNum ≤ k ≤ endNum →
  edition_range startNum endNum
  = edition_range startNum (k - 1) ++ k :: edition_range (k + 1) endNum.
Proof.
  intros Hk. unfold edition_range.
  replace (endNum - startNum + 1)
    with ((k - 1 - startNum + 1) + (1 + (endNum - (k + 1) + 1))) by lia.
  rewrite seqZ_app by lia.
  f_equal.
  replace (startNum + (k - 1 - startNum + 1)) with k by lia.
  rewrite seqZ_cons by lia. f_equal.
  replace (Z.succ k) with (k + 1) by lia.
  f_equal. lia.
Qed.

Lemma elem_of_edition_range ed startNum endNum :
  ed ∈ edition_range startNum endNum ↔ startNum ≤ ed ≤ endNum.
Proof. unfold edition_range. rewrite elem_of_seqZ. lia. Qed.

Lemma edition_range_empty startNum endNum :
  endNum < startNum → edition_range startNum endNum = [].
Proof. intros H. unfold edition_range. apply seqZ_nil. lia. Qed.

Lemma edition_range_cons startNum endNum :
  startNum ≤ endNum →
  edition_range startNum endNum
  = startNum :: edition_range (startNum + 1) endNum.
Proof.
  intros H. unfold edition_range. rewrite seqZ_cons by lia.
  f_equal. f_equal; lia.
Qed.

Lemma edition_range_snoc startNum endNum :
  startNum ≤ endNum →
  edition_range startNum endNum
  = edition_range startNum (endNum - 1) ++ [endNum].
Proof.
  intros H. rewrite (edition_range_split startNum endNum endNum) by lia.
  by rewrite (edition_range_empty (endNum + 1)) by lia.
Qed.

Section Batch.
Context (rt : Runtime) (net : network) (token : string).
Context (table : gmap string string).

(** *** The loop, turn by turn *)

Lemma edition_loop_S endNum turns l :
  edition_loop rt net token table endNum (S turns) l
  = edition_loop rt net token table endNum turns
      (loop_turn rt net token table endNum l).
Proof. apply Nat.iter_succ_r. Qed.

Lemma edition_loop_S_last endNum turns l :
  edition_loop rt net token table endNum (S turns) l
  = loop_turn rt net token table endNum
      (edition_loop rt net token table endNum turns l).
Proof. done. Qed.

Lemma edition_loop_add endNum m n l :
  edition_loop rt net token table endNum (m + n) l
  = edition_loop rt net token table endNum m
      (edition_loop rt net token table endNum n l).
Proof. apply Nat.iter_add. Qed.

Lemma edition_loop_Finished endNum turns st :
  edition_loop rt net token table endNum turns (Finished st) = Finished st.
Proof. induction turns as [|n IH]; [done|]. by rewrite edition_loop_S. Qed.

Lemma edition_loop_Exited endNum turns code st :
  edition_loop rt net token table endNum turns (Exited code st)
  = Exited code st.
Proof. induction turns as [|n IH]; [done|]. by rewrite edition_loop_S. Qed.

(** What every turn keeps holds after any number of turns. *)
Lemma edition_loop_invariant (Inv : loop_state → Prop) endNum turns l :
  Inv l →
  (∀ l', Inv l' → Inv (loop_turn rt net token table endNum l')) →
  Inv (edition_loop rt net token table endNum turns l).
Proof.
  intros Hl Hturn. induction turns as [|n IH]; [done|].
  simpl. by apply Hturn.
Qed.

Lemma loop_turn_pass endNum ed st :
  double_leb ed endNum = true →
  loop_turn rt net token table endNum (AtTest ed st)
  = match edition_body rt net token table ed st with
    | (Next, st') => AtTest (increment ed) st'
    | (Exit code, st') => Exited code st'
    end.
Proof. intros Hle. simpl. by rewrite Hle. Qed.

Lemma loop_turn_leave endNum ed st :
  double_leb ed endNum = false →
  loop_turn rt net token table endNum (AtTest ed st) = Finished st.
Proof. intros Hle. simpl. by rewrite Hle. Qed.

Lemma main_accepted turns argv w startNum endNum :
  accepted rt argv w startNum endNum token table →
  main rt net turns argv w
  = (status_of (edition_loop rt net token table endNum turns
                  (AtTest startNum (State w 0 [ReadRegistry]))),
     state_of (edition_loop rt net token table endNum turns
                 (AtTest startNum (State w 0 [ReadRegistry])))).
Proof.
  intros (start & end_ & tok & raw & Hs & He & Ht & Hns & Hne & Hle & Hreg & Htok & Htab).
  unfold main. unfold supplied in Hs, He, Ht.
  rewrite Hs, He, Ht, Hns, Hne, Hreg, <- Htok, <- Htab.
  by rewrite double_ltb_leb, Hle.
Qed.

(** C2.  Let the command line and the registry pass the checks of [main],
    let the loop be at the test for edition [k] in state [st_k] after some
    turns, with [k] in the range, and let the fetch for [k] fail with the
    rate-limit failure.  Then the process exits with status 1, and its
    final state is [st_k] with the request for [k] and the closing log
    line added: no file is written for [k], and however far the range
    goes beyond [k] and however many turns follow, no edition after [k]
    is looked up, fetched or written. *)
Theorem rate_limit_halts_batch argv w startNum endNum turns k st_k tid err :
  accepted rt argv w startNum endNum token table →
  reaches rt net token table startNum endNum (State w 0 [ReadRegistry])
    turns k st_k →
  double_leb k endNum = true →
  extractTidFromLink rt (link_of rt table k) = Some tid →
  posts_json_complete rt (disk st_k) (edition_key rt k) = false →
  fetchThreadPosts rt net (sent st_k) tid token = Throw err →
  err_name err = "RateLimitError" →
  let halted := emit (ConsoleLog line_rate_limit) (fetching rt st_k k tid) in
  (∀ more, main rt net (S (more + turns)) argv w = (Some 1, halted))
  ∧ disk halted = disk st_k
  ∧ ∀ endNum' more,
      double_leb k endNum' = true →
      edition_loop rt net token table endNum' (S more) (AtTest k st_k)
      = Exited 1 halted.
Proof.
  intros Hacc Hreach Hk Htid Hdone Hfetch Hname halted.
  assert (Hlater : ∀ endNum' more,
      double_leb k endNum' = true →
      edition_loop rt net token table endNum' (S more) (AtTest k st_k)
      = Exited 1 halted).
  { intros endNum' more Hk'.
    rewrite edition_loop_S, (loop_turn_pass _ _ _ Hk').
    rewrite (edition_body_rate_limited rt net token table k st_k tid err)
      by done.
    apply edition_loop_Exited. }
  split; [|split; [done|exact Hlater]].
  intros more. rewrite (main_accepted _ _ _ _ _ Hacc).
  replace (S (more + turns)) with (S more + turns)%nat by lia.
  rewrite edition_loop_add. unfold reaches in Hreach. rewrite Hreach.
  by rewrite (Hlater endNum more Hk).
Qed.

(** C6, amended.  For an edition that is fetched: a status outside
    200..299 fails with a message holding the status and the raw body; a
    body that is not JSON, and an answer without a [posts] array that is
    not the rate-limit response, fail with messages of their own; none of
    them is the rate-limit failure.  A failure that is not the rate-limit
    failure and whose message does not hold [MAX_HOURLY_CALLS_EXCEEDED]
    is logged with its message and the loop goes on with the next
    edition; a failure whose message holds that text stops the batch with
    status 1. *)
Theorem generic_failure_is_logged ed st tid :
  extractTidFromLink rt (link_of rt table ed) = Some tid →
  posts_json_complete rt (disk st) (edition_key rt ed) = false →
  (∀ status data,
     (∀ req, net (sent st) req = HttpResponse status data) →
     ¬ (200 ≤ status < 300) →
     fetchThreadPosts rt net (sent st) tid token
     = Throw (Error (http_message status data)))
  ∧ (∀ status data e,
       (∀ req, net (sent st) req = HttpResponse status data) →
       200 ≤ status < 300 →
       JSON_parse rt (body_text data) = Throw e →
       fetchThreadPosts rt net (sent st) tid token
       = Throw (Error ("Failed to parse JSON response: " +:+ err_message e)))
  ∧ (∀ status data response,
       (∀ req, net (sent st) req = HttpResponse status data) →
       200 ≤ status < 300 →
       JSON_parse rt (body_text data) = Return response →
       ¬ rate_limit_shaped response →
       ¬ has_posts_array response →
       fetchThreadPosts rt net (sent st) tid token
       = Throw (Error "Unexpected API response shape (missing posts array)"))
  ∧ (∀ err endNum,
       attempt rt net token tid st = Throw err →
       err_name err ≠ "RateLimitError" →
       includes MAX_HOURLY_CALLS_EXCEEDED (err_message err) = false →
       double_leb ed endNum = true →
       loop_turn rt net token table endNum (AtTest ed st)
       = AtTest (increment ed)
           (emit (ConsoleLog (line_failed rt ed (err_message err)))
              (fetching rt st ed tid)))
  ∧ (∀ err endNum,
       attempt rt net token tid st = Throw err →
       includes MAX_HOURLY_CALLS_EXCEEDED (err_message err) = true →
       edition_body rt net token table ed st
       = (Exit 1, emit (ConsoleLog line_rate_limit) (fetching rt st ed tid))
       ∧ (double_leb ed endNum = true →
          loop_turn rt net token table endNum (AtTest ed st)
          = Exited 1 (emit (ConsoleLog line_rate_limit) (fetching rt st ed tid)))).
Proof.
  intros Htid Hdone.
  split; [intros; by apply fetchThreadPosts_not_ok|].
  split; [intros; by eapply fetchThreadPosts_not_json|].
  split; [intros; by eapply fetchThreadPosts_no_posts|].
  split.
  - intros err endNum Hatt Hname Hmsg Hle.
    rewrite (loop_turn_pass _ _ _ Hle).
    rewrite (edition_body_failure rt net token table ed st tid err Htid Hdone Hatt).
    unfold is_rate_limit. rewrite Hmsg.
    destruct (String.eqb (err_name err) "RateLimitError") eqn:Hn; [|done].
    by apply String.eqb_eq in Hn.
  - intros err endNum Hatt Hmsg.
    assert (Hbody : edition_body rt net token table ed st
              = (Exit 1, emit (ConsoleLog line_rate_limit) (fetching rt st ed tid))).
    { rewrite (edition_body_failure rt net token table ed st tid err Htid Hdone Hatt).
      unfold is_rate_limit. rewrite Hmsg. by rewrite orb_true_r. }
    split; [done|]. intros Hle.
    by rewrite (loop_turn_pass _ _ _ Hle), Hbody.
Qed.

(** *** A run over settled editions *)

(** A turn at a settled edition logs its line and moves on. *)
Lemma loop_turn_settled endNum ed st :
  double_leb ed endNum = true →
  settled rt table (disk st) ed →
  loop_turn rt net token table endNum (AtTest ed st)
  = AtTest (increment ed) (emit (ConsoleLog (settled_line rt table ed)) st).
Proof.
  intros Hle Hs. rewrite (loop_turn_pass _ _ _ Hle).
  by rewrite (edition_body_settled rt net token table ed st Hs).
Qed.

(** Over a range on which the counter counts exactly, the loop runs the
    settled editions one after the other and is left. *)
Lemma edition_loop_settled endNum : ∀ (n : nat) startNum st,
  Z.of_nat n = endNum - startNum + 1 →
  counts_exactly startNum endNum →
  (∀ ed, startNum ≤ ed ≤ endNum → settled rt table (disk st) (Int ed)) →
  ∀ more,
    edition_loop rt net token table (Int endNum) (S (more + n))
      (AtTest (Int startNum) st)
    = Finished
        (State (disk st) (sent st)
           (trace st
            ++ (ConsoleLog ∘ settled_line rt table ∘ Int
                <$> edition_range startNum endNum))).
Proof.
  induction n as [|n IH]; intros startNum st Hn [Hlo Hhi] Hall more.
  - rewrite edition_range_empty by lia. simpl fmap. rewrite app_nil_r.
    rewrite edition_loop_S, loop_turn_leave.
    + rewrite edition_loop_Finished. by destruct st.
    + rewrite double_leb_Int. apply Z.leb_gt. lia.
  - replace (S (more + S n)) with (S (S (more + n))) by lia.
    rewrite edition_loop_S, loop_turn_settled.
    + rewrite increment_Int by lia.
      rewrite (IH (startNum + 1)); [|lia|split; lia|intros ed Hed; apply Hall; lia].
      rewrite (edition_range_cons startNum endNum) by lia.
      simpl. by rewrite <- app_assoc.
    + rewrite double_leb_Int. apply Z.leb_le. lia.
    + apply Hall. lia.
Qed.

(** Started at an integer, the counter visits integers of the range
    only. *)
Lemma visited_integers startNum endNum ed :
  significant_53 startNum = true →
  visited (Int startNum) (Int endNum) ed →
  ∃ v, ed = Int v ∧ startNum ≤ v ≤ endNum ∧ significant_53 v = true.
Proof.
  intros Hstart Hv. induction Hv as [Hle|ed Hv (v & -> & Hin & Hsig) Hle].
  - exists startNum. rewrite double_leb_Int in Hle. apply Z.leb_le in Hle.
    split; [done|]. split; [lia|done].
  - simpl in Hle |- *. exists (round53 (v + 1)).
    rewrite double_leb_Int in Hle. apply Z.leb_le in Hle.
    pose proof (round53_step v Hsig).
    split; [done|]. split; [lia|apply significant_round53].
Qed.

(** Where the counter counts exactly it visits every integer of the
    range. *)
Lemma visited_exact startNum endNum v :
  counts_exactly startNum endNum →
  startNum ≤ v ≤ endNum →
  visited (Int startNum) (Int endNum) (Int v).
Proof.
  intros [Hlo Hhi] [Hs He].
  revert He. pattern v. apply (Zlt_lower_bound_ind _ startNum); [|done].
  clear v Hs. intros v IH Hs He.
  destruct (decide (v = startNum)) as [->|Hne].
  - apply visited_first. rewrite double_leb_Int. apply Z.leb_le. lia.
  - replace (Int v) with (increment (Int (v - 1))).
    + apply visited_next; [apply IH; lia|].
      rewrite increment_Int by lia. rewrite double_leb_Int.
      apply Z.leb_le. lia.
    + rewrite increment_Int by lia. f_equal. lia.
Qed.

(** C8.  Let the command line and the registry pass the checks of
    [main].  If every edition the loop counter visits has no extractable
    tid or has a cache file with a non-empty [posts] array, the run sends
    no request, however long it is followed: the files stay as they were
    and no request is in the trace.  On a range of integers where the
    counter counts exactly the process exits with status 0, each edition
    of the range having logged its no-tid or skipping line. *)
Theorem settled_batch_sends_nothing argv w startNum endNum :
  accepted rt argv w startNum endNum token table →
  (∀ ed, visited startNum endNum ed → settled rt table w ed) →
  (∀ turns,
     sent (main rt net turns argv w).2 = 0%nat
     ∧ disk (main rt net turns argv w).2 = w
     ∧ ∀ key tid, Fetch key tid ∉ trace (main rt net turns argv w).2)
  ∧ (∀ s e,
       startNum = Int s → endNum = Int e → counts_exactly s e →
       ∃ st,
         exits rt net argv w 0 st
         ∧ sent st = 0%nat
         ∧ disk st = w
         ∧ trace st
           = ReadRegistry
             :: (ConsoleLog ∘ settled_line rt table ∘ Int
                 <$> edition_range s e)).
Proof.
  intros Hacc Hall.
  split.
  - intros turns. rewrite (main_accepted _ _ _ _ _ Hacc). simpl.
    set (Inv := λ l : loop_state,
      sent (state_of l) = 0%nat
      ∧ disk (state_of l) = w
      ∧ (∀ key tid, Fetch key tid ∉ trace (state_of l))
      ∧ match l with
        | AtTest ed _ =>
            double_leb ed endNum = true → visited startNum endNum ed
        | _ => True
        end).
    cut (Inv (edition_loop rt net token table endNum turns
                (AtTest startNum (State w 0 [ReadRegistry])))).
    { intros (H1 & H2 & H3 & _). done. }
    apply edition_loop_invariant.
    + unfold Inv. simpl. split; [done|]. split; [done|]. split.
      * intros key tid Hin. apply list_elem_of_singleton in Hin. done.
      * apply visited_first.
    + unfold Inv.
      intros [ed st|st|code st] (Hsent & Hdisk & Htrace & Hv); try done.
      simpl in Hsent, Hdisk, Htrace.
      destruct (double_leb ed endNum) eqn:Hle.
      * rewrite loop_turn_settled; [|done|].
        -- simpl. split; [done|]. split; [done|]. split.
           ++ intros key tid Hin. apply elem_of_app in Hin as [Hin|Hin].
              ** by apply (Htrace key tid).
              ** apply list_elem_of_singleton in Hin. done.
           ++ apply visited_next. by apply Hv.
        -- rewrite Hdisk. apply Hall. by apply Hv.
      * rewrite loop_turn_leave by done. done.
  - intros s e -> -> Hexact.
    assert (Hle : s ≤ e).
    { destruct Hacc as (_ & _ & _ & _ & _ & _ & _ & _ & _ & Hle & _).
      rewrite double_leb_Int in Hle. by apply Z.leb_le. }
    exists (State w 0
              (ReadRegistry
               :: (ConsoleLog ∘ settled_line rt table ∘ Int
                   <$> edition_range s e))).
    split; [|done].
    exists (S (Z.to_nat (e - s + 1))). intros turns Hturns.
    rewrite (main_accepted _ _ _ _ _ Hacc).
    replace turns
      with (S ((turns - S (Z.to_nat (e - s + 1)))
               + Z.to_nat (e - s + 1)))%nat by lia.
    rewrite (edition_loop_settled e (Z.to_nat (e - s + 1)));
      [done|lia|done|].
    intros ed Hed. apply Hall. by apply visited_exact.
Qed.

(** C9.  When the fetch returns and the selection is empty, the pass still
    writes the cache file, holding an empty [posts] array.  With a runtime
    that parses this text back to the value written, the file fails the
    completeness test, so every later pass over this edition that finds
    the file sends a request again. *)
Theorem empty_selection_is_refetched ed st tid posts :
  extractTidFromLink rt (link_of rt table ed) = Some tid →
  posts_json_complete rt (disk st) (edition_key rt ed) = false →
  fetchThreadPosts rt net (sent st) tid token = Return posts →
  selectContiguousFirstAuthorPosts posts = Return [] →
  JSON_parse rt (payload_text rt []) = Return (JObj [("posts", JArr [])]) →
  let r := edition_body rt net token table ed st in
  r.1 = Next
  ∧ posts_files (disk r.2) !! edition_key rt ed = Some (payload_text rt [])
  ∧ posts_json_complete rt (disk r.2) (edition_key rt ed) = false
  ∧ ∀ net' token' st',
      posts_files (disk st') !! edition_key rt ed = Some (payload_text rt []) →
      let r' := edition_body rt net' token' table ed st' in
      sent r'.2 = S (sent st')
      ∧ trace (fetching rt st' ed tid) `prefix_of` trace r'.2.
Proof.
  intros Htid Hdone Hfetch Hsel Hparse r.
  assert (Hincomplete : ∀ w,
    posts_files w !! edition_key rt ed = Some (payload_text rt []) →
    posts_json_complete rt w (edition_key rt ed) = false).
  { intros w Hw. unfold posts_json_complete, readFileSync.
    rewrite Hw. simpl. rewrite Hparse. simpl. apply andb_false_r. }
  destruct (edition_body_writes rt net token table ed st tid posts []
              Htid Hdone Hfetch Hsel) as [Hnext Hfiles].
  fold r in Hnext, Hfiles.
  assert (Hwritten :
    posts_files (disk r.2) !! edition_key rt ed = Some (payload_text rt [])).
  { rewrite Hfiles. apply lookup_insert_eq. }
  split; [done|split; [done|split; [by apply Hincomplete|]]].
  intros net' token' st' Hfile r'.
  exact (edition_body_sends_request rt net' token' table ed st' tid Htid
           (Hincomplete _ Hfile)).
Qed.

End Batch.

(** ** Worked scenarios *)

(** Settles [accepted] for a closed command line and disk by evaluation. *)
Ltac accept_with start end_ tok raw :=
  exists (AStr start), (AStr end_), (AStr tok), raw;
  repeat split; first [ evaluate | lia ].


(** The scenario of the specification: the answer for edition 12 is the
    rate-limit response; the run ends with status 1 after edition 10 was
    written and edition 11 found without tid, and editions 13 and 14 are
    left alone, however many turns the run is given. *)
Lemma rate_limit_at_edition_12 :
  let r := main Reference.runtime rate_limit_on_43 3 (command_line "10" "14")
             empty_disk in
  r.1 = Some 1
  ∧ dom (posts_files (disk r.2)) = {[ "10" ]}
  ∧ sent r.2 = 2%nat
  ∧ main Reference.runtime rate_limit_on_43 9 (command_line "10" "14")
      empty_disk = r.
Proof.
  intros r.
  assert (Hacc : accepted Reference.runtime (command_line "10" "14") empty_disk
                   (Int 10) (Int 14) "secret" table_10_14).
  { accept_with "10" "14" "secret" registry_10_14. }
  pose (st_k := state_of
                  (edition_loop Reference.runtime rate_limit_on_43 "secret"
                     table_10_14 (Int 14) 2
                     (AtTest (Int 10) (State empty_disk 0 [ReadRegistry])))).
  destruct (rate_limit_halts_batch Reference.runtime rate_limit_on_43
              "secret" table_10_14 (command_line "10" "14") empty_disk
              (Int 10) (Int 14) 2 (Int 12) st_k "43"
              (RateLimitError MAX_HOURLY_CALLS_EXCEEDED) Hacc)
    as (Hmain & Hdisk & _);
    [evaluate | evaluate | evaluate | evaluate | evaluate | reflexivity |].
  pose proof (Hmain 0%nat) as H3. pose proof (Hmain 6%nat) as H9.
  change (S (0 + 2)) with 3%nat in H3. change (S (6 + 2)) with 9%nat in H9.
  subst r. rewrite H3, H9.
  split; [reflexivity|]. split; [evaluate|]. split; [evaluate|reflexivity].
Defined.

(** C6, as stated, fails for a status outside 200..299 whose body holds
    the marker: the failure is not the rate-limit failure, yet it is not
    logged as a failed fetch, and the batch stops before edition 13. *)
Lemma http_429_with_marker_halts :
  let net := always (HttpResponse 429 body_rate_limit) in
  let r := main Reference.runtime net 5 (command_line "12" "13") empty_disk in
  fetchThreadPosts Reference.runtime net 0 "43" "secret"
  = Throw (Error (http_message 429 body_rate_limit))
  ∧ r.1 = Some 1
  ∧ trace r.2 = [ReadRegistry; Fetch "12" "43"; ConsoleLog line_rate_limit].
Proof. vm_compute. by repeat split. Qed.

(** A server error for edition 12: the failure is logged and the loop
    stands at the test for edition 13. *)
Lemma http_500_is_logged_and_skipped :
  let net := always (HttpResponse 500 "oops") in
  let st := State empty_disk 0 [ReadRegistry] in
  loop_turn Reference.runtime net "secret" table_10_14 (Int 13)
    (AtTest (Int 12) st)
  = AtTest (Int 13)
      (State empty_disk 1
         [ReadRegistry; Fetch "12" "43";
          ConsoleLog "Edition 12 - fetch failed: HTTP 500: oops"]).
Proof.
  intros net st.
  destruct (generic_failure_is_logged Reference.runtime net "secret"
              table_10_14 (Int 12) st "43") as (Hstatus & _ & _ & Hlogged & _);
    [evaluate | evaluate |].
  rewrite (Hlogged (Error (http_message 500 "oops")) (Int 13)).
  - reflexivity.
  - unfold attempt. rewrite (Hstatus 500 "oops"); [done|done|lia].
  - discriminate.
  - evaluate.
  - evaluate.
Defined.

(** A second run over editions 10 to 14, all of them cached or without
    tid, against a remote side that would rate limit every request. *)
Lemma second_run_sends_nothing :
  let net := always (HttpResponse 200 body_rate_limit) in
  (∃ st, exits Reference.runtime net (command_line "10" "14") disk_all_cached
           0 st
         ∧ sent st = 0%nat ∧ disk st = disk_all_cached)
  ∧ sent (main Reference.runtime net 2 (command_line "10" "14")
            disk_all_cached).2 = 0%nat.
Proof.
  intros net.
  assert (Hacc : accepted Reference.runtime (command_line "10" "14")
                   disk_all_cached (Int 10) (Int 14) "secret" table_10_14).
  { accept_with "10" "14" "secret" registry_10_14. }
  destruct (settled_batch_sends_nothing Reference.runtime net "secret"
              table_10_14 (command_line "10" "14") disk_all_cached
              (Int 10) (Int 14) Hacc)
    as (Hany & Hexits).
  - intros ed Hed.
    destruct (visited_integers 10 14 ed eq_refl Hed) as (v & -> & Hv & _).
    assert (Hcases : v = 10 ∨ v = 11 ∨ v = 12 ∨ v = 13 ∨ v = 14) by lia.
    destruct Hcases as [->|[->|[->|[->| ->]]]];
      first [ by left; vm_compute
            | right; apply posts_json_complete_iff; evaluate ].
  - split; [|exact (proj1 (Hany 2%nat))].
    destruct (Hexits 10 14 eq_refl eq_refl)
      as (st & Hexit & Hsent & Hdisk & _); [by split|].
    by exists st.
Defined.

(** The API answers with an empty [posts] array for edition 14: the file
    written holds an empty array, and the next run asks again. *)
Lemma empty_answer_is_asked_again :
  let net := always (HttpResponse 200 body_no_posts) in
  let r := edition_body Reference.runtime net "secret" table_10_14 (Int 14)
             (State empty_disk 0 []) in
  posts_files (disk r.2) !! "14" = Some file_no_posts
  ∧ sent (edition_body Reference.runtime net "secret" table_10_14 (Int 14)
            (State (disk r.2) 0 [])).2 = 1%nat.
Proof.
  intros net r.
  destruct (empty_selection_is_refetched Reference.runtime net "secret"
              table_10_14 (Int 14) (State empty_disk 0 []) "45" (JArr []))
    as (_ & Hfile & _ & Hagain);
    [evaluate | evaluate | evaluate | reflexivity | evaluate |].
  fold r in Hfile. split; [exact Hfile|].
  exact (proj1 (Hagain net "secret" (State (disk r.2) 0 []) Hfile)).
Defined.



(** A start that is not an integer: the loop counts 10.5, 11.5 and leaves
    at 12.5, looking the editions up under the keys [10.5] and [11.5]. *)
Lemma fractional_editions_are_visited :
  main Reference.runtime (always (HttpResponse 200 body_three_posts)) 3
    (command_line "10.5" "12") disk_halves
  = (Some 0,
     State
       (World "/repo" (Some registry_halves)
          {[ "10.5" := payload_text Reference.runtime
                         [post_of 7 1; post_of 8 1] ]}
          {[ "10.5" ]})
       1
       [ReadRegistry; Fetch "10.5" "42"; MakeDir "10.5";
        WriteFile "10.5"
          (payload_text Reference.runtime [post_of 7 1; post_of 8 1]);
        ConsoleLog "Edition 10.5 - fetched 2 post(s)";
        ConsoleLog "Edition 11.5 - no tid found"]).
Proof. evaluate. Qed.

(** * Further properties *)

(** ** The fields of a line, continued *)

(** X1.  Two quoted cells, whatever characters they hold (commas and
    quotes included), are read back as written, trimmed; what follows the
    second cell is not read, and a line that ends after the second cell
    gives the same two fields. *)
Theorem parseCsvLineFirstN_quoted_cells (q1 q2 rest : string) :
  parseCsvLineFirstN
    (csv_cell q1 +:+ String comma (csv_cell q2 +:+ String comma rest)) 2
  = [trim q1; trim q2]
  ∧ parseCsvLineFirstN (csv_cell q1 +:+ String comma (csv_cell q2)) 2
    = [trim q1; trim q2].
Proof.
  unfold parseCsvLineFirstN. split.
  - rewrite csv_scan_cell_then_comma, csv_scan_comma_more by done.
    rewrite csv_scan_cell_then_comma, csv_scan_comma_last by done.
    done.
  - rewrite csv_scan_cell_then_comma, csv_scan_comma_more by done.
    rewrite csv_scan_cell_at_end. done.
Qed.

(** X2.  Two unquoted cells without quote and comma are returned trimmed,
    whether or not more cells follow; the text after the second comma is
    not read. *)
Theorem parseCsvLineFirstN_plain_cells (a b rest : string) :
  plain_text a = true → plain_text b = true →
  parseCsvLineFirstN (a +:+ String comma (b +:+ String comma rest)) 2
  = [trim a; trim b]
  ∧ parseCsvLineFirstN (a +:+ String comma b) 2 = [trim a; trim b].
Proof.
  intros Ha Hb. split; [by apply parseCsvLineFirstN_two_fields|].
  unfold parseCsvLineFirstN.
  rewrite csv_scan_plain, csv_scan_comma_more by done.
  rewrite <- (append_empty_r b) at 1.
  rewrite csv_scan_plain by done. done.
Qed.

Lemma parseCsvLineFirstN_plain_cells_example :
  plain_text " 12 " = true ∧ plain_text "https://site/t?tid=3" = true
  ∧ parseCsvLineFirstN " 12 ,https://site/t?tid=3,Name,Note" 2
    = ["12"; "https://site/t?tid=3"].
Proof.
  split; [reflexivity|]. split; [reflexivity|].
  exact (proj1 (parseCsvLineFirstN_plain_cells " 12 " "https://site/t?tid=3"
                  "Name,Note" eq_refl eq_refl)).
Defined.

(** ** The rows of the registry *)

(** X3.  [parseCsvLineFirstN] never returns more fields than asked for
    and, when at least one is asked for, never an empty array; so every
    row of [readCsv] has an edition (the test [row.edition === undefined]
    of [main] never holds) and the lookup table has an entry for it. *)
Theorem readCsv_rows_have_edition (line raw : string) (fieldsToExtract : nat) :
  (length (parseCsvLineFirstN line fieldsToExtract) ≤ fieldsToExtract)%nat
  ∧ ((1 ≤ fieldsToExtract)%nat →
     (1 ≤ length (parseCsvLineFirstN line fieldsToExtract))%nat)
  ∧ (∀ r, r ∈ readCsv raw →
          ∃ e, edition r = Some e
               ∧ is_Some (build_editionToLink (readCsv raw) !! e)).
Proof.
  assert (Hlow : ∀ l n, (1 ≤ n)%nat → (1 ≤ length (parseCsvLineFirstN l n))%nat).
  { intros l n Hn. unfold parseCsvLineFirstN.
    destruct (csv_scan n l [] EmptyString false) as [fields current].
    rewrite length_fmap, length_take.
    destruct (length fields <? n)%nat eqn:Hlt.
    - rewrite length_app. simpl. lia.
    - apply Nat.ltb_ge in Hlt. lia. }
  split; [apply parseCsvLineFirstN_length|]. split; [apply Hlow|].
  assert (Hed : ∀ r, r ∈ readCsv raw → ∃ e, edition r = Some e).
  { intros r Hr. unfold readCsv in Hr.
    destruct (filter _ _) as [|header data]; [by apply elem_of_nil in Hr|].
    apply list_elem_of_fmap in Hr as (l & -> & _). simpl.
    specialize (Hlow l 2%nat ltac:(lia)).
    destruct (parseCsvLineFirstN l 2) as [|f fs]; [simpl in Hlow; lia|].
    by exists f. }
  intros r Hr. destruct (Hed r Hr) as [e He]. exists e. split; [done|].
  unfold build_editionToLink.
  assert (Hkeep : ∀ rows (m : gmap string string),
            is_Some (m !! e) ∨ r ∈ rows →
            is_Some (foldl (λ m r,
                        match edition r with
                        | None => m
                        | Some e => <[e := default EmptyString (link r)]> m
                        end) m rows !! e)).
  { induction rows as [|r' rows IH]; intros m [Hm|Hin]; simpl.
    - done.
    - by apply elem_of_nil in Hin.
    - apply IH. left. destruct (edition r') as [e'|]; [|done].
      destruct (decide (e' = e)) as [->|Hne].
      + rewrite lookup_insert_eq. by eexists.
      + by rewrite lookup_insert_ne.
    - apply IH. apply elem_of_cons in Hin as [<-|Hin]; [|by right].
      left. rewrite He, lookup_insert_eq. by eexists. }
  apply Hkeep. by right.
Qed.

(** ** Lines of the registry *)

Lemma split_lines_crlf raw : ∀ cur,
  free_of CR raw = true →
  split_lines cur (crlf raw) = split_lines cur raw.
Proof.
  induction raw as [|c raw IH]; intros cur Hraw; [done|].
  simpl in Hraw. apply andb_prop in Hraw as [Hc Hraw].
  apply negb_true_iff in Hc.
  simpl crlf. destruct (Ascii.eqb c LF) eqn:Hlf.
  - apply Ascii.eqb_eq in Hlf. subst c. simpl. by rewrite IH.
  - assert (Hstep : ∀ t, split_lines cur (String c t)
                         = split_lines (push_char cur c) t).
    { intros t. simpl. rewrite Hlf, Hc. by destruct t. }
    by rewrite !Hstep, IH.
Qed.

(** X4.  A registry with CR LF line ends gives the rows of the same
    registry with LF line ends. *)
Theorem readCsv_crlf (raw : string) :
  free_of CR raw = true → readCsv (crlf raw) = readCsv raw.
Proof. intros Hraw. unfold readCsv. by rewrite split_lines_crlf. Qed.

Lemma readCsv_crlf_example :
  free_of CR registry_10_14 = true
  ∧ readCsv (crlf registry_10_14) = readCsv registry_10_14.
Proof.
  split; [reflexivity|]. exact (readCsv_crlf registry_10_14 eq_refl).
Defined.

Lemma split_lines_one_line h : ∀ cur,
  free_of LF h = true → split_lines cur h = [cur +:+ h].
Proof.
  induction h as [|c h IH]; intros cur Hh.
  - by rewrite append_empty_r.
  - simpl in Hh. apply andb_prop in Hh as [Hc Hh].
    apply negb_true_iff in Hc.
    assert (Hstep : split_lines cur (String c h)
                    = split_lines (push_char cur c) h).
    { simpl. rewrite Hc. destruct h as [|c' h']; [done|].
      simpl in Hh. apply andb_prop in Hh as [Hc' _].
      apply negb_true_iff in Hc'. by rewrite Hc', andb_false_r. }
    rewrite Hstep, IH by done. by rewrite append_push_char.
Qed.

Lemma split_lines_first_line h body : ∀ cur,
  free_of LF h = true → free_of CR h = true →
  split_lines cur (h +:+ String LF body)
  = (cur +:+ h) :: split_lines EmptyString body.
Proof.
  induction h as [|c h IH]; intros cur Hlf Hcr.
  - rewrite append_empty_r. reflexivity.
  - simpl in Hlf, Hcr.
    apply andb_prop in Hlf as [Hc Hlf]. apply andb_prop in Hcr as [Hc' Hcr].
    apply negb_true_iff in Hc. apply negb_true_iff in Hc'.
    rewrite append_cons.
    assert (Hstep : ∀ t, split_lines cur (String c t)
                         = split_lines (push_char cur c) t).
    { intros t. simpl. rewrite Hc, Hc'. by destruct t. }
    rewrite Hstep, IH by done. by rewrite append_push_char.
Qed.

Lemma is_empty_append_l a b : is_empty a = false → is_empty (a +:+ b) = false.
Proof. by destruct a. Qed.

(** X5.  The first line of the registry is dropped unread: two registries
    that differ in their header line only give the same rows, and a
    registry of one line, with or without a line end, gives no row. *)
Theorem readCsv_header_unread (h h' body : string) :
  header_line h → header_line h' →
  readCsv (h +:+ String LF body) = readCsv (h' +:+ String LF body)
  ∧ readCsv h = []
  ∧ readCsv (h +:+ str1 LF) = [].
Proof.
  intros (Hne & Hlf & Hcr) (Hne' & Hlf' & Hcr').
  assert (Hrows : ∀ x, is_empty x = false → free_of LF x = true →
            free_of CR x = true →
            readCsv (x +:+ String LF body)
            = (λ l, let fs := parseCsvLineFirstN l 2 in
                    Row (fs !! 0%nat) (fs !! 1%nat))
                <$> filter (λ l, is_empty l = false)
                      (split_lines EmptyString body)).
  { intros x Hx Hxl Hxc. unfold readCsv.
    rewrite split_lines_first_line by done.
    change (EmptyString +:+ x) with x.
    rewrite filter_cons_True by done. done. }
  split; [by rewrite !Hrows|]. split.
  - unfold readCsv. rewrite split_lines_one_line by done.
    change (EmptyString +:+ h) with h. by rewrite filter_cons_True.
  - unfold readCsv, str1. rewrite split_lines_first_line by done.
    change (EmptyString +:+ h) with h.
    rewrite filter_cons_True by done. done.
Qed.

Lemma readCsv_header_unread_example :
  header_line "Edition,Link" ∧ header_line "9,https://site/t?tid=1"
  ∧ readCsv ("9,https://site/t?tid=1" +:+ str1 LF) = [].
Proof.
  assert (H1 : header_line "Edition,Link") by (by repeat split).
  assert (H2 : header_line "9,https://site/t?tid=1") by (by repeat split).
  split; [exact H1|]. split; [exact H2|].
  exact (proj2 (proj2 (readCsv_header_unread "9,https://site/t?tid=1"
                         "Edition,Link" EmptyString H2 H1))).
Defined.

(** ** The lookup table *)

Lemma build_editionToLink_app rows1 rows2 :
  build_editionToLink (rows1 ++ rows2)
  = foldl (λ m r,
             match edition r with
             | None => m
             | Some e => <[e := default EmptyString (link r)]> m
             end) (build_editionToLink rows1) rows2.
Proof. unfold build_editionToLink. by rewrite foldl_app. Qed.

Lemma foldl_rows_other e rows : ∀ m : gmap string string,
  Forall (λ r, ¬ row_of e r) rows →
  foldl (λ m r,
           match edition r with
           | None => m
           | Some e => <[e := default EmptyString (link r)]> m
           end) m rows !! e
  = m !! e.
Proof.
  induction rows as [|r rows IH]; intros m Hrows; [done|].
  inversion Hrows as [|? ? Hr Hrest]; subst. simpl.
  rewrite IH by done. unfold row_of in Hr.
  destruct (edition r) as [e'|]; [|done].
  apply lookup_insert_ne. congruence.
Qed.

(** X6.  In the lookup table a later row replaces an earlier one of the
    same edition: the entry of an edition is the link of its last row (the
    empty string when that row has no link), and an edition that no row
    has is not in the table. *)
Theorem build_editionToLink_last_row (e : string) (l : option string)
    (before after : list row) :
  Forall (λ r, ¬ row_of e r) after →
  build_editionToLink (before ++ Row (Some e) l :: after) !! e
  = Some (default EmptyString l)
  ∧ build_editionToLink after !! e = None.
Proof.
  intros Hafter. split.
  - rewrite build_editionToLink_app. simpl.
    rewrite foldl_rows_other by done. apply lookup_insert_eq.
  - unfold build_editionToLink. by rewrite foldl_rows_other.
Qed.

Lemma build_editionToLink_last_row_example :
  Forall (λ r, ¬ row_of "7" r) [Row (Some "8") (Some "b")]
  ∧ build_editionToLink
      [Row (Some "7") (Some "a"); Row (Some "7") None; Row (Some "8") (Some "b")]
    !! "7" = Some EmptyString.
Proof.
  assert (H : Forall (λ r, ¬ row_of "7" r) [Row (Some "8") (Some "b")]).
  { repeat constructor. unfold row_of. simpl. discriminate. }
  split; [exact H|].
  exact (proj1 (build_editionToLink_last_row "7" None
                  [Row (Some "7") (Some "a")] [Row (Some "8") (Some "b")] H)).
Defined.

Lemma foldl_rows_no_link key rows : ∀ m : gmap string string,
  default EmptyString (m !! key) = EmptyString →
  Forall (λ r, row_of key r → default EmptyString (link r) = EmptyString) rows →
  default EmptyString
    (foldl (λ m r,
              match edition r with
              | None => m
              | Some e => <[e := default EmptyString (link r)]> m
              end) m rows !! key)
  = EmptyString.
Proof.
  induction rows as [|r rows IH]; intros m Hm Hrows; [done|].
  inversion Hrows as [|? ? Hr Hrest]; subst. simpl.
  apply IH; [|done]. unfold row_of in Hr.
  destruct (edition r) as [e'|]; [|done].
  destruct (decide (e' = key)) as [->|Hne].
  - rewrite lookup_insert_eq. simpl. by apply Hr.
  - by rewrite lookup_insert_ne.
Qed.

(** X7.  An edition that the registry does not list, or lists without a
    link, is passed over with the no-tid line, whatever the runtime, the
    remote side and the disk: no request is sent and no file is read or
    written. *)
Theorem unlisted_edition_is_passed_over (rt : Runtime) (net : network)
    (token : string) (rows : list row) (ed : double) (st : state) :
  Forall (λ r, row_of (edition_key rt ed) r →
               default EmptyString (link r) = EmptyString) rows →
  edition_body rt net token (build_editionToLink rows) ed st
  = (Next, emit (ConsoleLog (line_no_tid rt ed)) st).
Proof.
  intros Hrows. apply edition_body_no_tid.
  unfold link_of, build_editionToLink.
  by rewrite foldl_rows_no_link.
Qed.

Lemma unlisted_edition_is_passed_over_example :
  Forall (λ r, row_of (edition_key Reference.runtime (Int 5)) r →
               default EmptyString (link r) = EmptyString)
    (readCsv registry_single_field)
  ∧ edition_body Reference.runtime (always (HttpError (Error "down"))) "secret"
      (build_editionToLink (readCsv registry_single_field)) (Int 5)
      (State empty_disk 0 [])
    = (Next, State empty_disk 0 [ConsoleLog "Edition 5 - no tid found"]).
Proof.
  assert (H : Forall (λ r, row_of (edition_key Reference.runtime (Int 5)) r →
                           default EmptyString (link r) = EmptyString)
                (readCsv registry_single_field)).
  { repeat constructor. }
  split; [exact H|].
  exact (unlisted_edition_is_passed_over Reference.runtime
           (always (HttpError (Error "down"))) "secret"
           (readCsv registry_single_field) (Int 5) (State empty_disk 0 []) H).
Defined.

(** ** Fields and cells *)

Lemma trimStart_spec s : ∃ l, s = l +:+ trimStart s ∧ white l = true.
Proof.
  induction s as [|c s (l & Hs & Hl)]; [by exists EmptyString|].
  simpl. destruct (is_white_space c) eqn:Hc.
  - exists (String c l). rewrite append_cons, <- Hs. split; [done|].
    simpl. by rewrite Hc.
  - by exists EmptyString.
Qed.

Lemma trimEnd_spec s : ∃ r, s = trimEnd s +:+ r ∧ white r = true.
Proof.
  induction s as [|c s (r & Hs & Hr)]; [by exists EmptyString|].
  simpl. destruct (trimEnd s) as [|a t] eqn:Ht.
  - change (EmptyString +:+ r) with r in Hs. subst r.
    destruct (is_white_space c) eqn:Hc.
    + exists (String c s). split; [done|]. simpl. by rewrite Hc.
    + exists s. by split.
  - exists r. rewrite append_cons, <- Hs. by split.
Qed.

(** [trim] takes white space away, at both ends, and nothing else. *)
Lemma trim_spec s :
  ∃ l r, s = l +:+ trim s +:+ r
         ∧ white l = true ∧ white r = true
         ∧ no_surrounding_space (trim s).
Proof.
  destruct (trimStart_spec s) as (l & Hl & Hwl).
  destruct (trimEnd_spec (trimStart s)) as (r & Hr & Hwr).
  exists l, r. unfold trim at 1.
  rewrite <- Hr, <- Hl. repeat split; try done; apply trim_no_surrounding_space.
Qed.

(** The scan of a cell that a comma follows, and of the last cell. *)
Lemma csv_scan_one_cell n c s fields :
  well_formed c →
  csv_scan n (cell_text c +:+ String comma s) fields EmptyString false
  = csv_scan n (String comma s) fields (cell_content c) false.
Proof.
  intros Hc. destruct c as [a|q]; simpl cell_text; simpl cell_content.
  - by rewrite csv_scan_plain.
  - by rewrite csv_scan_cell_then_comma.
Qed.

Lemma csv_scan_last_cell n c fields :
  well_formed c →
  csv_scan n (cell_text c) fields EmptyString false
  = (fields, cell_content c).
Proof.
  intros Hc. destruct c as [a|q]; simpl cell_text; simpl cell_content.
  - rewrite <- (append_empty_r a) at 1. by rewrite csv_scan_plain.
  - by rewrite csv_scan_cell_at_end.
Qed.

(** The fields collected from a line of cells: those already there and
    then the contents of the cells, as many as are still wanted. *)
Lemma csv_scan_cells n : ∀ cells fields,
  cells ≠ [] → Forall well_formed cells → (length fields < n)%nat →
  (let '(fs, current) :=
     csv_scan n (csv_line cells) fields EmptyString false in
   if (length fs <? n)%nat then fs ++ [current] else fs)
  = fields ++ (cell_content <$> take (n - length fields) cells).
Proof.
  induction cells as [|c cells IH]; intros fields Hne Hall Hlen; [done|].
  inversion Hall as [|? ? Hc Hrest]; subst.
  destruct cells as [|c' cells].
  - simpl csv_line. rewrite csv_scan_last_cell by done.
    destruct (Nat.ltb_spec (length fields) n); [|lia].
    destruct (n - length fields)%nat as [|m] eqn:Hm; [lia|]. simpl.
    by rewrite take_nil.
  - change (csv_line (c :: c' :: cells))
      with (cell_text c +:+ String comma (csv_line (c' :: cells))).
    rewrite csv_scan_one_cell by done.
    destruct (Nat.eq_dec (length (fields ++ [cell_content c])) n) as [Heq|Hneq].
    + rewrite csv_scan_comma_last by done.
      destruct (Nat.ltb_spec (length (fields ++ [cell_content c])) n); [lia|].
      rewrite length_app in Heq. simpl in Heq.
      replace (n - length fields)%nat with 1%nat by lia. done.
    + rewrite csv_scan_comma_more by done.
      rewrite length_app in Hneq. simpl in Hneq.
      rewrite IH; [|done|done|rewrite length_app; simpl; lia].
      rewrite length_app. simpl length.
      replace (n - length fields)%nat with (S (n - (length fields + 1)))
        by lia.
      simpl. by rewrite <- app_assoc.
Qed.

Lemma parseCsvLineFirstN_cells cells n :
  cells ≠ [] → Forall well_formed cells →
  parseCsvLineFirstN (csv_line cells) n
  = trim ∘ cell_content <$> take n cells.
Proof.
  intros Hne Hall. unfold parseCsvLineFirstN.
  destruct n as [|n].
  { destruct (csv_scan 0 _ _ _ _) as [fs current]. by rewrite !take_0. }
  pose proof (csv_scan_cells (S n) cells [] Hne Hall ltac:(simpl; lia)) as H.
  destruct (csv_scan (S n) (csv_line cells) [] EmptyString false)
    as [fs current].
  rewrite H. simpl length. rewrite Nat.sub_0_r. simpl app.
  rewrite <- fmap_take, take_take, Nat.min_id.
  by rewrite <- list_fmap_compose.
Qed.

Lemma csv_line_not_empty c c' cells :
  is_empty (csv_line (c :: c' :: cells)) = false.
Proof.
  change (csv_line (c :: c' :: cells))
    with (cell_text c +:+ String comma (csv_line (c' :: cells))).
  by destruct (cell_text c).
Qed.

(** C10.  Every field [parseCsvLineFirstN] returns is the content of its
    cell with the white space at both ends taken away and nothing else
    changed: for a line of cells, written as they are or between quotes,
    the fields are the trimmed contents of the first cells; [trim s] is
    [s] without a run of white space in front and one behind, and neither
    starts nor ends with white space.  Hence a registry with one data
    line gives the table that maps the trimmed first cell to the trimmed
    second cell, and no key and no link of a table built from any
    registry carries surrounding space. *)
Theorem registry_fields_are_trimmed (cells : list cell) (fieldsToExtract : nat) :
  cells ≠ [] → Forall well_formed cells →
  parseCsvLineFirstN (csv_line cells) fieldsToExtract
  = trim ∘ cell_content <$> take fieldsToExtract cells
  ∧ (∀ s, ∃ l r, s = l +:+ trim s +:+ r
                 ∧ white l = true ∧ white r = true
                 ∧ no_surrounding_space (trim s))
  ∧ (∀ header c1 c2 rest,
       cells = c1 :: c2 :: rest →
       header_line header →
       free_of LF (csv_line cells) = true →
       build_editionToLink (readCsv (header +:+ String LF (csv_line cells)))
       = {[ trim (cell_content c1) := trim (cell_content c2) ]})
  ∧ (∀ line n, Forall no_surrounding_space (parseCsvLineFirstN line n))
  ∧ (∀ raw k v, build_editionToLink (readCsv raw) !! k = Some v →
                no_surrounding_space k ∧ no_surrounding_space v).
Proof.
  intros Hne Hall.
  split; [by apply parseCsvLineFirstN_cells|].
  split; [apply trim_spec|].
  split; [|split; [apply parseCsvLineFirstN_trimmed|]].
  - intros header c1 c2 rest -> (Hh & Hlf & Hcr) Hline.
    pose proof (parseCsvLineFirstN_cells (c1 :: c2 :: rest) 2 Hne Hall) as Hfs.
    pose proof (csv_line_not_empty c1 c2 rest) as Hnonempty.
    set (line := csv_line (c1 :: c2 :: rest)) in *.
    unfold readCsv. rewrite split_lines_first_line by done.
    rewrite split_lines_one_line by done.
    change (EmptyString +:+ header) with header.
    change (EmptyString +:+ line) with line.
    rewrite filter_cons_True by done.
    rewrite filter_cons_True by done.
    rewrite filter_nil. simpl fmap. cbv beta zeta.
    rewrite Hfs. reflexivity.
  - intros raw k v Hkv.
    exact (build_editionToLink_trimmed _ (readCsv_rows_trimmed raw) k v Hkv).
Qed.

Lemma registry_fields_are_trimmed_example :
  parseCsvLineFirstN
    (" 5 ," +:+ quoted " http://x?tid=9,9 " +:+ ",A,B") 2
  = ["5"; "http://x?tid=9,9"]
  ∧ build_editionToLink
      (readCsv ("Edition,Link" +:+ str1 LF
                +:+ " 5 ," +:+ quoted " http://x?tid=9,9 " +:+ ",A,B"))
    = {[ "5" := "http://x?tid=9,9" ]}.
Proof.
  destruct (registry_fields_are_trimmed
              [Plain " 5 "; Quoted " http://x?tid=9,9 "; Plain "A"; Plain "B"]
              2 ltac:(discriminate) ltac:(repeat constructor))
    as (Hfields & _ & Htable & _).
  split; [exact Hfields|].
  exact (Htable "Edition,Link" _ _ _ eq_refl
           ltac:(repeat split) eq_refl).
Defined.

(** ** The command line, continued *)

Lemma split_on_free sep a : ∀ cur,
  free_of sep a = true → split_on sep cur a = [cur +:+ a].
Proof.
  induction a as [|c a IH]; intros cur Ha.
  - by rewrite append_empty_r.
  - simpl in Ha. apply andb_prop in Ha as [Hc Ha].
    apply negb_true_iff in Hc. simpl. rewrite Hc, IH by done.
    by rewrite append_push_char.
Qed.

Lemma split_on_first sep a b : ∀ cur,
  free_of sep a = true →
  split_on sep cur (a +:+ String sep b)
  = (cur +:+ a) :: split_on sep EmptyString b.
Proof.
  induction a as [|c a IH]; intros cur Ha.
  - rewrite append_empty_r. simpl. by rewrite Ascii.eqb_refl.
  - simpl in Ha. apply andb_prop in Ha as [Hc Ha].
    apply negb_true_iff in Hc. rewrite append_cons. simpl.
    rewrite Hc, IH by done. by rewrite append_push_char.
Qed.

Lemma startsWith_dashes k : startsWith "--" ("--" +:+ k) = true.
Proof. by destruct k. Qed.

(** X8.  An argument [--k=v] gives the option [k] the value [v] and takes
    no further argument; when the text after the first [=] holds another
    [=], the value stops there. *)
Theorem parseArgs_equals_form (k v w : string) (rest : list string)
    (args : gmap string argval) :
  free_of "=" k = true → free_of "=" v = true →
  parseArgs_from (("--" +:+ k +:+ String "=" v) :: rest) args
  = parseArgs_from rest (set_arg k (AStr v) args)
  ∧ parseArgs_from (("--" +:+ k +:+ String "=" (v +:+ String "=" w)) :: rest) args
    = parseArgs_from rest (set_arg k (AStr v) args).
Proof.
  intros Hk Hv.
  assert (Hk' : free_of "=" ("--" +:+ k) = true) by done.
  assert (Hstep : ∀ t pieces,
    split_on "=" EmptyString t = ("--" +:+ k) :: v :: pieces →
    startsWith "--" t = true →
    parseArgs_from (t :: rest) args
    = parseArgs_from rest (set_arg k (AStr v) args)).
  { intros t pieces Hsplit Hflag. simpl. by rewrite Hflag, Hsplit. }
  split.
  - apply (Hstep _ []); [|rewrite <- append_assoc; by destruct k].
    rewrite <- append_assoc, split_on_first by done.
    by rewrite split_on_free.
  - apply (Hstep _ (split_on "=" EmptyString w));
      [|rewrite <- append_assoc; by destruct k].
    rewrite <- append_assoc, split_on_first by done.
    by rewrite split_on_first.
Qed.

Lemma parseArgs_equals_form_example :
  free_of "=" "token" = true ∧ free_of "=" "abc" = true
  ∧ parseArgs ["node"; "scripts/fetch_posts.js"; "--token=abc=def"] !! "token"
    = Some (AStr "abc").
Proof.
  split; [reflexivity|]. split; [reflexivity|].
  unfold parseArgs. simpl drop.
  rewrite (proj2 (parseArgs_equals_form "token" "abc" "def" [] ∅ eq_refl eq_refl)).
  reflexivity.
Defined.

Lemma parseArgs_from_unnamed k : ∀ n argv (args : gmap string argval),
  (length argv ≤ n)%nat →
  Forall (λ part, names_option k part = false) argv →
  parseArgs_from argv args !! k = args !! k.
Proof.
  assert (Hset : ∀ k' v (args : gmap string argval),
            k' ≠ k → set_arg k' v args !! k = args !! k).
  { intros k' v args Hne. unfold set_arg. destruct (decide _); [done|].
    by rewrite lookup_insert_ne. }
  induction n as [|n IH]; intros argv args Hlen Hall.
  { destruct argv; [done|simpl in Hlen; lia]. }
  destruct argv as [|part rest]; [done|].
  simpl in Hlen. inversion Hall as [|? ? Hpart Hrest]; subst.
  simpl. unfold names_option in Hpart.
  destruct (startsWith "--" part) eqn:Hflag; [|apply IH; [lia|done]].
  simpl in Hpart. apply String.eqb_neq in Hpart.
  destruct (split_on "=" EmptyString part !! 1%nat) as [v|].
  { rewrite IH by (done || lia). by apply Hset. }
  destruct rest as [|next rest'].
  { simpl. by apply Hset. }
  destruct (negb (is_empty next) && negb (startsWith "--" next)).
  - inversion Hrest; subst.
    rewrite IH by (done || (simpl in Hlen; lia)). by apply Hset.
  - rewrite IH by (done || lia). by apply Hset.
Qed.

Lemma parseArgs_from_app : ∀ n pre s (args : gmap string argval),
  (length pre ≤ n)%nat →
  starts_with_flag s →
  parseArgs_from (pre ++ s) args = parseArgs_from s (parseArgs_from pre args).
Proof.
  induction n as [|n IH]; intros pre s args Hlen Hs.
  { destruct pre; [done|simpl in Hlen; lia]. }
  destruct pre as [|part rest]; [done|].
  simpl in Hlen. simpl.
  destruct (startsWith "--" part); [|apply IH; [lia|done]].
  destruct (split_on "=" EmptyString part !! 1%nat) as [v|];
    [apply IH; [lia|done]|].
  destruct rest as [|next rest'].
  - simpl. destruct s as [|next s']; [done|].
    simpl in Hs. rewrite Hs. by rewrite andb_false_r.
  - simpl. destruct (negb (is_empty next) && negb (startsWith "--" next)).
    + apply IH; [simpl in Hlen; lia|done].
    + apply (IH (next :: rest')); [simpl in Hlen; simpl; lia|done].
Qed.

(** X9.  The last flag that names an option decides its value: after any
    arguments, [--k v] followed by arguments that do not name [k] leaves
    [k] with the value [v]. *)
Theorem parseArgs_last_flag_wins (k v : string) (before after : list string)
    (args : gmap string argval) :
  free_of "=" k = true → k ≠ "__proto__" → plain_value v →
  Forall (λ part, names_option k part = false) after →
  parseArgs_from (before ++ ("--" +:+ k) :: v :: after) args !! k
  = Some (AStr v).
Proof.
  intros Hk Hproto Hv Hafter.
  rewrite (parseArgs_from_app (length before)) by (done || apply startsWith_dashes).
  rewrite parseArgs_from_flag_value
    by (done || exact (split_on_free "=" ("--" +:+ k) EmptyString Hk)).
  rewrite (parseArgs_from_unnamed k (length after)) by done.
  rewrite set_arg_insert by done. apply lookup_insert_eq.
Qed.

Lemma parseArgs_last_flag_wins_example :
  plain_value "20"
  ∧ parseArgs ["node"; "scripts/fetch_posts.js"; "--start"; "10"; "--end";
               "--start"; "20"; "extra"; "--token=x"] !! "start"
    = Some (AStr "20").
Proof.
  assert (Hv : plain_value "20") by (by split).
  split; [exact Hv|].
  unfold parseArgs. simpl drop.
  apply (parseArgs_last_flag_wins "start" "20" ["--start"; "10"; "--end"]
           ["extra"; "--token=x"] ∅ eq_refl); [discriminate|exact Hv|].
  repeat constructor.
Defined.

(** ** The fetch, continued *)

(** X10.  On a status from 200 to 299 whose body parses, the rate-limit
    test comes first: an answer with [success: false] and the marker as
    [message] is the rate-limit failure even when it has a [posts] array,
    and any other answer with a [posts] array returns that array as it
    is, its elements unchecked. *)
Theorem fetchThreadPosts_parsed_answer (rt : Runtime) (net : network) (n : nat)
    (tid token : string) (status : Z) (data : string) (response : json) :
  (∀ req, net n req = HttpResponse status data) →
  200 ≤ status < 300 →
  JSON_parse rt (body_text data) = Return response →
  (rate_limit_shaped response →
   fetchThreadPosts rt net n tid token
   = Throw (JsError "RateLimitError" MAX_HOURLY_CALLS_EXCEEDED))
  ∧ (¬ rate_limit_shaped response →
     ∀ items, get_member response "posts" = Some (JArr items) →
              fetchThreadPosts rt net n tid token = Return (JArr items)).
Proof.
  intros Hnet Hstatus Hparse. split.
  - intros Hshape.
    by rewrite (fetchThreadPosts_rate_limit rt net n tid token status data
                  Hnet response Hstatus Hparse Hshape).
  - intros Hshape items Hposts.
    exact (fetchThreadPosts_posts rt net n tid token status data Hnet
             response items Hstatus Hparse Hshape Hposts).
Qed.

Lemma fetchThreadPosts_parsed_answer_example :
  fetchThreadPosts Reference.runtime
    (always (HttpResponse 200
               ("{" +:+ quoted "posts" +:+ ":[null]," +:+ quoted "success"
                +:+ ":false," +:+ quoted "message" +:+ ":"
                +:+ quoted MAX_HOURLY_CALLS_EXCEEDED +:+ "}")))
    0 "43" "secret"
  = Throw (JsError "RateLimitError" MAX_HOURLY_CALLS_EXCEEDED).
Proof.
  apply (fetchThreadPosts_parsed_answer Reference.runtime _ 0 "43" "secret" 200
           ("{" +:+ quoted "posts" +:+ ":[null]," +:+ quoted "success"
            +:+ ":false," +:+ quoted "message" +:+ ":"
            +:+ quoted MAX_HOURLY_CALLS_EXCEEDED +:+ "}")
           (JObj [("posts", JArr [JNull]); ("success", JBool false);
                  ("message", JStr MAX_HOURLY_CALLS_EXCEEDED)])).
  - reflexivity.
  - lia.
  - evaluate.
  - split; reflexivity.
Defined.

(** X11.  A status from 200 to 299 with an empty body is read as the
    empty object, which has no [posts] array: the fetch fails with the
    unexpected-shape message, and the pass logs it and goes on without
    writing a file. *)
Theorem empty_body_is_a_failed_fetch (rt : Runtime) (net : network)
    (token : string) (table : gmap string string) (ed : double) (st : state)
    (tid : string) (status : Z) :
  JSON_parse rt "{}" = Return (JObj []) →
  extractTidFromLink rt (link_of rt table ed) = Some tid →
  posts_json_complete rt (disk st) (edition_key rt ed) = false →
  (∀ req, net (sent st) req = HttpResponse status EmptyString) →
  200 ≤ status < 300 →
  edition_body rt net token table ed st
  = (Next,
     emit (ConsoleLog
             (line_failed rt ed "Unexpected API response shape (missing posts array)"))
       (fetching rt st ed tid)).
Proof.
  intros Hparse Htid Hdone Hnet Hstatus.
  rewrite (edition_body_failure rt net token table ed st tid
             (Error "Unexpected API response shape (missing posts array)")
             Htid Hdone); [done|].
  unfold attempt.
  rewrite (fetchThreadPosts_no_posts rt net (sent st) tid token status
             EmptyString Hnet (JObj []) Hstatus Hparse); [done| |].
  - by intros [H _].
  - by intros [items H].
Qed.

Lemma empty_body_is_a_failed_fetch_example :
  (edition_body Reference.runtime (always (HttpResponse 204 EmptyString))
     "secret" table_10_14 (Int 10) (State empty_disk 0 [])).2
  = State empty_disk 1
      [Fetch "10" "42";
       ConsoleLog
         "Edition 10 - fetch failed: Unexpected API response shape (missing posts array)"].
Proof.
  rewrite (empty_body_is_a_failed_fetch Reference.runtime
             (always (HttpResponse 204 EmptyString)) "secret" table_10_14 (Int 10)
             (State empty_disk 0 []) "42" 204);
    [reflexivity | evaluate | evaluate | evaluate | reflexivity | lia].
Defined.

(** ** The selection, continued *)

Lemma select_from_take firstUid posts : ∀ i result R,
  select_from firstUid i posts result = Return R →
  ∃ n, R = result ++ take n posts
       ∧ select_from firstUid i (take n posts) result = Return R.
Proof.
  induction posts as [|p rest IH]; intros i result R; simpl.
  - intros [= <-]. exists 0%nat. by rewrite app_nil_r.
  - destruct (read_uid p) as [uid|e] eqn:Hp; simpl; [|done].
    destruct (strict_equals_at i 0 uid firstUid) eqn:Heq.
    + intros H. destruct (IH _ _ _ H) as (n & -> & Hn).
      exists (S n). simpl. rewrite Hp. simpl. rewrite Heq.
      split; [by rewrite <- app_assoc|done].
    + intros [= <-]. exists 0%nat. by rewrite app_nil_r.
Qed.

(** X12.  The selection is idempotent: selecting again from what was
    selected changes nothing. *)
Theorem selectContiguousFirstAuthorPosts_idempotent (P R : list json) :
  selectContiguousFirstAuthorPosts (JArr P) = Return R →
  selectContiguousFirstAuthorPosts (JArr R) = Return R.
Proof.
  destruct P as [|p0 rest]; [by intros [= <-]|]. simpl.
  destruct (read_uid p0) as [uid|e] eqn:Hp0; simpl; [|done].
  rewrite strict_equals_at_refl.
  intros H. destruct (select_from_take _ _ _ _ _ H) as (n & -> & Hn).
  simpl. rewrite Hp0. simpl. by rewrite strict_equals_at_refl.
Qed.

Lemma selectContiguousFirstAuthorPosts_idempotent_example :
  selectContiguousFirstAuthorPosts (JArr [post_of 7 1; post_of 8 1])
  = Return [post_of 7 1; post_of 8 1].
Proof.
  apply (selectContiguousFirstAuthorPosts_idempotent
           [post_of 7 1; post_of 8 1; post_of 9 2]).
  reflexivity.
Defined.

Lemma select_from_stops firstUid run : ∀ i result q rest u,
  select_from firstUid i run result = Return (result ++ run) →
  read_uid q = Return u →
  strict_equals_at (i + length run) 0 u firstUid = false →
  select_from firstUid i (run ++ q :: rest) result = Return (result ++ run).
Proof.
  induction run as [|p run IH]; intros i result q rest u Hrun Hq Hu; simpl.
  - rewrite Hq. simpl. rewrite Nat.add_0_r in Hu. by rewrite Hu.
  - simpl in Hrun. destruct (read_uid p) as [v|e]; simpl in *; [|done].
    destruct (strict_equals_at i 0 v firstUid).
    + replace (result ++ p :: run) with ((result ++ [p]) ++ run) in *
        by (by rewrite <- app_assoc).
      apply IH with u; [done|done|].
      by replace (S i + length run)%nat with (i + S (length run))%nat by lia.
    + injection Hrun as Hrun.
      apply (f_equal length) in Hrun. rewrite length_app in Hrun.
      simpl in Hrun. lia.
Qed.

(** X13.  The selection does not look past the first post of another
    author: when the whole of [p0 :: run] is selected from itself and [q]
    has another [uid], what follows [q] (a [null] included) changes
    neither the result nor whether the call returns. *)
Theorem selectContiguousFirstAuthorPosts_stops_at_change
    (p0 q : json) (run rest : list json) (u : option json) :
  selectContiguousFirstAuthorPosts (JArr (p0 :: run)) = Return (p0 :: run) →
  read_uid q = Return u →
  strict_equals_at (S (length run)) 0 u (uid_of p0) = false →
  selectContiguousFirstAuthorPosts (JArr (p0 :: run ++ q :: rest))
  = Return (p0 :: run).
Proof.
  simpl.
  destruct (read_uid p0) as [uid|e] eqn:Hp0; simpl; [|done].
  rewrite strict_equals_at_refl. intros Hrun Hq Hu.
  assert (Huid : uid = uid_of p0).
  { destruct p0; simpl in Hp0; try done; by injection Hp0 as <-. }
  subst uid.
  by apply (select_from_stops (uid_of p0) run 1 [p0] q rest u).
Qed.

Lemma selectContiguousFirstAuthorPosts_stops_at_change_example :
  selectContiguousFirstAuthorPosts
    (JArr [post_of 7 1; post_of 8 1; post_of 9 2; JNull; post_of 10 1])
  = Return [post_of 7 1; post_of 8 1].
Proof.
  apply (selectContiguousFirstAuthorPosts_stops_at_change
           (post_of 7 1) (post_of 9 2) [post_of 8 1] [JNull; post_of 10 1]
           (Some (JNum 2))); reflexivity.
Defined.

(** ** The loop, continued: what a run leaves alone *)

Lemma fetched_app tr1 tr2 : fetched (tr1 ++ tr2) = fetched tr1 ++ fetched tr2.
Proof. apply omap_app. Qed.

Lemma written_app tr1 tr2 : written (tr1 ++ tr2) = written tr1 ++ written tr2.
Proof. apply omap_app. Qed.

Lemma made_app tr1 tr2 : made (tr1 ++ tr2) = made tr1 ++ made tr2.
Proof. apply omap_app. Qed.

Lemma dirs_after_app dirs tr1 tr2 :
  dirs_after dirs (tr1 ++ tr2) = dirs_after (dirs_after dirs tr1) tr2.
Proof.
  unfold dirs_after. rewrite made_app, list_to_set_app_L.
  by rewrite (assoc_L (∪)).
Qed.

Lemma dirs_after_subseteq dirs tr : dirs ⊆ dirs_after dirs tr.
Proof. unfold dirs_after. apply union_subseteq_l. Qed.

Lemma elem_of_dirs_after key dirs tr :
  key ∈ dirs_after dirs tr ↔ key ∈ dirs ∨ key ∈ made tr.
Proof. unfold dirs_after. by rewrite elem_of_union, elem_of_list_to_set. Qed.

Lemma writes_in_dirs_app tr1 : ∀ dirs tr2,
  writes_in_dirs dirs (tr1 ++ tr2)
  ↔ writes_in_dirs dirs tr1 ∧ writes_in_dirs (dirs_after dirs tr1) tr2.
Proof.
  induction tr1 as [|e tr1 IH]; intros dirs tr2.
  - unfold dirs_after. simpl. rewrite (right_id_L ∅ (∪)). tauto.
  - destruct e as [line|line| |k tid|k|k content]; simpl;
      rewrite ?IH; try done.
    + replace (dirs_after (dirs ∪ {[k]}) tr1)
        with (dirs_after dirs (MakeDir k :: tr1)); [tauto|].
      unfold dirs_after. simpl. by rewrite (assoc_L (∪)).
    + tauto.
Qed.

Lemma posts_json_complete_ext rt w w' key :
  posts_files w' !! key = posts_files w !! key →
  posts_json_complete rt w' key = posts_json_complete rt w key.
Proof.
  intros H. unfold posts_json_complete, fileExists, readFileSync. by rewrite H.
Qed.

Section Frame.
Context (rt : Runtime) (net : network) (token : string).
Context (table : gmap string string).

(** The four ways a pass ends. *)
Lemma edition_body_shape ed st :
  (∃ line, edition_body rt net token table ed st
           = (Next, emit (ConsoleLog ("Edition " +:+ line)) st))
  ∨ ∃ tid,
      posts_json_complete rt (disk st) (edition_key rt ed) = false
      ∧ ((∃ line, edition_body rt net token table ed st
                  = (Next, emit (ConsoleLog ("Edition " +:+ line))
                             (fetching rt st ed tid)))
         ∨ edition_body rt net token table ed st
           = (Exit 1, emit (ConsoleLog line_rate_limit) (fetching rt st ed tid))
         ∨ ∃ contiguous line,
             edition_body rt net token table ed st
             = (Next,
                emit (ConsoleLog ("Edition " +:+ line))
                  (writeFileSync (edition_key rt ed) (payload_text rt contiguous)
                     (ensureDirSync (edition_key rt ed) (fetching rt st ed tid))))).
Proof.
  destruct (extractTidFromLink rt (link_of rt table ed)) as [tid|] eqn:Htid.
  - destruct (posts_json_complete rt (disk st) (edition_key rt ed)) eqn:Hdone.
    + left. eexists.
      rewrite (edition_body_skipping rt net token table ed st tid Htid Hdone).
      reflexivity.
    + right. exists tid. split; [done|].
      rewrite (edition_body_fetching rt net token table ed st tid Htid Hdone).
      destruct (attempt rt net token tid st) as [contiguous|err].
      * right. right. exists contiguous. eexists. reflexivity.
      * destruct (is_rate_limit err); [right; by left|].
        left. eexists. reflexivity.
  - left. eexists.
    rewrite (edition_body_no_tid rt net token table ed st Htid). reflexivity.
Qed.

(** One pass comes after the state it starts in, and works on its own
    edition only. *)
Lemma edition_body_comes_after ed st :
  comes_after rt (λ key, key = edition_key rt ed) st
    (edition_body rt net token table ed st).2.
Proof using Type.
  assert (Hquiet : ∀ line,
    comes_after rt (λ key, key = edition_key rt ed) st
      (emit (ConsoleLog line) st)).
  { intros line. exists [ConsoleLog line]. simpl.
    unfold dirs_after. simpl. rewrite (right_id_L ∅ (∪)).
    repeat split; try done; try lia.
    intros key _. apply not_elem_of_nil. }
  assert (Hasked : ∀ tid line,
    posts_json_complete rt (disk st) (edition_key rt ed) = false →
    comes_after rt (λ key, key = edition_key rt ed) st
      (emit (ConsoleLog line) (fetching rt st ed tid))).
  { intros tid line Hdone.
    exists [Fetch (edition_key rt ed) tid; ConsoleLog line]. simpl.
    unfold dirs_after. simpl. rewrite (right_id_L ∅ (∪)).
    split; [by rewrite <- app_assoc|].
    repeat split; try done; try lia.
    - apply sublist_nil_l.
    - by repeat constructor.
    - intros key Hkey Hin. apply list_elem_of_singleton in Hin.
      subst key. by rewrite Hkey in Hdone. }
  destruct (edition_body_shape ed st)
    as [[line H]|(tid & Hdone & [[line H]|[H|(contiguous & line & H)]])];
    rewrite H; clear H; simpl snd; [by apply Hquiet|by apply Hasked
                                   |by apply Hasked|].
  assert (Hkeys : ∀ key,
    (¬ key = edition_key rt ed)
    ∨ posts_json_complete rt (disk st) key = true →
    key ≠ edition_key rt ed).
  { intros key [Hk|Hk]; [done|]. intros ->. by rewrite Hk in Hdone. }
  unfold ensureDirSync.
  destruct (decide (edition_key rt ed
                    ∈ edition_dirs (disk (fetching rt st ed tid))))
    as [Hin|Hin]; simpl in Hin |- *.
  - exists [Fetch (edition_key rt ed) tid;
            WriteFile (edition_key rt ed) (payload_text rt contiguous);
            ConsoleLog ("Edition " +:+ line)].
    simpl. unfold dirs_after. simpl. rewrite (right_id_L ∅ (∪)).
    split; [by rewrite <- !app_assoc|].
    repeat split; try done; try lia.
    + rewrite dom_insert_L. apply union_subseteq_r.
    + by repeat constructor.
    + intros key Hkey Hk. apply list_elem_of_singleton in Hk.
      subst key. by rewrite Hkey in Hdone.
    + intros key Hkey. apply lookup_insert_ne. intros <-.
      by apply (Hkeys _ Hkey).
  - exists [Fetch (edition_key rt ed) tid; MakeDir (edition_key rt ed);
            WriteFile (edition_key rt ed) (payload_text rt contiguous);
            ConsoleLog ("Edition " +:+ line)].
    simpl. unfold dirs_after. simpl.
    rewrite (right_id_L ∅ (∪)).
    split; [by rewrite <- !app_assoc|].
    repeat split; try done; try lia.
    + rewrite dom_insert_L. apply union_subseteq_r.
    + apply elem_of_union. right. by apply elem_of_singleton.
    + by repeat constructor.
    + by repeat constructor.
    + intros key Hkey Hk. apply list_elem_of_singleton in Hk.
      subst key. by rewrite Hkey in Hdone.
    + intros key Hkey. apply lookup_insert_ne. intros <-.
      by apply (Hkeys _ Hkey).
Qed.

(** A pass sends at most one request, for its own edition, and writes a
    file only after a request. *)
Lemma edition_body_requests ed st :
  ∃ evs,
    trace (edition_body rt net token table ed st).2 = trace st ++ evs
    ∧ fetched evs `sublist_of` [edition_key rt ed]
    ∧ written evs `sublist_of` fetched evs.
Proof using Type.
  destruct (edition_body_shape ed st)
    as [[line H]|(tid & Hdone & [[line H]|[H|(contiguous & line & H)]])];
    rewrite H; clear H; simpl snd.
  - exists [ConsoleLog ("Edition " +:+ line)]. simpl.
    split; [done|]. split; [apply sublist_nil_l|done].
  - exists [Fetch (edition_key rt ed) tid; ConsoleLog ("Edition " +:+ line)].
    simpl. split; [by rewrite <- app_assoc|]. split; [done|apply sublist_nil_l].
  - exists [Fetch (edition_key rt ed) tid; ConsoleLog line_rate_limit].
    simpl. split; [by rewrite <- app_assoc|]. split; [done|apply sublist_nil_l].
  - unfold ensureDirSync.
    destruct (decide (edition_key rt ed
                      ∈ edition_dirs (disk (fetching rt st ed tid)))); simpl.
    + exists [Fetch (edition_key rt ed) tid;
              WriteFile (edition_key rt ed) (payload_text rt contiguous);
              ConsoleLog ("Edition " +:+ line)].
      simpl. split; [by rewrite <- !app_assoc|]. by split.
    + exists [Fetch (edition_key rt ed) tid; MakeDir (edition_key rt ed);
              WriteFile (edition_key rt ed) (payload_text rt contiguous);
              ConsoleLog ("Edition " +:+ line)].
      simpl. split; [by rewrite <- !app_assoc|]. by split.
Qed.

Lemma comes_after_refl allowed st : comes_after rt allowed st st.
Proof using Type.
  exists []. simpl. unfold dirs_after. simpl.
  rewrite app_nil_r, (right_id_L ∅ (∪)).
  repeat split; try done; try lia.
  intros key _. apply not_elem_of_nil.
Qed.

Lemma comes_after_weaken (allowed allowed' : string → Prop) st st' :
  (∀ key, allowed key → allowed' key) →
  comes_after rt allowed st st' → comes_after rt allowed' st st'.
Proof using Type.
  intros Himp (evs & H1 & H2 & H3 & H4 & H5 & H6 & H7 & H8 & H9 & H10 & H11 & H12).
  exists evs. repeat split; try done.
  - eapply Forall_impl; [exact H9|done].
  - eapply Forall_impl; [exact H10|done].
  - intros key [Hk|Hk]; apply H12; [left|by right].
    intros Ha. by apply Hk, Himp.
Qed.

Lemma comes_after_trans allowed st st' st'' :
  comes_after rt allowed st st' → comes_after rt allowed st' st'' →
  comes_after rt allowed st st''.
Proof using Type.
  intros (evs1 & H1 & H2 & H3 & H4 & H5 & H6 & H7 & H8 & H9 & H10 & H11 & H12)
         (evs2 & G1 & G2 & G3 & G4 & G5 & G6 & G7 & G8 & G9 & G10 & G11 & G12).
  assert (Hcomplete : ∀ key,
    posts_json_complete rt (disk st) key = true →
    posts_json_complete rt (disk st') key = true).
  { intros key Hkey. rewrite <- Hkey. apply posts_json_complete_ext.
    apply H12. by right. }
  exists (evs1 ++ evs2).
  split; [by rewrite G1, H1, <- app_assoc|].
  split; [by rewrite G2|]. split; [by rewrite G3|].
  split; [by transitivity (dom (posts_files (disk st')))|].
  split; [by rewrite G5, H5, dirs_after_app|].
  split; [apply writes_in_dirs_app; split; [done|by rewrite <- H5]|].
  split; [rewrite fetched_app, written_app; by apply sublist_app|].
  split; [rewrite G8, H8, fetched_app, length_app; lia|].
  split; [rewrite fetched_app; by apply Forall_app|].
  split; [rewrite made_app; by apply Forall_app|].
  split.
  - intros key Hkey Hin. rewrite fetched_app in Hin.
    apply elem_of_app in Hin as [Hin|Hin].
    + by apply (H11 key).
    + apply (G11 key); [by apply Hcomplete|done].
  - intros key Hkey. rewrite G12, H12; [done|done|].
    destruct Hkey as [Hk|Hk]; [by left|right; by apply Hcomplete].
Qed.

(** The loop from a state: wherever it stands after any number of turns,
    the state it is in comes after the first, provided the counter only
    takes values whose keys are allowed. *)
Lemma edition_loop_comes_after (allowed : string → Prop)
    (visit : double → Prop) endNum turns startNum st :
  visit startNum →
  (∀ ed, visit ed → double_leb ed endNum = true →
         allowed (edition_key rt ed) ∧ visit (increment ed)) →
  comes_after rt allowed st
    (state_of (edition_loop rt net token table endNum turns
                 (AtTest startNum st)))
  ∧ match edition_loop rt net token table endNum turns (AtTest startNum st) with
    | AtTest ed _ => visit ed
    | _ => True
    end.
Proof using Type.
  intros Hstart Hvisit.
  apply (edition_loop_invariant rt net token table
           (λ l, comes_after rt allowed st (state_of l)
                 ∧ match l with AtTest ed _ => visit ed | _ => True end)).
  - split; [apply comes_after_refl|done].
  - intros [ed st'|st'|code st'] [Hafter Hed]; simpl; [|done|done].
    destruct (double_leb ed endNum) eqn:Hle; [|done].
    destruct (Hvisit ed Hed Hle) as [Hkey Hnext].
    pose proof (edition_body_comes_after ed st') as Hpass.
    apply (comes_after_weaken _ allowed) in Hpass; [|by intros key ->].
    destruct (edition_body rt net token table ed st') as [[|code] st''];
      simpl in *; (split; [by eapply comes_after_trans|done]).
Qed.

End Frame.

(** ** The whole run *)

(** [main] stops at a check with one line on the error stream, or reads
    the registry and runs the loop over a range that is not empty. *)
Lemma main_shape rt net turns argv w :
  (∃ line, main rt net turns argv w = refused line w)
  ∨ ∃ token raw startNum endNum,
      registry w = Some raw
      ∧ double_leb startNum endNum = true
      ∧ main rt net turns argv w
        = (status_of
             (edition_loop rt net token (build_editionToLink (readCsv raw))
                endNum turns (AtTest startNum (State w 0 [ReadRegistry]))),
           state_of
             (edition_loop rt net token (build_editionToLink (readCsv raw))
                endNum turns (AtTest startNum (State w 0 [ReadRegistry])))).
Proof.
  unfold main, refused.
  destruct (arg_or (parseArgs argv !! "start") (parseArgs argv !! "s"))
    as [start|]; [|left; by eexists].
  destruct (arg_or (parseArgs argv !! "end") (parseArgs argv !! "e"))
    as [end_|]; [|left; by eexists].
  destruct (arg_or (parseArgs argv !! "token") (parseArgs argv !! "t"))
    as [tok|]; [|left; by eexists].
  destruct (Number rt start) as [|?|startNum]; try (left; by eexists).
  destruct (Number rt end_) as [|?|endNum]; try (left; by eexists).
  rewrite double_ltb_leb.
  destruct (double_leb startNum endNum) eqn:Hle; [|left; by eexists].
  destruct (registry w) as [raw|] eqn:Hreg; [|left; by eexists].
  right. by exists (arg_text tok), raw, startNum, endNum.
Qed.

Lemma comes_after_line rt allowed w e :
  fetched [e] = [] → written [e] = [] → made [e] = [] →
  comes_after rt allowed (State w 0 []) (State w 0 [e]).
Proof.
  intros Hf Hw Hm. exists [e]. simpl trace. simpl disk. simpl sent.
  unfold dirs_after. rewrite Hf, Hw, Hm. simpl.
  rewrite (right_id_L ∅ (∪)).
  repeat split; try done.
  - destruct e; try done; simpl in Hw, Hm; done.
  - intros key _. apply not_elem_of_nil.
Qed.

(** Wherever a run stands, its state comes after the first state. *)
Lemma main_comes_after rt net turns argv w :
  comes_after rt (λ _, True) (State w 0 []) (main rt net turns argv w).2.
Proof.
  destruct (main_shape rt net turns argv w)
    as [[line ->]|(token & raw & startNum & endNum & _ & _ & ->)]; simpl snd.
  - by apply comes_after_line.
  - apply comes_after_trans with (State w 0 [ReadRegistry]);
      [by apply comes_after_line|].
    by apply (edition_loop_comes_after rt net token _ (λ _, True) (λ _, True)).
Qed.

(** X14.  A cache file that is complete when the run starts is never
    written: whatever the command line, the registry and the answers of
    the API, and however long the run is followed, that file is as it
    was, its edition was not requested and no write of it is in the
    trace. *)
Theorem main_keeps_complete_files rt net turns argv w key :
  posts_json_complete rt w key = true →
  posts_files (disk (main rt net turns argv w).2) !! key = posts_files w !! key
  ∧ (key ∉ fetched (trace (main rt net turns argv w).2))
  ∧ (key ∉ written (trace (main rt net turns argv w).2)).
Proof.
  intros Hdone.
  destruct (main_comes_after rt net turns argv w)
    as (evs & Htr & _ & _ & _ & _ & _ & Hw & _ & _ & _ & Hasked & Hfiles).
  simpl in Htr, Hasked, Hfiles. rewrite Htr.
  split; [apply Hfiles; by right|].
  split; [by apply Hasked|].
  intros Hin. apply (Hasked key Hdone).
  by apply (elem_of_sublist _ _ _ Hin Hw).
Qed.

Lemma main_keeps_complete_files_example :
  let r := main Reference.runtime (always (HttpResponse 200 body_no_posts)) 6
             (command_line "10" "14") disk_cached_10 in
  r.1 = Some 0
  ∧ posts_files (disk r.2) !! "10" = Some body_three_posts
  ∧ ("10" ∉ written (trace r.2)).
Proof.
  intros r.
  destruct (main_keeps_complete_files Reference.runtime
              (always (HttpResponse 200 body_no_posts)) 6
              (command_line "10" "14") disk_cached_10 "10")
    as (Hfile & _ & Hnot); [evaluate|].
  split; [evaluate|]. split; [|exact Hnot].
  subst r. rewrite Hfile. reflexivity.
Defined.

(** The counter, started at a double, stays among the doubles at or above
    its first value. *)
Lemma counter_stays_above startNum v :
  startNum ≤ v → significant_53 v = true →
  startNum ≤ round53 (v + 1) ∧ significant_53 (round53 (v + 1)) = true.
Proof.
  intros Hv Hsig. split; [|apply significant_round53].
  pose proof (round53_step v Hsig). lia.
Qed.

Lemma accepted_start_double rt argv w startNum endNum token table :
  accepted rt argv w (Int startNum) endNum token table →
  significant_53 startNum = true.
Proof.
  intros (start & _ & _ & _ & _ & _ & _ & Hns & _).
  assert (Hd : is_double (Int startNum) = true).
  { destruct start as [s|]; simpl in Hns.
    - exact (Number_of_string_double rt s _ Hns).
    - by injection Hns as <-. }
  simpl in Hd. by apply andb_prop in Hd as [Hd _].
Qed.

(** X15.  A run accepted for the range [startNum .. endNum] of integers
    touches the file and the directory of no edition outside the range,
    however long it is followed. *)
Theorem main_writes_only_in_range rt net turns argv w startNum endNum token
    table key :
  accepted rt argv w (Int startNum) (Int endNum) token table →
  (∀ ed, startNum ≤ ed ≤ endNum → key ≠ edition_key rt (Int ed)) →
  posts_files (disk (main rt net turns argv w).2) !! key = posts_files w !! key
  ∧ (key ∈ edition_dirs (disk (main rt net turns argv w).2)
     ↔ key ∈ edition_dirs w).
Proof.
  intros Hacc Hout.
  pose proof (accepted_start_double _ _ _ _ _ _ _ Hacc) as Hstart.
  rewrite (main_accepted rt net token table turns argv w _ _ Hacc). simpl snd.
  destruct (edition_loop_comes_after rt net token table
              (λ k, ∃ ed, startNum ≤ ed ≤ endNum ∧ k = edition_key rt (Int ed))
              (λ d, match d with
                    | Int v => startNum ≤ v ∧ significant_53 v = true
                    | Frac _ _ => False
                    end)
              (Int endNum) turns (Int startNum) (State w 0 [ReadRegistry]))
    as [(evs & _ & _ & _ & _ & Hdirs & _ & _ & _ & _ & Hmade & _ & Hfiles) _].
  { split; [lia|done]. }
  { intros [v|num bits] Hv Hle; [|done]. destruct Hv as [Hlo Hsig].
    rewrite double_leb_Int in Hle. apply Z.leb_le in Hle.
    split; [exists v; split; [lia|done]|]. apply counter_stays_above; [lia|done]. }
  assert (Hkey : ¬ ∃ ed, startNum ≤ ed ≤ endNum ∧ key = edition_key rt (Int ed)).
  { intros (ed & Hed & Heq). by apply (Hout ed). }
  simpl in Hdirs, Hfiles.
  split; [apply Hfiles; by left|].
  rewrite Hdirs, elem_of_dirs_after. split; [|by left].
  intros [Hin|Hin]; [done|].
  rewrite Forall_forall in Hmade. destruct Hkey. exact (Hmade key Hin).
Qed.

Lemma main_writes_only_in_range_example :
  let r := main Reference.runtime (always (HttpResponse 200 body_three_posts)) 3
             (command_line "12" "13") disk_cached_10 in
  r.1 = Some 0
  ∧ posts_files (disk r.2) !! "14" = None
  ∧ posts_files (disk r.2) !! "10" = Some body_three_posts
  ∧ is_Some (posts_files (disk r.2) !! "12").
Proof.
  intros r.
  assert (Hacc : accepted Reference.runtime (command_line "12" "13")
                   disk_cached_10 (Int 12) (Int 13) "secret" table_10_14).
  { exists (AStr "12"), (AStr "13"), (AStr "secret"), registry_10_14.
    repeat split; evaluate. }
  assert (Hout : ∀ key, key = "14" ∨ key = "10" →
                 ∀ ed, 12 ≤ ed ≤ 13 →
                       key ≠ edition_key Reference.runtime (Int ed)).
  { intros key Hkey ed Hed. assert (Hcases : ed = 12 ∨ ed = 13) by lia.
    destruct Hkey as [-> | ->]; by destruct Hcases as [-> | ->]. }
  destruct (main_writes_only_in_range Reference.runtime
              (always (HttpResponse 200 body_three_posts)) 3
              (command_line "12" "13") disk_cached_10 12 13 "secret"
              table_10_14 "14" Hacc (Hout "14" (or_introl eq_refl)))
    as [H14 _].
  destruct (main_writes_only_in_range Reference.runtime
              (always (HttpResponse 200 body_three_posts)) 3
              (command_line "12" "13") disk_cached_10 12 13 "secret"
              table_10_14 "10" Hacc (Hout "10" (or_intror eq_refl)))
    as [H10 _].
  subst r. rewrite H14, H10.
  split; [evaluate|]. split; [reflexivity|]. split; [reflexivity|].
  vm_compute. by eexists.
Defined.

(** X16.  A run removes nothing and moves nothing: wherever it stands,
    the working directory and the registry are as they were, every cache
    file that existed still exists, and so does every edition
    directory. *)
Theorem main_never_removes rt net turns argv w :
  cwd (disk (main rt net turns argv w).2) = cwd w
  ∧ registry (disk (main rt net turns argv w).2) = registry w
  ∧ dom (posts_files w) ⊆ dom (posts_files (disk (main rt net turns argv w).2))
  ∧ edition_dirs w ⊆ edition_dirs (disk (main rt net turns argv w).2).
Proof.
  destruct (main_comes_after rt net turns argv w)
    as (evs & _ & Hcwd & Hreg & Hdom & Hdirs & _).
  simpl in Hcwd, Hreg, Hdom, Hdirs.
  split; [done|]. split; [done|]. split; [done|].
  rewrite Hdirs. apply dirs_after_subseteq.
Qed.

(** X17.  The directory of an edition is there before its file is
    written: replaying the trace of a run, wherever the run stands, from
    the edition directories it started with, every write goes into a
    directory that exists by then, and a directory is made only when it
    is missing. *)
Theorem main_makes_directory_before_write rt net turns argv w :
  writes_in_dirs (edition_dirs w) (trace (main rt net turns argv w).2)
  ∧ edition_dirs (disk (main rt net turns argv w).2)
    = dirs_after (edition_dirs w) (trace (main rt net turns argv w).2).
Proof.
  destruct (main_comes_after rt net turns argv w)
    as (evs & Htr & _ & _ & _ & Hdirs & Hwrites & _).
  simpl in Htr, Hdirs, Hwrites. by rewrite Htr.
Qed.

Lemma edition_range_app startNum v endNum :
  startNum ≤ v ≤ endNum + 1 →
  edition_range startNum endNum
  = edition_range startNum (v - 1) ++ edition_range v endNum.
Proof.
  intros Hv. unfold edition_range.
  replace (endNum - startNum + 1)
    with ((v - 1 - startNum + 1) + (endNum - v + 1)) by lia.
  rewrite seqZ_app by lia. f_equal. f_equal. lia.
Qed.

(** The value of the loop counter at its [i]-th test. *)
Lemma counter_at_turn rt net token table startNum endNum st : ∀ turns,
  match edition_loop rt net token table endNum turns (AtTest startNum st) with
  | AtTest ed _ => ed = Nat.iter turns increment startNum
  | _ => True
  end.
Proof.
  induction turns as [|n IH]; [done|].
  rewrite edition_loop_S_last.
  destruct (edition_loop rt net token table endNum n (AtTest startNum st))
    as [ed st'|st'|code st']; [|done|done].
  simpl. destruct (double_leb ed endNum); [|done].
  destruct (edition_body rt net token table ed st') as [[|code] st''];
    [|done].
  by rewrite IH.
Qed.

(** X18.  Requests follow the loop counter: wherever the run stands, the
    editions requested so far are a sublist of the values the counter
    had at its tests, in their order, so each turn of the loop sends at
    most one request, for the edition of that turn; and the editions
    written are a sublist of those requested, so a file is written only
    for an edition requested in the same run.  On a range of integers
    where the counter counts exactly, the editions requested are a
    sublist of the range: requests go out in ascending order of edition,
    at most one for each. *)
Theorem requests_follow_the_editions rt net turns argv w startNum endNum token
    table :
  accepted rt argv w startNum endNum token table →
  fetched (trace (main rt net turns argv w).2)
    `sublist_of` ((λ i, edition_key rt (Nat.iter i increment startNum))
                  <$> seq 0 turns)
  ∧ written (trace (main rt net turns argv w).2)
      `sublist_of` fetched (trace (main rt net turns argv w).2)
  ∧ (∀ s e,
       startNum = Int s → endNum = Int e → counts_exactly s e →
       fetched (trace (main rt net turns argv w).2)
         `sublist_of` (edition_key rt ∘ Int <$> edition_range s e)).
Proof.
  intros Hacc.
  rewrite (main_accepted rt net token table turns argv w _ _ Hacc). simpl snd.
  split; [|split].
  - induction turns as [|n IH]; [simpl; done|].
    rewrite edition_loop_S_last.
    pose proof (counter_at_turn rt net token table startNum endNum
                  (State w 0 [ReadRegistry]) n) as Hed.
    rewrite seq_S, fmap_app. simpl fmap.
    destruct (edition_loop rt net token table endNum n
                (AtTest startNum (State w 0 [ReadRegistry])))
      as [ed st|st|code st]; simpl in IH |- *;
      [|by apply sublist_inserts_r|by apply sublist_inserts_r].
    destruct (double_leb ed endNum); [|by apply sublist_inserts_r].
    destruct (edition_body_requests rt net token table ed st)
      as (evs & Htr & Hfe & _).
    assert (Hnow : fetched (trace (edition_body rt net token table ed st).2)
                   `sublist_of`
                   ((λ i, edition_key rt (Nat.iter i increment startNum))
                    <$> seq 0 n)
                   ++ [edition_key rt (Nat.iter n increment startNum)]).
    { rewrite Htr, fetched_app, <- Hed. by apply sublist_app. }
    by destruct (edition_body rt net token table ed st) as [[|code] st'].
  - apply (edition_loop_invariant rt net token table
             (λ l, written (trace (state_of l))
                   `sublist_of` fetched (trace (state_of l)))); [done|].
    intros [ed st|st|code st] Hw; simpl in Hw |- *; [|done|done].
    destruct (double_leb ed endNum); [|done].
    destruct (edition_body_requests rt net token table ed st)
      as (evs & Htr & _ & Hwe).
    assert (Hnow : written (trace (edition_body rt net token table ed st).2)
                   `sublist_of`
                   fetched (trace (edition_body rt net token table ed st).2)).
    { rewrite Htr, fetched_app, written_app. by apply sublist_app. }
    by destruct (edition_body rt net token table ed st) as [[|code] st'].
  - intros s e -> -> [Hlo Hhi].
    set (keys := λ a b, edition_key rt ∘ Int <$> edition_range a b).
    set (Inv := λ l : loop_state,
      match l with
      | AtTest (Int v) st =>
          s ≤ v ≤ Z.max s (e + 1)
          ∧ fetched (trace st) `sublist_of` keys s (v - 1)
      | AtTest (Frac _ _) _ => False
      | Finished st | Exited _ st =>
          fetched (trace st) `sublist_of` keys s e
      end).
    assert (Hprefix : ∀ v l, s ≤ v ≤ Z.max s (e + 1) →
              l `sublist_of` keys s (v - 1) →
              l `sublist_of` keys s e).
    { intros v l Hv Hl. unfold keys.
      destruct (decide (v ≤ e + 1)) as [Hve|Hve].
      - rewrite (edition_range_app s v e) by lia. rewrite fmap_app.
        by apply sublist_inserts_r.
      - assert (v = s) as -> by lia. unfold keys in Hl.
        rewrite edition_range_empty in Hl by lia.
        apply sublist_nil_r in Hl as ->. apply sublist_nil_l. }
    cut (Inv (edition_loop rt net token table (Int e) turns
                (AtTest (Int s) (State w 0 [ReadRegistry])))).
    { unfold Inv.
      destruct (edition_loop _ _ _ _ _ _ _) as [[v|num bits] st|st|code st];
        simpl; try done.
      intros [Hv Hf]. by apply (Hprefix v). }
    apply edition_loop_invariant.
    + unfold Inv. simpl. split; [lia|apply sublist_nil_l].
    + unfold Inv.
      intros [[v|num bits] st|st|code st] H; try done.
      destruct H as [Hv Hf].
      destruct (double_leb (Int v) (Int e)) eqn:Hlev.
      * rewrite double_leb_Int in Hlev. apply Z.leb_le in Hlev.
        rewrite loop_turn_pass by (rewrite double_leb_Int; by apply Z.leb_le).
        destruct (edition_body_requests rt net token table (Int v) st)
          as (evs & Htr & Hfe & Hwe).
        assert (Hnow : fetched (trace st ++ evs) `sublist_of` keys s v).
        { rewrite fetched_app. unfold keys.
          rewrite (edition_range_snoc s v) by lia. rewrite fmap_app.
          by apply sublist_app. }
        rewrite increment_Int by lia.
        destruct (edition_body rt net token table (Int v) st) as [[|code] st'];
          simpl in Htr |- *; rewrite Htr.
        -- split; [lia|]. by replace (v + 1 - 1) with v by lia.
        -- apply (Hprefix (v + 1)); [lia|].
           by replace (v + 1 - 1) with v by lia.
      * rewrite loop_turn_leave by done. simpl. by apply (Hprefix v).
Qed.

Lemma requests_follow_the_editions_example :
  let r := main Reference.runtime rate_limit_on_43 4 (command_line "10" "14")
             empty_disk in
  r.1 = Some 1
  ∧ fetched (trace r.2) = ["10"; "12"]
  ∧ written (trace r.2) = ["10"]
  ∧ fetched (trace r.2)
      `sublist_of` (edition_key Reference.runtime ∘ Int <$> edition_range 10 14).
Proof.
  intros r.
  assert (Hacc : accepted Reference.runtime (command_line "10" "14") empty_disk
                   (Int 10) (Int 14) "secret" table_10_14).
  { exists (AStr "10"), (AStr "14"), (AStr "secret"), registry_10_14.
    repeat split; evaluate. }
  destruct (requests_follow_the_editions Reference.runtime rate_limit_on_43 4
              (command_line "10" "14") empty_disk (Int 10) (Int 14) "secret"
              table_10_14 Hacc) as (_ & _ & Hf).
  split; [evaluate|]. split; [evaluate|]. split; [evaluate|].
  apply (Hf 10 14 eq_refl eq_refl). by split.
Defined.

(** Where the loop stands, by the last event: at a test it has logged
    nothing yet or an edition's line last; left by the test failing, an
    edition's line; left by [process.exit], the rate-limit line, with
    status 1. *)
Lemma edition_loop_last rt net token table startNum endNum st turns :
  double_leb startNum endNum = true →
  match edition_loop rt net token table endNum turns (AtTest startNum st) with
  | AtTest ed st' =>
      (ed = startNum ∧ st' = st)
      ∨ ∃ line, last (trace st') = Some (ConsoleLog ("Edition " +:+ line))
  | Finished st' =>
      ∃ line, last (trace st') = Some (ConsoleLog ("Edition " +:+ line))
  | Exited code st' =>
      code = 1 ∧ last (trace st') = Some (ConsoleLog line_rate_limit)
  end.
Proof.
  intros Hle.
  apply (edition_loop_invariant rt net token table
           (λ l, match l with
                 | AtTest ed st' =>
                     (ed = startNum ∧ st' = st)
                     ∨ ∃ line, last (trace st')
                               = Some (ConsoleLog ("Edition " +:+ line))
                 | Finished st' =>
                     ∃ line, last (trace st')
                             = Some (ConsoleLog ("Edition " +:+ line))
                 | Exited code st' =>
                     code = 1
                     ∧ last (trace st') = Some (ConsoleLog line_rate_limit)
                 end)); [by left|].
  intros [ed st'|st'|code st'] H; simpl; [|done|done].
  destruct (double_leb ed endNum) eqn:Hed.
  - destruct (edition_body_shape rt net token table ed st')
      as [[line E]|(tid & _ & [[line E]|[E|(contiguous & line & E)]])];
      rewrite E; clear E.
    + right. exists line. simpl. by rewrite last_snoc.
    + right. exists line. simpl. by rewrite last_snoc.
    + split; [done|]. simpl. by rewrite last_snoc.
    + right. exists line. simpl. by rewrite last_snoc.
  - destruct H as [[-> ->]|H]; [by rewrite Hle in Hed|done].
Qed.

(** On a range where the counter counts exactly the loop is over after
    one turn for each edition and one more. *)
Lemma edition_loop_terminates rt net token table endNum : ∀ (n : nat) startNum st,
  Z.of_nat n = endNum - startNum + 1 →
  counts_exactly startNum endNum →
  status_of (edition_loop rt net token table (Int endNum) (S n)
               (AtTest (Int startNum) st)) ≠ None.
Proof.
  induction n as [|n IH]; intros startNum st Hn [Hlo Hhi].
  - rewrite edition_loop_S, loop_turn_leave; [done|].
    rewrite double_leb_Int. apply Z.leb_gt. lia.
  - rewrite edition_loop_S, loop_turn_pass
      by (rewrite double_leb_Int; apply Z.leb_le; lia).
    rewrite increment_Int by lia.
    destruct (edition_body rt net token table (Int startNum) st)
      as [[|code] st'].
    + apply IH; [lia|split; lia].
    + by rewrite edition_loop_Exited.
Qed.

Lemma edition_loop_over rt net token table endNum more l :
  status_of l ≠ None →
  edition_loop rt net token table endNum more l = l.
Proof.
  destruct l as [ed st|st|code st]; [done| |]; intros _.
  - apply edition_loop_Finished.
  - apply edition_loop_Exited.
Qed.

(** X19.  Whenever the process has exited, its status is 0 or 1, and the
    last event of the run tells which: status 0 comes with the log line
    of an edition last; status 1 comes exactly with a single line on the
    error stream and nothing else done, or with the rate-limit line
    last.  On an accepted range of integers where the counter counts
    exactly, the process has exited after one turn for each edition and
    one more, and further turns change nothing. *)
Theorem main_exit_status rt net turns argv w :
  ((main rt net turns argv w).1 = None
   ∨ (main rt net turns argv w).1 = Some 0
   ∨ (main rt net turns argv w).1 = Some 1)
  ∧ ((main rt net turns argv w).1 = Some 0 →
     ∃ line, last (trace (main rt net turns argv w).2)
             = Some (ConsoleLog ("Edition " +:+ line)))
  ∧ ((main rt net turns argv w).1 = Some 1
     ↔ (∃ line, main rt net turns argv w = refused line w)
       ∨ last (trace (main rt net turns argv w).2)
         = Some (ConsoleLog line_rate_limit))
  ∧ (∀ startNum endNum token table more,
       accepted rt argv w (Int startNum) (Int endNum) token table →
       counts_exactly startNum endNum →
       (main rt net (Z.to_nat (endNum - startNum + 2)) argv w).1 ≠ None
       ∧ main rt net (more + Z.to_nat (endNum - startNum + 2)) argv w
         = main rt net (Z.to_nat (endNum - startNum + 2)) argv w).
Proof.
  assert (Hlines : ∀ line, ConsoleLog line_rate_limit
                           ≠ ConsoleLog ("Edition " +:+ line)).
  { intros line H. unfold line_rate_limit in H. cbv in H. discriminate. }
  split; [|split; [|split]].
  - destruct (main_shape rt net turns argv w)
      as [[line ->]|(token & raw & startNum & endNum & _ & Hle & ->)];
      simpl fst; [by right; right|].
    pose proof (edition_loop_last rt net token
                  (build_editionToLink (readCsv raw)) startNum endNum
                  (State w 0 [ReadRegistry]) turns Hle) as Hlast.
    destruct (edition_loop _ _ _ _ _ _ _) as [ed st|st|code st]; simpl;
      [by left|by right; left|].
    destruct Hlast as [-> _]. by right; right.
  - destruct (main_shape rt net turns argv w)
      as [[line ->]|(token & raw & startNum & endNum & _ & Hle & ->)];
      simpl; [done|].
    pose proof (edition_loop_last rt net token
                  (build_editionToLink (readCsv raw)) startNum endNum
                  (State w 0 [ReadRegistry]) turns Hle) as Hlast.
    destruct (edition_loop _ _ _ _ _ _ _) as [ed st|st|code st]; simpl;
      [done|done|].
    destruct Hlast as [-> _]. done.
  - destruct (main_shape rt net turns argv w)
      as [[line Hmain]|(token & raw & startNum & endNum & _ & Hle & Hmain)].
    + rewrite Hmain. split; [intros _; left; by exists line|done].
    + rewrite Hmain. simpl.
      pose proof (edition_loop_last rt net token
                    (build_editionToLink (readCsv raw)) startNum endNum
                    (State w 0 [ReadRegistry]) turns Hle) as Hlast.
      destruct (edition_loop _ _ _ _ _ _ _) as [ed st|st|code st]; simpl.
      * split; [done|]. intros [[line H]|H]; [done|].
        destruct Hlast as [[_ ->]|[line Hline]]; [done|].
        rewrite Hline in H. injection H as H. by destruct (Hlines line).
      * split; [done|]. intros [[line H]|H]; [done|].
        destruct Hlast as [line Hline].
        rewrite Hline in H. injection H as H. by destruct (Hlines line).
      * destruct Hlast as [-> Hline]. split; [intros _; by right|done].
  - intros startNum endNum token table more Hacc Hexact.
    assert (Hle : startNum ≤ endNum).
    { destruct Hacc as (_ & _ & _ & _ & _ & _ & _ & _ & _ & Hle & _).
      rewrite double_leb_Int in Hle. by apply Z.leb_le. }
    rewrite !(main_accepted rt net token table _ argv w _ _ Hacc).
    replace (Z.to_nat (endNum - startNum + 2))
      with (S (Z.to_nat (endNum - startNum + 1))) by lia.
    pose proof (edition_loop_terminates rt net token table endNum
                  (Z.to_nat (endNum - startNum + 1)) startNum
                  (State w 0 [ReadRegistry]) ltac:(lia) Hexact) as Hover.
    split; [done|].
    by rewrite edition_loop_add, edition_loop_over.
Qed.

(** X20.  The file a pass writes is read back as complete by the next
    pass: when the selection written is not empty and the text written
    parses back to the object written, the same edition is skipped from
    then on, whatever the remote side would answer. *)
Theorem written_cache_is_complete rt net net' token table ed st tid posts contiguous :
  extractTidFromLink rt (link_of rt table ed) = Some tid →
  posts_json_complete rt (disk st) (edition_key rt ed) = false →
  fetchThreadPosts rt net (sent st) tid token = Return posts →
  selectContiguousFirstAuthorPosts posts = Return contiguous →
  contiguous ≠ [] →
  JSON_parse rt (payload_text rt contiguous)
  = Return (JObj [("posts", JArr contiguous)]) →
  posts_json_complete rt (disk (edition_body rt net token table ed st).2)
    (edition_key rt ed) = true
  ∧ edition_body rt net' token table ed (edition_body rt net token table ed st).2
    = (Next,
       emit (ConsoleLog (line_skipping rt ed))
         (edition_body rt net token table ed st).2).
Proof.
  intros Htid Hdone Hposts Hsel Hne Hparse.
  destruct (edition_body_writes rt net token table ed st tid posts contiguous
              Htid Hdone Hposts Hsel) as [_ Hfiles].
  assert (Hnow : posts_json_complete rt
                   (disk (edition_body rt net token table ed st).2)
                   (edition_key rt ed) = true).
  { unfold posts_json_complete, fileExists, readFileSync.
    rewrite Hfiles, lookup_insert_eq.
    rewrite bool_decide_eq_true_2 by (by eexists). simpl.
    rewrite Hparse. simpl. by destruct contiguous. }
  split; [done|].
  by apply edition_body_skipping with tid.
Qed.

Lemma written_cache_is_complete_example :
  let net := always (HttpResponse 200 body_three_posts) in
  let down := always (HttpError (Error "down")) in
  let st := (edition_body Reference.runtime net "secret" table_10_14 (Int 10)
               (State empty_disk 0 [])).2 in
  edition_body Reference.runtime down "secret" table_10_14 (Int 10) st
  = (Next, emit (ConsoleLog "Edition 10 - posts.json exists, skipping") st).
Proof.
  intros net down st.
  exact (proj2 (written_cache_is_complete Reference.runtime net down "secret"
                  table_10_14 (Int 10) (State empty_disk 0 []) "42"
                  (JArr [post_of 7 1; post_of 8 1; post_of 9 2])
                  [post_of 7 1; post_of 8 1]
                  ltac:(evaluate) ltac:(evaluate) ltac:(evaluate)
                  ltac:(evaluate) ltac:(discriminate) ltac:(evaluate))).
Defined.

(** X21.  Without the registry file nothing is done: the run ends with
    status 1 after one line on the error stream, and with arguments that
    pass the checks the line names the path
    [path.join(cwd, "news", "editions.csv")]. *)
Theorem main_without_registry rt net turns argv w :
  registry w = None →
  (∃ line, main rt net turns argv w = refused line w)
  ∧ (∀ start end_ tok startNum endNum,
       supplied argv "start" "s" = Some start →
       supplied argv "end" "e" = Some end_ →
       supplied argv "token" "t" = Some tok →
       Number rt start = Finite startNum →
       Number rt end_ = Finite endNum →
       double_leb startNum endNum = true →
       main rt net turns argv w
       = refused
           ("Cannot find " +:+ path_join [cwd w; "news"; "editions.csv"]) w).
Proof.
  intros Hreg. split.
  - destruct (main_shape rt net turns argv w)
      as [H|(token & raw & startNum & endNum & Hraw & _)]; [done|].
    by rewrite Hreg in Hraw.
  - intros start end_ tok startNum endNum Hs He Ht Hns Hne Hle.
    rewrite (main_supplied rt net turns argv w _ _ _ Hs He Ht), Hns, Hne.
    rewrite double_ltb_leb, Hle. simpl. unfold batch. by rewrite Hreg.
Qed.

Lemma main_without_registry_example :
  main Reference.runtime (always (HttpResponse 200 body_three_posts)) 5
    (command_line "10" "14") root_no_registry
  = refused "Cannot find /news/editions.csv" root_no_registry
  ∧ main Reference.runtime (always (HttpResponse 200 body_three_posts)) 5
      (command_line "10" "14") disk_no_registry
    = refused "Cannot find /repo/news/editions.csv" disk_no_registry.
Proof.
  split.
  - exact (proj2 (main_without_registry Reference.runtime
                    (always (HttpResponse 200 body_three_posts)) 5
                    (command_line "10" "14") root_no_registry eq_refl)
             (AStr "10") (AStr "14") (AStr "secret") (Int 10) (Int 14)
             ltac:(evaluate) ltac:(evaluate) ltac:(evaluate)
             ltac:(evaluate) ltac:(evaluate) ltac:(evaluate)).
  - evaluate.
Defined.

Lemma mjoin_replicate_S {A} (n : nat) (l : list A) :
  mjoin (replicate (S n) l) = mjoin (replicate n l) ++ l.
Proof.
  induction n as [|n IH]; [simpl; by rewrite app_nil_r|].
  change (l ++ mjoin (replicate (S n) l) = (l ++ mjoin (replicate n l)) ++ l).
  by rewrite IH, app_assoc.
Qed.

(** X25.  From [2^53] on the counter does not advance.  With a range that
    starts at [2^53], a link with a tid for that edition, no complete
    cache file and a fetch that fails without the rate-limit marker, the
    process never exits: after any number of turns the loop is still
    running, and each turn has sent one more request for the same
    edition and logged its failure. *)
Theorem counter_stuck_at_2_53 rt net turns argv w endNum token table tid err :
  accepted rt argv w (Int (2 ^ 53)) endNum token table →
  extractTidFromLink rt (link_of rt table (Int (2 ^ 53))) = Some tid →
  posts_json_complete rt w (edition_key rt (Int (2 ^ 53))) = false →
  (∀ n, fetchThreadPosts rt net n tid token = Throw err) →
  is_rate_limit err = false →
  main rt net turns argv w
  = (None,
     State w turns
       (ReadRegistry
        :: mjoin (replicate turns
                    [Fetch (edition_key rt (Int (2 ^ 53))) tid;
                     ConsoleLog (line_failed rt (Int (2 ^ 53)) (err_message err))]))).
Proof.
  intros Hacc Htid Hdone Hfetch Hrate.
  assert (Hle : double_leb (Int (2 ^ 53)) endNum = true).
  { by destruct Hacc as (_ & _ & _ & _ & _ & _ & _ & _ & _ & Hle & _). }
  rewrite (main_accepted rt net token table turns argv w _ _ Hacc).
  cut (edition_loop rt net token table endNum turns
         (AtTest (Int (2 ^ 53)) (State w 0 [ReadRegistry]))
       = AtTest (Int (2 ^ 53))
           (State w turns
              (ReadRegistry
               :: mjoin (replicate turns
                           [Fetch (edition_key rt (Int (2 ^ 53))) tid;
                            ConsoleLog (line_failed rt (Int (2 ^ 53))
                                          (err_message err))])))).
  { by intros ->. }
  induction turns as [|n IH]; [done|].
  change (edition_loop rt net token table endNum (S n)
            (AtTest (Int (2 ^ 53)) (State w 0 [ReadRegistry])))
    with (loop_turn rt net token table endNum
            (edition_loop rt net token table endNum n
               (AtTest (Int (2 ^ 53)) (State w 0 [ReadRegistry])))).
  rewrite IH, (loop_turn_pass _ _ _ _ _ _ _ Hle).
  rewrite (edition_body_failure rt net token table _ _ tid err Htid);
    [|done|unfold attempt; by rewrite Hfetch].
  rewrite Hrate, increment_stuck, mjoin_replicate_S.
  unfold emit, fetching. simpl. by rewrite <- !app_assoc.
Qed.

Lemma counter_stuck_at_2_53_example :
  main Reference.runtime (always (HttpResponse 500 "oops")) 3
    (command_line "9007199254740992" "9007199254740992") disk_2_53
  = (None,
     State disk_2_53 3
       [ReadRegistry;
        Fetch "9007199254740992" "42";
        ConsoleLog "Edition 9007199254740992 - fetch failed: HTTP 500: oops";
        Fetch "9007199254740992" "42";
        ConsoleLog "Edition 9007199254740992 - fetch failed: HTTP 500: oops";
        Fetch "9007199254740992" "42";
        ConsoleLog "Edition 9007199254740992 - fetch failed: HTTP 500: oops"]).
Proof.
  rewrite (counter_stuck_at_2_53 Reference.runtime
             (always (HttpResponse 500 "oops")) 3
             (command_line "9007199254740992" "9007199254740992") disk_2_53
             (Int (2 ^ 53)) "secret"
             (build_editionToLink (readCsv registry_2_53)) "42"
             (Error (http_message 500 "oops"))).
  - reflexivity.
  - exists (AStr "9007199254740992"), (AStr "9007199254740992"),
      (AStr "secret"), registry_2_53.
    repeat split; evaluate.
  - evaluate.
  - evaluate.
  - intros n. reflexivity.
  - reflexivity.
Defined.

(** ** Edge cases of the selection and of the command line *)

Lemma select_from_null firstUid run : ∀ i result rest,
  select_from firstUid i run result = Return (result ++ run) →
  select_from firstUid i (run ++ JNull :: rest) result
  = Throw (JsError "TypeError" "Cannot read properties of null (reading 'uid')").
Proof.
  induction run as [|p run IH]; intros i result rest Hrun; simpl; [done|].
  simpl in Hrun. destruct (read_uid p) as [v|e]; simpl in *; [|done].
  destruct (strict_equals_at i 0 v firstUid).
  - apply IH. by rewrite <- app_assoc.
  - injection Hrun as Hrun.
    apply (f_equal length) in Hrun. rewrite length_app in Hrun.
    simpl in Hrun. lia.
Qed.

(** X22.  A [null] where a post is read makes the selection throw a
    TypeError instead of returning: as the first element, or after posts
    that all have the first post's [uid]. *)
Theorem selectContiguousFirstAuthorPosts_null_in_run
    (p0 : json) (run rest : list json) :
  selectContiguousFirstAuthorPosts (JArr (p0 :: run)) = Return (p0 :: run) →
  selectContiguousFirstAuthorPosts (JArr (p0 :: run ++ JNull :: rest))
  = Throw (JsError "TypeError" "Cannot read properties of null (reading 'uid')")
  ∧ selectContiguousFirstAuthorPosts (JArr (JNull :: rest))
    = Throw (JsError "TypeError" "Cannot read properties of null (reading 'uid')").
Proof.
  intros Hrun. split; [|done]. simpl in *.
  destruct (read_uid p0) as [uid|e]; simpl in *; [|done].
  rewrite strict_equals_at_refl in *.
  by apply (select_from_null uid run 1 [p0] rest).
Qed.

Lemma selectContiguousFirstAuthorPosts_null_in_run_example :
  selectContiguousFirstAuthorPosts
    (JArr [post_of 7 1; post_of 8 1; JNull; post_of 9 2])
  = Throw (JsError "TypeError" "Cannot read properties of null (reading 'uid')").
Proof.
  exact (proj1 (selectContiguousFirstAuthorPosts_null_in_run
                  (post_of 7 1) [post_of 8 1] [post_of 9 2] eq_refl)).
Defined.

(** X23.  When the selection of a non-empty array returns, what it returns
    starts with the first post: a thread that has posts is never cached
    as empty. *)
Theorem selectContiguousFirstAuthorPosts_keeps_first
    (p0 : json) (rest R : list json) :
  selectContiguousFirstAuthorPosts (JArr (p0 :: rest)) = Return R →
  ∃ R', R = p0 :: R' ∧ R' `prefix_of` rest.
Proof.
  simpl. destruct (read_uid p0) as [uid|e]; simpl; [|done].
  rewrite strict_equals_at_refl. intros H.
  destruct (select_from_take _ _ _ _ _ H) as (n & -> & _).
  exists (take n rest). split; [done|]. apply prefix_take.
Qed.

Lemma selectContiguousFirstAuthorPosts_keeps_first_example :
  selectContiguousFirstAuthorPosts (JArr [post_of 7 1; post_of 8 1; post_of 9 2])
  = Return [post_of 7 1; post_of 8 1]
  ∧ ∃ R', [post_of 7 1; post_of 8 1] = post_of 7 1 :: R'
          ∧ R' `prefix_of` [post_of 8 1; post_of 9 2].
Proof.
  split; [reflexivity|].
  exact (selectContiguousFirstAuthorPosts_keeps_first (post_of 7 1)
           [post_of 8 1; post_of 9 2] [post_of 7 1; post_of 8 1] eq_refl).
Defined.

(** X24.  A flag [--k] that no value follows (the arguments end, the next
    argument is a flag, or it is the empty string) gets the value
    [true], and the argument after it is read as usual. *)
Theorem parseArgs_flag_without_value (k : string) (rest : list string)
    (args : gmap string argval) :
  free_of "=" k = true →
  starts_with_flag rest ∨ (∃ rest', rest = EmptyString :: rest') →
  parseArgs_from (("--" +:+ k) :: rest) args
  = parseArgs_from rest (set_arg k ATrue args).
Proof.
  intros Hk Hrest.
  change (parseArgs_from (("--" +:+ k) :: rest) args)
    with (if startsWith "--" ("--" +:+ k) then
            let pieces := split_on "=" EmptyString ("--" +:+ k) in
            let key := default EmptyString (pieces !! 0%nat) in
            let value := pieces !! 1%nat in
            match value with
            | Some v' => parseArgs_from rest (set_arg (strip_dashes key) (AStr v') args)
            | None =>
                match rest with
                | next :: rest' =>
                    if negb (is_empty next) && negb (startsWith "--" next)
                    then parseArgs_from rest' (set_arg (strip_dashes key) (AStr next) args)
                    else parseArgs_from rest (set_arg (strip_dashes key) ATrue args)
                | [] => parseArgs_from rest (set_arg (strip_dashes key) ATrue args)
                end
            end
          else parseArgs_from rest args).
  rewrite startsWith_dashes.
  rewrite (split_on_free "=" ("--" +:+ k) EmptyString Hk).
  cbv zeta. change (default EmptyString ([EmptyString +:+ ("--" +:+ k)] !! 0%nat))
    with ("--" +:+ k).
  change ([EmptyString +:+ ("--" +:+ k)] !! 1%nat) with (@None string).
  change (strip_dashes ("--" +:+ k)) with k.
  destruct rest as [|next rest']; [done|].
  destruct Hrest as [Hflag|[rest'' [= -> ->]]].
  - simpl in Hflag. by rewrite Hflag, andb_false_r.
  - done.
Qed.

Lemma parseArgs_flag_without_value_example :
  parseArgs ["node"; "scripts/fetch_posts.js"; "--start"; "--end"; "5"]
  = parseArgs_from ["--end"; "5"] (set_arg "start" ATrue ∅)
  ∧ supplied ["node"; "scripts/fetch_posts.js"; "--start"; "--end"; "5"]
      "start" "s" = Some ATrue.
Proof.
  split; [|reflexivity].
  apply (parseArgs_flag_without_value "start" ["--end"; "5"] ∅ eq_refl).
  by left.
Defined.
